(** * lbrycrd.go claim trie: per-name node, Merkle prefix trie, replay driver

    A shallow embedding of
      - claimtrie/node/node.go          (module [node]),
      - claimtrie/merkletrie/merkletrie.go (module [merkletrie]),
      - claimtrie/cmd/cmd/chain.go      (module [cmd]),
    followed by the properties established about them.

    Conventions.
      - Go [int32]/[int64] values are integers of [Z]; additions that the
        code performs on them are wrapped with [int32]/[int64].
      - A [*Claim] is a location of a store [Mem]; a [ClaimList] is a list
        of locations, so that [Node.BestClaim] aliases an entry of
        [Node.Claims] exactly as in the Go program.
      - Bytes are [Byte.byte]; a [chainhash.Hash] and a [[]byte] are lists
        of bytes. *)

From Stdlib Require Import ZArith Lia.
From Stdlib.Strings Require Import Byte.
From stdpp Require Import base option list functions gmap strings.

Local Open Scope Z_scope.

(** ** Machine integers *)

Definition wrap (w : Z) (z : Z) : Z := (z + 2 ^ (w - 1)) mod 2 ^ w - 2 ^ (w - 1).
Definition int32 : Z -> Z := wrap 32.
Definition int64 : Z -> Z := wrap 64.
Definition MaxInt32 : Z := 2147483647.

#[global] Instance byte_eq_dec : EqDecision byte := Byte.byte_eq_dec.

(** ** Package [change] (its declarations are not among the sources; the
    fields are those that node.go and chain.go read). *)
Module change.

Inductive ChangeType :=
| AddClaim | SpendClaim | UpdateClaim | AddSupport | SpendSupport
| OtherType (code : Z).

Record Change := mkChange {
  Type_ : ChangeType;
  Height : Z;
  VisibleHeight : Z;
  Name : list byte;
  ClaimID : string;
  OutPoint : string;
  Amount : Z;
  Value : list byte
}.

End change.

(** ** Package [node] *)
Module node.

Inductive Status := Accepted | Activated | Deactivated.

#[global] Instance Status_eq_dec : EqDecision Status.
Proof. solve_decision. Defined.

Record OutPoint := mkOutPoint { Hash : list byte; Index : Z }.

#[global] Instance OutPoint_eq_dec : EqDecision OutPoint.
Proof. solve_decision. Defined.

Record Claim := mkClaim {
  cOutPoint : OutPoint;
  ClaimID : string;
  Amount : Z;
  AcceptedAt : Z;
  ActiveAt : Z;
  Status_ : Status;
  Value : list byte;
  VisibleAt : Z
}.

(** A [*Claim] and the store the pointers live in. Go pointers never
    dangle, so the store is total. *)
Abbreviation loc := nat.
Abbreviation Mem := (loc -> Claim).

Abbreviation ClaimList := (list loc).

Record Node := mkNode {
  BestClaim : option loc;
  TakenOverAt : Z;
  Claims : ClaimList;
  Supports : ClaimList
}.

Definition New : Node := mkNode None 0 [] [].

(** What [fmt.Printf] writes, one constructor per format string of node.go. *)
Inductive LogMsg :=
| LogConflict (name : list byte) (height : Z)
| LogMissingClaim (outPoint : string) (name : list byte) (claimID : string)
| LogMissingUpdate (claimID : string)
| LogMissingSupport (outPoint : string) (name : list byte) (claimID : string).

(** The process state around a node: the store of claims with its
    allocator, the package variable [mispents] (keys ["%d_%s"] of a height
    and a claim id) and standard output. *)
Record World := mkWorld {
  mem : Mem;
  next : loc;
  mispents : gset (Z * string);
  stdout : list LogMsg
}.

(** *** Claim setters.
    Modelled from the spec: claim.go is not among the sources; each setter
    assigns the one field it is named after ("reassign its
    out_point/amount/value; reset status ...; reset accepted_at ... and
    active_at"). *)
Definition withOutPoint (c : Claim) (op : OutPoint) : Claim :=
  mkClaim op (ClaimID c) (Amount c) (AcceptedAt c) (ActiveAt c) (Status_ c) (Value c) (VisibleAt c).
Definition withAmt (c : Claim) (amt : Z) : Claim :=
  mkClaim (cOutPoint c) (ClaimID c) amt (AcceptedAt c) (ActiveAt c) (Status_ c) (Value c) (VisibleAt c).
Definition withValue (c : Claim) (v : list byte) : Claim :=
  mkClaim (cOutPoint c) (ClaimID c) (Amount c) (AcceptedAt c) (ActiveAt c) (Status_ c) v (VisibleAt c).
Definition withAccepted (c : Claim) (h : Z) : Claim :=
  mkClaim (cOutPoint c) (ClaimID c) (Amount c) h (ActiveAt c) (Status_ c) (Value c) (VisibleAt c).
Definition withActiveAt (c : Claim) (h : Z) : Claim :=
  mkClaim (cOutPoint c) (ClaimID c) (Amount c) (AcceptedAt c) h (Status_ c) (Value c) (VisibleAt c).
Definition withStatus (c : Claim) (s : Status) : Claim :=
  mkClaim (cOutPoint c) (ClaimID c) (Amount c) (AcceptedAt c) (ActiveAt c) s (Value c) (VisibleAt c).

Definition setOutPoint (m : Mem) (c : loc) (op : OutPoint) : Mem := <[c := withOutPoint (m c) op]> m.
Definition SetAmt (m : Mem) (c : loc) (amt : Z) : Mem := <[c := withAmt (m c) amt]> m.
Definition SetValue (m : Mem) (c : loc) (v : list byte) : Mem := <[c := withValue (m c) v]> m.
Definition setAccepted (m : Mem) (c : loc) (h : Z) : Mem := <[c := withAccepted (m c) h]> m.
Definition setActiveAt (m : Mem) (c : loc) (h : Z) : Mem := <[c := withActiveAt (m c) h]> m.
Definition setStatus (m : Mem) (c : loc) (s : Status) : Mem := <[c := withStatus (m c) s]> m.

(** Modelled from the spec: [ClaimList.find] with the comparators [byOut]
    and [byID] is not among the sources ("find claim with matching
    out_point", "find claim with matching claim_id"); the list is scanned
    from its head and the first match is returned, [None] standing for
    the nil pointer. *)
Definition byOut (out : OutPoint) (c : Claim) : bool := bool_decide (cOutPoint c = out).
Definition byID (id : string) (c : Claim) : bool := bool_decide (ClaimID c = id).

Fixpoint find (m : Mem) (cmp : Claim -> bool) (l : ClaimList) : option loc :=
  match l with
  | [] => None
  | c :: l' => if cmp (m c) then Some c else find m cmp l'
  end.

(** Modelled from the spec: [OutPointLess] is not among the sources
    ("Ordering: by tx_hash then index", hashes compared byte-wise). *)
Fixpoint bytesCompare (a b : list byte) : comparison :=
  match a, b with
  | [], [] => Eq
  | [], _ :: _ => Lt
  | _ :: _, [] => Gt
  | x :: a', y :: b' =>
      match N.compare (Byte.to_N x) (Byte.to_N y) with
      | Eq => bytesCompare a' b'
      | o => o
      end
  end.

Definition OutPointLess (a b : OutPoint) : bool :=
  match bytesCompare (Hash a) (Hash b) with
  | Lt => true
  | Gt => false
  | Eq => Index a <? Index b
  end.

(** Modelled from the spec: [EffectiveAmount] is not among the sources
    ("claim.amount + the sum of support.amount over supports with status
    == Activated AND support.claim_id == claim.claim_id"), accumulated in
    an [int64]. *)
Definition EffectiveAmount (m : Mem) (c : loc) (supports : ClaimList) : Z :=
  fold_left
    (fun amt s =>
       if bool_decide (Status_ (m s) = Activated) && bool_decide (ClaimID (m s) = ClaimID (m c))
       then int64 (amt + Amount (m s)) else amt)
    supports (Amount (m c)).

Section WithParams.

(** Chain parameters of package [param] and the out point parser, none
    of which is among the sources. *)
Variable MaxRemovalWorkaroundHeight : Z.
(** Membership of the key ["%d_%s"] of a height and a name in the table. *)
Variable TakeoverWorkarounds : Z -> list byte -> bool.
Variable ExpirationFor : Z -> Z.
(** [None] is the nil pointer. *)
Variable NewOutPointFromString : string -> option OutPoint.

(** Modelled from the spec: [ExpireAt] is not among the sources
    ("expires_at (derived): accepted_at + ExpirationFor(accepted_at)"). *)
Definition ExpireAt (c : Claim) : Z := int32 (AcceptedAt c + ExpirationFor (AcceptedAt c)).

(** [ApplyChange]; [None] is the panic of dereferencing a nil out
    point, the third component is the returned [error] (always nil). *)
Definition ApplyChange (w : World) (n : Node) (chg : change.Change) (delay : Z)
  : option (World * Node * option string) :=
  let out := NewOutPointFromString (change.OutPoint chg) in
  let visibleAt :=
    if change.VisibleHeight chg <=? 0 then change.Height chg else change.VisibleHeight chg in
  match change.Type_ chg with
  | change.AddClaim =>
      out ← out;
      let c := {| cOutPoint := out;
                  Amount := change.Amount chg;
                  ClaimID := change.ClaimID chg;
                  AcceptedAt := change.Height chg;
                  ActiveAt := int32 (change.Height chg + delay);
                  Status_ := Accepted;
                  Value := change.Value chg;
                  VisibleAt := visibleAt |} in
      let old := find (mem w) (byOut out) (Claims n) in
      let log := match old with
                 | Some _ => [LogConflict (change.Name chg) (change.Height chg)]
                 | None => []
                 end in
      let p := next w in
      Some (mkWorld (<[p := c]> (mem w)) (S p) (mispents w) (stdout w ++ log),
            mkNode (BestClaim n) (TakenOverAt n) (Claims n ++ [p]) (Supports n),
            None)
  | change.SpendClaim =>
      out ← out;
      match find (mem w) (byOut out) (Claims n) with
      | Some c =>
          Some (mkWorld (setStatus (mem w) c Deactivated) (next w) (mispents w) (stdout w), n, None)
      | None =>
          let key := (change.Height chg, change.ClaimID chg) in
          if bool_decide (key ∈ mispents w) then Some (w, n, None)
          else
            Some (mkWorld (mem w) (next w) ({[ key ]} ∪ mispents w)
                    (stdout w ++ [LogMissingClaim (change.OutPoint chg) (change.Name chg)
                                    (change.ClaimID chg)]),
                  n, None)
      end
  | change.UpdateClaim =>
      match find (mem w) (byID (change.ClaimID chg)) (Claims n) with
      | Some c =>
          if bool_decide (Status_ (mem w c) = Deactivated) then
            out ← out;
            let m := SetValue (SetAmt (setOutPoint (mem w) c out) c (change.Amount chg)) c
                       (change.Value chg) in
            let m := setStatus m c Accepted in
            let m := setAccepted m c (change.Height chg) in
            let m := setActiveAt m c (int32 (change.Height chg + delay)) in
            Some (mkWorld m (next w) (mispents w) (stdout w), n, None)
          else
            Some (mkWorld (mem w) (next w) (mispents w)
                    (stdout w ++ [LogMissingUpdate (change.ClaimID chg)]), n, None)
      | None =>
          Some (mkWorld (mem w) (next w) (mispents w)
                  (stdout w ++ [LogMissingUpdate (change.ClaimID chg)]), n, None)
      end
  | change.AddSupport =>
      out ← out;
      let c := {| cOutPoint := out;
                  Amount := change.Amount chg;
                  ClaimID := change.ClaimID chg;
                  AcceptedAt := change.Height chg;
                  ActiveAt := int32 (change.Height chg + delay);
                  Status_ := Accepted;
                  Value := change.Value chg;
                  VisibleAt := visibleAt |} in
      let p := next w in
      Some (mkWorld (<[p := c]> (mem w)) (S p) (mispents w) (stdout w),
            mkNode (BestClaim n) (TakenOverAt n) (Claims n) (Supports n ++ [p]),
            None)
  | change.SpendSupport =>
      out ← out;
      match find (mem w) (byOut out) (Supports n) with
      | Some s =>
          Some (mkWorld (setStatus (mem w) s Deactivated) (next w) (mispents w) (stdout w), n, None)
      | None =>
          Some (mkWorld (mem w) (next w) (mispents w)
                  (stdout w ++ [LogMissingSupport (change.OutPoint chg) (change.Name chg)
                                  (change.ClaimID chg)]),
                n, None)
      end
  | change.OtherType _ => Some (w, n, None)
  end.

(** The closure [update] of [handleExpiredAndActivated]: the loop over
    [items] from index [i], with the captured counter [changes]. It
    removes an entry by overwriting it with the last one and cutting the
    slice; [i--] followed by the loop's [i++] revisits the same index.
    Every iteration either cuts the slice or advances [i], so
    [length items - i] iterations are enough ([fuel]). *)
Fixpoint update_loop (fuel : nat) (height : Z) (m : Mem) (items : ClaimList)
    (i : Z) (changes : Z) : Mem * ClaimList * Z :=
  match fuel with
  | O => (m, items, changes)
  | S fuel' =>
      if bool_decide (0 <= i < Z.of_nat (length items)) then
        match items !! Z.to_nat i with
        | None => (m, items, changes)
        | Some c =>
            let activate :=
              bool_decide (Status_ (m c) = Accepted) && (ActiveAt (m c) <=? height)
              && (VisibleAt (m c) <=? height) in
            let m1 := if activate then setStatus m c Activated else m in
            let changes1 := if activate then changes + 1 else changes in
            if (ExpireAt (m1 c) <=? height) || bool_decide (Status_ (m1 c) = Deactivated) then
              let moved := i <? Z.of_nat (length items) - 1 in
              let items1 :=
                if moved then
                  match last items with
                  | Some e => <[Z.to_nat i := e]> items
                  | None => items
                  end
                else items in
              let i1 := if moved then i - 1 else i in
              let items2 := take (length items1 - 1) items1 in
              update_loop fuel' height m1 items2 (i1 + 1) (changes1 + 1)
            else
              update_loop fuel' height m1 items (i + 1) changes1
        end
      else (m, items, changes)
  end.

Definition update (height : Z) (m : Mem) (items : ClaimList) (changes : Z)
  : Mem * ClaimList * Z :=
  update_loop (length items) height m items 0 changes.

Definition handleExpiredAndActivated (m : Mem) (n : Node) (height : Z) : Mem * Node * Z :=
  let changes := 0 in
  let '(m, claims, changes) := update height m (Claims n) changes in
  let '(m, supports, changes) := update height m (Supports n) changes in
  (m, mkNode (BestClaim n) (TakenOverAt n) claims supports, changes).

(** One iteration of either loop of [NextUpdate]. *)
Definition nextStep (m : Mem) (next : Z) (c : loc) : Z :=
  let next := if ExpireAt (m c) <? next then ExpireAt (m c) else next in
  if bool_decide (Status_ (m c) = Accepted) then
    let min := ActiveAt (m c) in
    let min := if VisibleAt (m c) >? min then VisibleAt (m c) else min in
    if min <? next then min else next
  else next.

Definition NextUpdate (m : Mem) (n : Node) : Z :=
  let next := MaxInt32 in
  let next := fold_left (nextStep m) (Claims n) next in
  fold_left (nextStep m) (Supports n) next.

(** One iteration of the loop of [findBestClaim] on the pair
    ([best], [bestAmount]). *)
Definition bestStep (m : Mem) (supports : ClaimList)
    (st : option loc * Z) (candidate : loc) : option loc * Z :=
  let '(best, bestAmount) := st in
  if negb (bool_decide (Status_ (m candidate) = Activated)) then st
  else
    match best with
    | None => (Some candidate, bestAmount)
    | Some b =>
        let candidateAmount := EffectiveAmount m candidate supports in
        let bestAmount :=
          if bestAmount <=? 0 then EffectiveAmount m b supports else bestAmount in
        if candidateAmount >? bestAmount then (Some candidate, candidateAmount)
        else if candidateAmount <? bestAmount then (best, bestAmount)
        else if AcceptedAt (m candidate) <? AcceptedAt (m b) then (Some candidate, candidateAmount)
        else if AcceptedAt (m candidate) >? AcceptedAt (m b) then (best, bestAmount)
        else if OutPointLess (cOutPoint (m candidate)) (cOutPoint (m b))
             then (Some candidate, candidateAmount)
        else (best, bestAmount)
    end.

Definition findBestClaim (m : Mem) (n : Node) : option loc :=
  fst (fold_left (bestStep m (Supports n)) (Claims n) (None, 0)).

(** One iteration of either loop of [activateAllClaims]. *)
Definition activateStep (height : Z) (st : Mem * Z) (c : loc) : Mem * Z :=
  let '(m, count) := st in
  if bool_decide (Status_ (m c) = Accepted) && (ActiveAt (m c) >? height)
     && (VisibleAt (m c) <=? height)
  then (setStatus (setActiveAt m c height) c Activated, count + 1)
  else (m, count).

Definition activateAllClaims (m : Mem) (n : Node) (height : Z) : Mem * Z :=
  let st := fold_left (activateStep height) (Claims n) (m, 0) in
  fold_left (activateStep height) (Supports n) st.

(** The first value of [takeoverHappening]. *)
Definition takeoverHappening (m : Mem) (n : Node) (candidate : option loc) : bool :=
  let hasCandidate := bool_decide (candidate <> None) in
  let hasCurrentWinner :=
    match BestClaim n with
    | Some b => bool_decide (Status_ (m b) = Activated)
    | None => false
    end in
  negb hasCandidate || negb hasCurrentWinner
  || match candidate, BestClaim n with
     | Some c, Some b => negb (bool_decide (ClaimID (m c) = ClaimID (m b)))
     | _, _ => true
     end.

Definition updateTakeoverHeight (m : Mem) (n : Node) (height : Z) (name : list byte)
    (refindBest : bool) : Mem * Node :=
  let candidate := BestClaim n in
  let candidate := if refindBest then findBestClaim m n else candidate in
  let takeover := takeoverHappening m n candidate in
  let '(m, candidate) :=
    if takeover then
      let '(m', count) := activateAllClaims m n height in
      if count >? 0 then (m', findBestClaim m' n) else (m', candidate)
    else (m, candidate) in
  let takeover :=
    if negb takeover && (height <? MaxRemovalWorkaroundHeight)
    then TakeoverWorkarounds height name
    else takeover in
  if takeover then (m, mkNode candidate height (Claims n) (Supports n))
  else (m, n).

(** The [for] loop of [AdjustTo]; its result carries the local variable
    [height], the last height the node was advanced to. [None]: the loop
    has not finished within [fuel] iterations. *)
Fixpoint AdjustTo_loop (fuel : nat) (m : Mem) (n : Node) (height maxHeight : Z)
    (name : list byte) : option (Mem * Node * Z) :=
  let h := NextUpdate m n in
  if h <=? maxHeight then
    match fuel with
    | O => None
    | S fuel' =>
        let '(m, n, changes) := handleExpiredAndActivated m n h in
        let '(m, n) := updateTakeoverHeight m n h name (changes >? 0) in
        AdjustTo_loop fuel' m n h maxHeight name
    end
  else Some (m, n, height).

Definition AdjustTo_run (fuel : nat) (m : Mem) (n : Node) (height maxHeight : Z)
    (name : list byte) : option (Mem * Node * Z) :=
  let '(m, n, changes) := handleExpiredAndActivated m n height in
  let '(m, n) := updateTakeoverHeight m n height name (changes >? 0) in
  if maxHeight >? height then AdjustTo_loop fuel m n height maxHeight name
  else Some (m, n, height).

Definition AdjustTo (fuel : nat) (m : Mem) (n : Node) (height maxHeight : Z)
    (name : list byte) : option (Mem * Node) :=
  fst <$> AdjustTo_run fuel m n height maxHeight name.

End WithParams.

(** *** Predicates in which the properties are stated *)

(** The entries of a node: its claims, then its supports. *)
Definition entries (n : Node) : ClaimList := Claims n ++ Supports n.

(** What spending does to the entry [c], and to nothing else. *)
Definition spent (w w' : World) (c : loc) : Prop :=
  mem w' c = withStatus (mem w c) Deactivated
  /\ (forall l, l <> c -> mem w' l = mem w l)
  /\ next w' = next w /\ mispents w' = mispents w /\ stdout w' = stdout w.

(** The sweep at [height] activates [c]. *)
Definition activatable (height : Z) (c : Claim) : Prop :=
  Status_ c = Accepted /\ ActiveAt c <= height /\ VisibleAt c <= height.

(** The sweep at [height] has nothing left to do on [c]. *)
Definition settled (ExpirationFor : Z -> Z) (height : Z) (c : Claim) : Prop :=
  Status_ c <> Deactivated /\ height < ExpireAt ExpirationFor c /\ ~ activatable height c.

(** [NextUpdate] stops at [h] because of [c]. *)
Definition dueAt (ExpirationFor : Z -> Z) (h : Z) (c : Claim) : Prop :=
  ExpireAt ExpirationFor c = h
  \/ (Status_ c = Accepted /\ Z.max (ActiveAt c) (VisibleAt c) = h).

(** [activateAllClaims] at [height] activates [c]. *)
Definition forceable (height : Z) (c : Claim) : Prop :=
  Status_ c = Accepted /\ ActiveAt c > height /\ VisibleAt c <= height.

#[global] Instance forceable_dec height c : Decision (forceable height c).
Proof. unfold forceable. apply _. Defined.

(** Every claim of the store is as it was, or was Accepted and is now
    Activated with an activation height that is not later. *)
Definition evolves (m m' : Mem) : Prop :=
  forall l, m' l = m l
            \/ (Status_ (m l) = Accepted
                /\ exists a, a <= ActiveAt (m l) /\ m' l = withStatus (withActiveAt (m l) a) Activated).

(** The candidate with which [updateTakeoverHeight] decides on a takeover. *)
Definition firstCandidate (m : Mem) (n : Node) (refindBest : bool) : option loc :=
  if refindBest then findBestClaim m n else BestClaim n.

(** The order of [findBestClaim]: [c] wins over [b]. *)
Definition better (m : Mem) (supports : ClaimList) (c b : loc) : Prop :=
  let ec := EffectiveAmount m c supports in
  let eb := EffectiveAmount m b supports in
  ec > eb
  \/ (ec = eb
      /\ (AcceptedAt (m c) < AcceptedAt (m b)
          \/ (AcceptedAt (m c) = AcceptedAt (m b)
              /\ OutPointLess (cOutPoint (m c)) (cOutPoint (m b)) = true))).

#[global] Instance better_dec m supports c b : Decision (better m supports c b).
Proof. unfold better. apply _. Defined.

(** What the loop of [findBestClaim] has established after the entries
    [seen]. *)
Definition bestOf (m : Mem) (supports : ClaimList) (seen : ClaimList) (st : option loc * Z) : Prop :=
  match st.1 with
  | None => st.2 <= 0 /\ forall c, c ∈ seen -> Status_ (m c) <> Activated
  | Some b =>
      b ∈ seen /\ Status_ (m b) = Activated
      /\ (st.2 <= 0 \/ st.2 = EffectiveAmount m b supports)
      /\ forall c, c ∈ seen -> Status_ (m c) = Activated -> ~ better m supports c b
  end.


(** *** Further predicates *)

(** The sweep at [height] keeps [c]: it has not expired and is not
    Deactivated. *)
Definition stays (ExpirationFor : Z -> Z) (height : Z) (c : Claim) : Prop :=
  height < ExpireAt ExpirationFor c /\ Status_ c <> Deactivated.

#[global] Instance stays_dec ExpirationFor height c : Decision (stays ExpirationFor height c).
Proof. unfold stays. apply _. Defined.

#[global] Instance activatable_dec height c : Decision (activatable height c).
Proof. unfold activatable. apply _. Defined.

(** The entries of [items] that the sweep at [height] keeps, in their order. *)
Definition swept (ExpirationFor : Z -> Z) (height : Z) (m : Mem) (items : ClaimList) : ClaimList :=
  filter (fun x => stays ExpirationFor height (m x)) items.

(** The current winner holds against [candidate]: the node has an Activated
    best claim and the candidate carries its claim ID. *)
Definition holds (m : Mem) (n : Node) (candidate : option loc) : Prop :=
  exists c b, candidate = Some c /\ BestClaim n = Some b
              /\ Status_ (m b) = Activated /\ ClaimID (m c) = ClaimID (m b).

End node.

(** ** Package [merkletrie] *)
Module merkletrie.

(** [chainhash.Hash] is [[32]byte]. *)
Definition Hash := list byte.

(** [&chainhash.Hash{1}]: the array literal sets the element of index 0. *)
Definition emptyTrieHash : Hash := x01 :: replicate 31 x00.

Definition error := string.

(** The 256 values of a byte in ascending order: the indices that
    [range n.links] goes through. *)
Definition all_bytes : list byte :=
  Eval vm_compute in omap (fun i => Byte.of_N (N.of_nat i)) (seq 0 256).

(** A trie node; [links] is the array [[256]*node], [None] a nil pointer. *)
#[local] Unset Elimination Schemes.
Inductive node := mkNode (hash : option Hash) (hasValue : bool) (links : byte -> option node).
#[local] Set Elimination Schemes.

Definition hash (n : node) : option Hash := let 'mkNode h _ _ := n in h.
Definition hasValue (n : node) : bool := let 'mkNode _ v _ := n in v.
Definition links (n : node) : byte -> option node := let 'mkNode _ _ l := n in l.

(** Induction over the tree: the property holds of a node when it holds of
    every child its links point to. *)
Definition node_ind' (P : node -> Prop)
    (step : forall h hv ls, (forall ch c, ls ch = Some c -> P c) -> P (mkNode h hv ls))
  : forall n, P n :=
  fix go (n : node) : P n :=
    match n with
    | mkNode h hv ls =>
        step h hv ls (fun ch c =>
          match ls ch as o return o = Some c -> P c with
          | Some c' => fun H =>
              eq_ind c' P (go c') c (f_equal (fun o => match o with Some x => x | None => c' end) H)
          | None => fun H =>
              match H in _ = o return match o with Some _ => P c | None => True end with
              | eq_refl => I
              end
          end)
    end.

(** Modelled from the spec: [newNode] is not among the sources ("creates
    missing children as fresh dirty nodes"): no hash, no value, no child. *)
Definition newNode : node := mkNode None false (fun _ => None).

(** The subtree reached from [n] along [path], if every link exists. *)
Fixpoint subtree (n : node) (path : list byte) {struct path} : option node :=
  match path with
  | [] => Some n
  | ch :: rest => c ← links n ch; subtree c rest
  end.

(** What [Repo.Get] answers: a blob, [pebble.ErrNotFound], or another error. *)
Inductive RepoResult := RFound (b : list byte) | RNotFound | RError (e : error).

Section WithStore.

(** [ValueStore.Get]: the returned pair of a hash pointer and an error. *)
Variable store : list byte -> option Hash * option error.
(** [chainhash.DoubleHashH]. *)
Variable DoubleHashH : list byte -> Hash.
(** The state of the [Repo] and its two methods used here. *)
Variable Repo : Type.
Variable repoGet : Repo -> list byte -> RepoResult.
Variable repoSet : Repo -> list byte -> list byte -> Repo.
(** The decoder [nbuf] of a stored blob (not among the sources):
    [hasValue()] and the list of [entry(i)] for [i < entries()]. *)
Variable nbufHasValue : list byte -> bool.
Variable nbufEntries : list byte -> list (byte * Hash).

Record MerkleTrie := mkTrie { repo : Repo; root : node }.

Definition SetRoot (t : MerkleTrie) (h : Hash) : MerkleTrie :=
  mkTrie (repo t) (mkNode (Some h) false (fun _ => None)).

Definition New (r : Repo) : MerkleTrie :=
  SetRoot (mkTrie r newNode) emptyTrieHash.

(** [resolve]; [None] is the panic on an error other than not-found. *)
Definition resolve (r : Repo) (n : node) : option node :=
  match hash n with
  | None => Some n
  | Some h =>
      match repoGet r h with
      | RNotFound => Some n
      | RError _ => None
      | RFound b =>
          Some (mkNode (hash n) (nbufHasValue b)
                  (fold_left
                     (fun ls '(p, h) => <[p := Some (mkNode (Some h) false (fun _ => None))]> ls)
                     (nbufEntries b) (links n)))
      end
  end.

(** The walk of [Update] from node [n] down the rest of the key. *)
Fixpoint update_path (r : Repo) (n : node) (key : list byte) : option node :=
  match key with
  | [] =>
      n ← resolve r n;
      Some (mkNode None true (links n))
  | ch :: key' =>
      n ← resolve r n;
      let child := match links n ch with Some c => c | None => newNode end in
      child ← update_path r child key';
      Some (mkNode None (hasValue n) (<[ch := Some child]> (links n)))
  end.

Definition Update (t : MerkleTrie) (key : list byte) : option MerkleTrie :=
  n ← update_path (repo t) (root t) key;
  Some (mkTrie (repo t) n).

(** One iteration of the loop of [merkle] over [n.links], given the
    result of the recursive call on the child. The state is the buffer,
    the children as they are left and the [repo.Set] calls made. *)
Definition childStep (ch : byte) (res : option (option Hash * node * list (Hash * list byte)))
    (st : list byte * (byte -> option node) * list (Hash * list byte))
  : list byte * (byte -> option node) * list (Hash * list byte) :=
  let '(b, kids, sets) := st in
  match res with
  | None => st
  | Some (h, c', sets') =>
      (match h with Some h => b ++ ch :: h | None => b end,
       <[ch := Some c']> kids, sets ++ sets')
  end.

(** [merkle]: the returned hash pointer, the node as it is left, and the
    calls [repo.Set(h[:], b.Bytes())] in the order they are made. *)
Fixpoint merkle (prefix : list byte) (n : node) {struct n}
  : option Hash * node * list (Hash * list byte) :=
  match n with
  | mkNode (Some h) _ _ => (Some h, n, [])
  | mkNode None hasValue links =>
      let '(b, kids, sets) :=
        fold_left
          (fun st ch =>
             childStep ch
               match links ch with
               | None => None
               | Some c => Some (merkle (prefix ++ [ch]) c)
               end st)
          all_bytes ([], links, []) in
      let finish (b : list byte) :=
        if bool_decide (length b <> 0%nat) then
          let h := DoubleHashH b in
          (Some h, mkNode (Some h) hasValue kids, sets ++ [(h, b)])
        else (None, mkNode None hasValue kids, sets) in
      if hasValue then
        match store prefix with
        | (_, Some err) => (None, mkNode None hasValue kids, sets)
        | (Some h, None) => finish (b ++ h)
        | (None, None) => finish b
        end
      else finish b
  end.

(** The node that [Update] finds at the end of [path] below [n], once
    it has resolved every node on the way and this one ([newNode] where
    a link is missing). *)
Fixpoint resolvedAt (r : Repo) (n : node) (path : list byte) : option node :=
  n ← resolve r n;
  match path with
  | [] => Some n
  | ch :: rest =>
      resolvedAt r (match links n ch with Some c => c | None => newNode end) rest
  end.

(** What the child of branch [ch] adds to the buffer of a node with the
    links [ls] at [prefix]. *)
Definition contribution (prefix : list byte) (ls : byte -> option node) (ch : byte)
  : list byte :=
  match ls ch with
  | Some c => match (merkle (prefix ++ [ch]) c).1.1 with
              | Some h => ch :: h
              | None => []
              end
  | None => []
  end.

(** The contributions of the children in ascending branch order. *)
Definition childrenBuffer (prefix : list byte) (ls : byte -> option node) : list byte :=
  concat (contribution prefix ls <$> all_bytes).

(** The [repo.Set] calls made below the children, in the same order. *)
Definition childrenSets (prefix : list byte) (ls : byte -> option node)
  : list (Hash * list byte) :=
  concat ((fun ch => match ls ch with
                     | Some c => (merkle (prefix ++ [ch]) c).2
                     | None => []
                     end) <$> all_bytes).

(** [MerkleHash]: the returned hash pointer and the trie as it is left. *)
Definition MerkleHash (t : MerkleTrie) : option Hash * MerkleTrie :=
  let '(h, n, sets) := merkle [] (root t) in
  let t' := mkTrie (fold_left (fun r '(k, v) => repoSet r k v) sets (repo t)) n in
  match h with
  | None => (Some emptyTrieHash, t')
  | Some _ => (hash n, t')
  end.

End WithStore.

End merkletrie.

(** ** Package [cmd]: the replay driver of chain.go *)
Module cmd.

Section Driver.

(** The collaborators of the driver, none of which is among the sources:
    the [ClaimTrie] facade (its state and the methods the driver can
    call), claim identifiers, block hashes and the two repositories. *)
Variable ClaimTrie : Type.
Variable ID : Type.
Variable BlockHash : Type.
Variable extError : Type.

Inductive error :=
| External (e : extError)
| AppendBlockError (e : error)
| LoadBlockRepoError (e : error)
| HashMismatched (height : Z) (exp got : BlockHash)
| LoadChangeRepoError (e : error)
| InvalidCommand (chg : change.Change)
| ExecuteCommandError (chg : change.Change) (e : error)
| CreateClaimTrieError (e : error)
| OpenChangeRepoError (e : error)
| OpenBlockRepoError (e : error).

Record Facade := mkFacade {
  AddClaim : ClaimTrie -> list byte -> node.OutPoint -> Z -> list byte -> ClaimTrie * option error;
  UpdateClaim :
    ClaimTrie -> list byte -> node.OutPoint -> Z -> ID -> list byte -> ClaimTrie * option error;
  SpendClaim : ClaimTrie -> list byte -> node.OutPoint -> ClaimTrie * option error;
  AddSupport : ClaimTrie -> list byte -> node.OutPoint -> Z -> ID -> ClaimTrie * option error;
  SpendSupport : ClaimTrie -> list byte -> node.OutPoint -> ClaimTrie * option error;
  AppendBlock : ClaimTrie -> ClaimTrie * option error;
  Height : ClaimTrie -> Z;
  MerkleHash : ClaimTrie -> ClaimTrie * BlockHash
}.

Variable ops : Facade.
Variable NewOutPointFromString : string -> option node.OutPoint.
Variable NewIDFromString : string -> ID.
Variable hashEq : BlockHash -> BlockHash -> bool.
Variable LoadByHeight : Z -> list change.Change + error.
Variable blockRepoGet : Z -> BlockHash + error.

Definition appendBlock (ct : ClaimTrie) : ClaimTrie * option error :=
  let '(ct, err) := AppendBlock ops ct in
  match err with
  | Some e => (ct, Some (AppendBlockError e))
  | None =>
      let height := Height ops ct in
      match blockRepoGet height with
      | inr e => (ct, Some (LoadBlockRepoError e))
      | inl hash =>
          let '(ct, got) := MerkleHash ops ct in
          if negb (hashEq got hash) then
            let '(ct, got) := MerkleHash ops ct in
            (ct, Some (HashMismatched height hash got))
          else (ct, None)
      end
  end.

(** The [switch chg.Type]; [None] is the panic of dereferencing a nil
    out point. *)
Definition dispatch (ct : ClaimTrie) (chg : change.Change) : option (ClaimTrie * option error) :=
  match change.Type_ chg with
  | change.AddClaim =>
      op ← NewOutPointFromString (change.OutPoint chg);
      Some (AddClaim ops ct (change.Name chg) op (change.Amount chg) (change.Value chg))
  | change.UpdateClaim =>
      op ← NewOutPointFromString (change.OutPoint chg);
      let id := NewIDFromString (change.ClaimID chg) in
      Some (UpdateClaim ops ct (change.Name chg) op (change.Amount chg) id (change.Value chg))
  | change.SpendClaim =>
      op ← NewOutPointFromString (change.OutPoint chg);
      Some (SpendClaim ops ct (change.Name chg) op)
  | change.AddSupport =>
      op ← NewOutPointFromString (change.OutPoint chg);
      let id := NewIDFromString (change.ClaimID chg) in
      Some (AddSupport ops ct (change.Name chg) op (change.Amount chg) id)
  | change.SpendSupport =>
      op ← NewOutPointFromString (change.OutPoint chg);
      Some (SpendClaim ops ct (change.Name chg) op)
  | change.OtherType _ => Some (ct, Some (InvalidCommand chg))
  end.

(** The body of the loop over the changes of one height (the progress
    line written every 1000 blocks is left out). *)
Definition changeStep (ct : ClaimTrie) (chg : change.Change) : option (ClaimTrie * option error) :=
  let '(ct, err) :=
    if bool_decide (change.Height chg <> Height ops ct) then appendBlock ct else (ct, None) in
  match err with
  | Some e => Some (ct, Some e)
  | None =>
      '(ct, err) ← dispatch ct chg;
      match err with
      | Some e => Some (ct, Some (ExecuteCommandError chg e))
      | None => Some (ct, None)
      end
  end.

Fixpoint changesLoop (ct : ClaimTrie) (changes : list change.Change)
  : option (ClaimTrie * option error) :=
  match changes with
  | [] => Some (ct, None)
  | chg :: rest =>
      '(ct, err) ← changeStep ct chg;
      match err with
      | Some e => Some (ct, Some e)
      | None => changesLoop ct rest
      end
  end.

Fixpoint heightsLoop (ct : ClaimTrie) (heights : list Z) : option (ClaimTrie * option error) :=
  match heights with
  | [] => Some (ct, None)
  | height :: rest =>
      match LoadByHeight height with
      | inr e => Some (ct, Some (LoadChangeRepoError e))
      | inl changes =>
          '(ct, err) ← changesLoop ct changes;
          match err with
          | Some e => Some (ct, Some e)
          | None => heightsLoop ct rest
          end
      end
  end.

(** The changes that the loop over [heights] meets when no error stops it
    before: those of the heights, in order, up to the first height that
    [LoadByHeight] fails on. *)
Fixpoint stream (heights : list Z) : list change.Change :=
  match heights with
  | [] => []
  | height :: rest =>
      match LoadByHeight height with
      | inl changes => changes ++ stream rest
      | inr _ => []
      end
  end.

Definition targetHeight : Z := 10000.

(** [RunE] once the claim trie and the two repositories are open. *)
Definition RunE (ct : ClaimTrie) : option (ClaimTrie * option error) :=
  heightsLoop ct (Z.of_nat <$> seq 0 (Z.to_nat targetHeight)).

End Driver.

Arguments External {BlockHash extError}.
Arguments InvalidCommand {BlockHash extError}.
Arguments ExecuteCommandError {BlockHash extError}.

(** *** Observing the calls made on the facade *)
Inductive Call (ID : Type) :=
| CallAddClaim (name : list byte) (op : node.OutPoint) (amount : Z) (value : list byte)
| CallUpdateClaim (name : list byte) (op : node.OutPoint) (amount : Z) (id : ID) (value : list byte)
| CallSpendClaim (name : list byte) (op : node.OutPoint)
| CallAddSupport (name : list byte) (op : node.OutPoint) (amount : Z) (id : ID)
| CallSpendSupport (name : list byte) (op : node.OutPoint)
| CallAppendBlock
| CallMerkleHash.

Arguments CallAddClaim {ID}.
Arguments CallUpdateClaim {ID}.
Arguments CallSpendClaim {ID}.
Arguments CallAddSupport {ID}.
Arguments CallSpendSupport {ID}.
Arguments CallAppendBlock {ID}.
Arguments CallMerkleHash {ID}.

(** A facade that behaves as [ops] and appends every method call made on
    it to a journal. *)
Definition recording {CT ID BH E : Type} (ops : Facade CT ID BH E)
  : Facade (CT * list (Call ID)) ID BH E :=
  let log (c : Call ID) {A} (j : list (Call ID)) (r : CT * A) := ((r.1, j ++ [c]), r.2) in
  {| AddClaim '(ct, j) name op amt v := log (CallAddClaim name op amt v) j (AddClaim _ _ _ _ ops ct name op amt v);
     UpdateClaim '(ct, j) name op amt id v :=
       log (CallUpdateClaim name op amt id v) j (UpdateClaim _ _ _ _ ops ct name op amt id v);
     SpendClaim '(ct, j) name op := log (CallSpendClaim name op) j (SpendClaim _ _ _ _ ops ct name op);
     AddSupport '(ct, j) name op amt id :=
       log (CallAddSupport name op amt id) j (AddSupport _ _ _ _ ops ct name op amt id);
     SpendSupport '(ct, j) name op :=
       log (CallSpendSupport name op) j (SpendSupport _ _ _ _ ops ct name op);
     AppendBlock '(ct, j) := log CallAppendBlock j (AppendBlock _ _ _ _ ops ct);
     Height '(ct, j) := Height _ _ _ _ ops ct;
     MerkleHash '(ct, j) := log CallMerkleHash j (MerkleHash _ _ _ _ ops ct) |}.


(** A call other than [SpendSupport]. *)
Definition quiet {ID : Type} (c : Call ID) : Prop :=
  match c with
  | CallSpendSupport _ _ => False
  | _ => True
  end.

(** The method call that the [switch chg.Type] makes for [chg]: none for
    a type outside the five, or when the out point is nil. *)
Definition callOf {ID : Type} (NewOutPointFromString : string -> option node.OutPoint)
    (NewIDFromString : string -> ID) (chg : change.Change) : option (Call ID) :=
  match change.Type_ chg with
  | change.AddClaim =>
      op ← NewOutPointFromString (change.OutPoint chg);
      Some (CallAddClaim (change.Name chg) op (change.Amount chg) (change.Value chg))
  | change.UpdateClaim =>
      op ← NewOutPointFromString (change.OutPoint chg);
      Some (CallUpdateClaim (change.Name chg) op (change.Amount chg)
              (NewIDFromString (change.ClaimID chg)) (change.Value chg))
  | change.SpendClaim =>
      op ← NewOutPointFromString (change.OutPoint chg);
      Some (CallSpendClaim (change.Name chg) op)
  | change.AddSupport =>
      op ← NewOutPointFromString (change.OutPoint chg);
      Some (CallAddSupport (change.Name chg) op (change.Amount chg)
              (NewIDFromString (change.ClaimID chg)))
  | change.SpendSupport =>
      op ← NewOutPointFromString (change.OutPoint chg);
      Some (CallSpendClaim (change.Name chg) op)
  | change.OtherType _ => None
  end.

(** The calls that [appendBlock] makes. *)
Definition isBlockCall {ID : Type} (c : Call ID) : bool :=
  match c with
  | CallAppendBlock | CallMerkleHash => true
  | _ => false
  end.

End cmd.

(** ** Concrete parameters and states on which the properties are exercised *)
Module scenario.
Import node.

Definition expiration (_ : Z) : Z := 100.
Definition noWorkarounds (_ : Z) (_ : list byte) : bool := false.
Definition maxRemovalWorkaroundHeight : Z := 100.

(** An out point parser: the empty string is malformed. *)
Definition parseOutPoint (s : string) : option OutPoint :=
  if bool_decide (s = EmptyString) then None
  else Some (mkOutPoint (String.list_byte_of_string s) 0).

Definition claimOf (out : string) (id : string) (amount accepted active : Z) (st : Status) : Claim :=
  {| cOutPoint := mkOutPoint (String.list_byte_of_string out) 0; ClaimID := id;
     Amount := amount; AcceptedAt := accepted; ActiveAt := active; Status_ := st;
     Value := []; VisibleAt := accepted |}.

Definition blank : Claim := claimOf "" "" 0 0 0 Accepted.

(** A store holding the listed claims at locations 0, 1, ... *)
Definition memOf (cs : list Claim) : Mem := fun l => default blank (cs !! l).

Definition worldOf (cs : list Claim) : World := mkWorld (memOf cs) (length cs) ∅ [].

(** One claim accepted at height 10 that becomes active at height 300. *)
Definition pendingMem : Mem := memOf [claimOf "t1" "id1" 5 10 300 Accepted].
Definition pendingNode : Node := mkNode None 0 [0%nat] [].

(** One claim accepted at height 10 that is active from height 10 on. *)
Definition readyMem : Mem := memOf [claimOf "t1" "id1" 5 10 10 Accepted].

(** Two claims sharing the claim id ["id1"]: the first Accepted, the second
    Deactivated. *)
Definition twinWorld : World :=
  worldOf [claimOf "t1" "id1" 5 1 1 Accepted; claimOf "t2" "id1" 5 1 1 Deactivated].
Definition twinNode : Node := mkNode None 0 [0%nat; 1%nat] [].

(** One Deactivated claim, as left by a SpendClaim of the same batch. *)
Definition spentWorld : World := worldOf [claimOf "t1" "id1" 5 1 1 Deactivated].
Definition oneClaimNode : Node := mkNode None 0 [0%nat] [].

Definition updateChange : change.Change :=
  change.mkChange change.UpdateClaim 5 0 [] "id1" "t9" 7 [].
Definition spendSupportChange : change.Change :=
  change.mkChange change.SpendSupport 5 0 [] "id1" "t9" 0 [].
Definition spendClaimChange : change.Change :=
  change.mkChange change.SpendClaim 5 0 [] "id1" "t9" 0 [].

(** Two Activated claims with the same out point, amount and acceptance
    height and different claim ids. *)
Definition tiedMem : Mem :=
  memOf [claimOf "t1" "idA" 5 1 1 Activated; claimOf "t1" "idB" 5 1 1 Activated].

(** Two Activated claims that differ in their out points only. *)
Definition orderedMem : Mem :=
  memOf [claimOf "t1" "idA" 5 1 1 Activated; claimOf "t2" "idB" 5 1 1 Activated].

(** A node over [orderedMem] whose best claim is the first of its two claims. *)
Definition championNode : Node := mkNode (Some 0%nat) 1 [0%nat; 1%nat] [].

(** One Activated claim with the out point ["t9"]. *)
Definition liveWorld : World := worldOf [claimOf "t9" "id1" 5 1 1 Activated].

(** The first claim of a name, at height 5. *)
Definition addClaimChange : change.Change :=
  change.mkChange change.AddClaim 5 0 [] "id1" "t9" 7 [].

(** A SpendClaim whose out point string is malformed. *)
Definition nilOutPointChange : change.Change :=
  change.mkChange change.SpendClaim 5 0 [] "id1" "" 0 [].


(** *** A trie over a small store *)

(** A stand-in for the double SHA-256: the first 32 bytes of the input,
    padded with zeros. *)
Definition toyHash (b : list byte) : merkletrie.Hash := take 32 (b ++ replicate 32 x00).

Definition bytes (s : string) : list byte := String.list_byte_of_string s.

(** The names ["a"] and ["b"] have a value hash, ["e"] makes the store
    fail, every other name has none. *)
Definition store (name : list byte) : option merkletrie.Hash * option merkletrie.error :=
  if bool_decide (name = bytes "a") then (Some (replicate 32 "A"%byte), None)
  else if bool_decide (name = bytes "b") then (Some (replicate 32 "B"%byte), None)
  else if bool_decide (name = bytes "e") then (None, Some "not found"%string)
  else (None, None).

(** A store that fails on every name. *)
Definition failingStore (name : list byte) : option merkletrie.Hash * option merkletrie.error :=
  (None, Some "not found"%string).

(** The repository as the list of the blobs written, the latest first. *)
Definition repoT := list (list byte * list byte).
Definition repoGet (r : repoT) (k : list byte) : merkletrie.RepoResult :=
  match list_find (fun kv => kv.1 = k) r with
  | Some (_, (_, v)) => merkletrie.RFound v
  | None => merkletrie.RNotFound
  end.
Definition repoSet (r : repoT) (k v : list byte) : repoT := (k, v) :: r.

(** A blob decoder: records of one branch byte and 32 hash bytes, then the
    32 bytes of a value hash if the node has a value. *)
Fixpoint entriesOf (fuel : nat) (b : list byte) : list (byte * merkletrie.Hash) :=
  match fuel, b with
  | S fuel', ch :: rest =>
      if bool_decide (32 <= length rest)%nat
      then (ch, take 32 rest) :: entriesOf fuel' (drop 32 rest) else []
  | _, _ => []
  end.
Definition nbufEntries (b : list byte) : list (byte * merkletrie.Hash) := entriesOf (length b) b.
Definition nbufHasValue (b : list byte) : bool := bool_decide ((length b) `mod` 33 = 32)%nat.

Definition TrieT := merkletrie.MerkleTrie repoT.
Definition trieNew : TrieT := merkletrie.New repoT [].
Definition trieUpdate (t : TrieT) (key : string) : option TrieT :=
  merkletrie.Update repoT repoGet nbufHasValue nbufEntries t (bytes key).
Definition trieMerkleHash (t : TrieT) : option merkletrie.Hash * TrieT :=
  merkletrie.MerkleHash store toyHash repoT repoSet t.

(** A node with a value and one hashed child on branch ["c"]. *)
Definition valueNode : merkletrie.node :=
  merkletrie.mkNode None true
    (<["c"%byte := Some (merkletrie.mkNode (Some (replicate 32 "C"%byte)) false (fun _ => None))]>
       (fun _ => None)).


(** The trie after [Update("z")] on a new trie: the root and the node of
    ["z"] have no hash, and the store has no value for ["z"]. *)
Definition dirtyTrie : TrieT :=
  merkletrie.mkTrie repoT []
    (merkletrie.mkNode None false
       (<["z"%byte := Some (merkletrie.mkNode None true (fun _ => None))]> (fun _ => None))).


(** *** A facade for the driver *)

(** The state counts: SpendClaim adds 1, SpendSupport adds 100, every
    other method leaves it; the height is always 5. *)
Definition countingFacade : cmd.Facade Z string (list byte) string :=
  {| cmd.AddClaim ct _ _ _ _ := (ct, None);
     cmd.UpdateClaim ct _ _ _ _ _ := (ct, None);
     cmd.SpendClaim ct _ _ := (ct + 1, None);
     cmd.AddSupport ct _ _ _ _ := (ct, None);
     cmd.SpendSupport ct _ _ := (ct + 100, None);
     cmd.AppendBlock ct := (ct, None);
     cmd.Height _ := 5;
     cmd.MerkleHash ct := (ct, []) |}.

(** The change log: one SpendSupport at height 5. *)
Definition changeLog (height : Z) : list change.Change + cmd.error (list byte) string :=
  if bool_decide (height = 5) then inl [spendSupportChange] else inl [].

Definition blockHashes (_ : Z) : list byte + cmd.error (list byte) string := inl [].

End scenario.

(** * Properties *)

(** ** Machine integers *)

Lemma int32_small z : -2147483648 <= z <= 2147483647 -> int32 z = z.
Proof.
  intros Hz. unfold int32, wrap.
  change (2 ^ (32 - 1)) with 2147483648. change (2 ^ 32) with 4294967296.
  rewrite Z.mod_small by lia. lia.
Qed.

(** ** The per-name node *)
Module node_facts.
Import node.

(** *** The store *)

Lemma setStatus_same m c s : setStatus m c s c = withStatus (m c) s.
Proof. unfold setStatus. apply fn_lookup_insert. Qed.

Lemma setStatus_other m c s l : l <> c -> setStatus m c s l = m l.
Proof. intros. unfold setStatus. by apply fn_lookup_insert_ne. Qed.

Lemma setActiveAt_same m c h : setActiveAt m c h c = withActiveAt (m c) h.
Proof. unfold setActiveAt. apply fn_lookup_insert. Qed.

Lemma setActiveAt_other m c h l : l <> c -> setActiveAt m c h l = m l.
Proof. intros. unfold setActiveAt. by apply fn_lookup_insert_ne. Qed.

(** *** [find] returns the first entry the comparator accepts *)

Lemma find_Some m cmp l c :
  find m cmp l = Some c <->
  exists pre post, l = pre ++ c :: post /\ cmp (m c) = true
                   /\ Forall (fun x => cmp (m x) = false) pre.
Proof.
  revert c. induction l as [|x l IH]; intros c; simpl.
  - split; [done|]. intros (pre & post & H & _). by destruct pre.
  - destruct (cmp (m x)) eqn:Hx.
    + split.
      * intros [= <-]. exists [], l. by repeat split.
      * intros (pre & post & H & Hc & Hpre). destruct pre as [|y pre]; simplify_eq/=; [done|].
        inversion Hpre; congruence.
    + rewrite IH. split.
      * intros (pre & post & -> & Hc & Hpre). exists (x :: pre), post. repeat split; auto.
      * intros (pre & post & H & Hc & Hpre). destruct pre as [|y pre]; simplify_eq/=; [congruence|].
        exists pre, post. inversion Hpre; auto.
Qed.

Lemma find_None m cmp l :
  find m cmp l = None <-> Forall (fun x => cmp (m x) = false) l.
Proof.
  induction l as [|x l IH]; simpl; [by split|].
  destruct (cmp (m x)) eqn:Hx.
  - split; [done|]. inversion 1; congruence.
  - rewrite IH. split; [by constructor|by inversion 1].
Qed.

Lemma find_elem m cmp l c : find m cmp l = Some c -> c ∈ l /\ cmp (m c) = true.
Proof.
  intros (pre & post & -> & Hc & _)%find_Some. split; [|done].
  apply elem_of_app. right. left.
Qed.

Lemma find_exists m cmp l :
  (exists x, x ∈ l /\ cmp (m x) = true) -> exists c, find m cmp l = Some c.
Proof.
  intros (x & Hx & Hc). destruct (find m cmp l) eqn:E; [eauto|].
  apply find_None in E. rewrite Forall_forall in E. specialize (E x Hx). congruence.
Qed.

(** *** [ApplyChange] *)
Section ApplyChangeFacts.

Variable NewOutPointFromString : string -> option OutPoint.
#[local] Abbreviation ApplyChange := (node.ApplyChange NewOutPointFromString).

(** C9 (as amended). A SpendClaim (resp. SpendSupport) change whose out
    point is the one of an entry of the claims (resp. supports) list sets
    the status of the first such entry to Deactivated and changes
    nothing else; when no entry has that out point, ApplyChange returns a
    nil error and leaves the lists and every claim as they are. A
    missing claim is reported once per (height, claim id): the key is
    added to [mispents] and the message is not printed again; a missing
    support is reported at every call. *)
Theorem C9_spend_deactivates_or_reports (w : World) (n : Node) (chg : change.Change)
    (delay : Z) (out : OutPoint) :
  NewOutPointFromString (change.OutPoint chg) = Some out ->
  let key := (change.Height chg, change.ClaimID chg) in
  (change.Type_ chg = change.SpendClaim ->
     ((exists x, x ∈ Claims n /\ cOutPoint (mem w x) = out) ->
        exists c w', find (mem w) (byOut out) (Claims n) = Some c
          /\ c ∈ Claims n /\ cOutPoint (mem w c) = out
          /\ ApplyChange w n chg delay = Some (w', n, None) /\ spent w w' c)
     /\ ((forall x, x ∈ Claims n -> cOutPoint (mem w x) <> out) ->
        exists w', ApplyChange w n chg delay = Some (w', n, None)
          /\ mem w' = mem w /\ next w' = next w /\ key ∈ mispents w'
          /\ (key ∈ mispents w -> w' = w)
          /\ (key ∉ mispents w ->
                mispents w' = {[ key ]} ∪ mispents w
                /\ stdout w' = stdout w ++ [LogMissingClaim (change.OutPoint chg)
                                              (change.Name chg) (change.ClaimID chg)])))
  /\ (change.Type_ chg = change.SpendSupport ->
     ((exists x, x ∈ Supports n /\ cOutPoint (mem w x) = out) ->
        exists c w', find (mem w) (byOut out) (Supports n) = Some c
          /\ c ∈ Supports n /\ cOutPoint (mem w c) = out
          /\ ApplyChange w n chg delay = Some (w', n, None) /\ spent w w' c)
     /\ ((forall x, x ∈ Supports n -> cOutPoint (mem w x) <> out) ->
        exists w', ApplyChange w n chg delay = Some (w', n, None)
          /\ mem w' = mem w /\ next w' = next w /\ mispents w' = mispents w
          /\ stdout w' = stdout w ++ [LogMissingSupport (change.OutPoint chg)
                                        (change.Name chg) (change.ClaimID chg)])).
Proof.
  intros Hout key.
  assert (Hfound : forall l, (exists x, x ∈ l /\ cOutPoint (mem w x) = out) ->
            exists c, find (mem w) (byOut out) l = Some c /\ c ∈ l /\ cOutPoint (mem w c) = out).
  { intros l (x & Hx & Hxo).
    destruct (find_exists (mem w) (byOut out) l) as [c Hc].
    { exists x. split; [done|]. by apply bool_decide_eq_true. }
    exists c. split; [done|]. apply find_elem in Hc as [? Hb].
    split; [done|]. by apply bool_decide_eq_true in Hb. }
  assert (Hmissing : forall l, (forall x, x ∈ l -> cOutPoint (mem w x) <> out) ->
            find (mem w) (byOut out) l = None).
  { intros l Hl. apply find_None, Forall_forall. intros x Hx.
    apply bool_decide_eq_false. by apply Hl. }
  split; intros Hty; (split; [intros Hex | intros Hno]).
  - destruct (Hfound _ Hex) as (c & Hc & Hin & Hco).
    exists c, (mkWorld (setStatus (mem w) c Deactivated) (next w) (mispents w) (stdout w)).
    do 3 (split; [done|]). split.
    + unfold node.ApplyChange. rewrite Hout, Hty. simpl. by rewrite Hc.
    + repeat split; simpl; [apply setStatus_same|apply setStatus_other].
  - unfold node.ApplyChange. rewrite Hout, Hty. simpl. rewrite (Hmissing _ Hno).
    fold key. destruct (bool_decide (key ∈ mispents w)) eqn:Hk.
    + apply bool_decide_eq_true in Hk. exists w. split_and!; done.
    + apply bool_decide_eq_false in Hk. eexists. split; [reflexivity|]. simpl.
      split_and!; [done|done|set_solver|done|done].
  - destruct (Hfound _ Hex) as (c & Hc & Hin & Hco).
    exists c, (mkWorld (setStatus (mem w) c Deactivated) (next w) (mispents w) (stdout w)).
    do 3 (split; [done|]). split.
    + unfold node.ApplyChange. rewrite Hout, Hty. simpl. by rewrite Hc.
    + repeat split; simpl; [apply setStatus_same|apply setStatus_other].
  - unfold node.ApplyChange. rewrite Hout, Hty. simpl. rewrite (Hmissing _ Hno).
    eexists. split; [reflexivity|]. by repeat split.
Qed.

(** C2 (as amended). An UpdateClaim change looks at the first claim, in
    list order, whose claim id is the one of the change. If that claim
    is Deactivated it keeps its claim id (and visible_at) and gets the
    out point, amount and value of the change, status Accepted,
    accepted_at = the change height and active_at = the 32-bit sum of the
    change height and the delay; no other claim changes. Otherwise (no
    claim has that id, or the first one that has it is not Deactivated)
    every claim and both lists are left as they are and a nil error is
    returned. When at most one claim of the list carries the id, this is
    the claim as it was stated. *)
Theorem C2_update_claim_first_match (w : World) (n : Node) (chg : change.Change) (delay : Z) :
  change.Type_ chg = change.UpdateClaim ->
  let id := change.ClaimID chg in
  let updated (c : loc) (out : OutPoint) (w' : World) :=
    ApplyChange w n chg delay = Some (w', n, None)
    /\ mem w' c = {| cOutPoint := out; ClaimID := ClaimID (mem w c);
                     Amount := change.Amount chg;
                     AcceptedAt := change.Height chg;
                     ActiveAt := int32 (change.Height chg + delay);
                     Status_ := Accepted;
                     Value := change.Value chg;
                     VisibleAt := VisibleAt (mem w c) |}
    /\ ClaimID (mem w' c) = id
    /\ (forall l, l <> c -> mem w' l = mem w l)
    /\ next w' = next w /\ mispents w' = mispents w /\ stdout w' = stdout w in
  let untouched (w' : World) :=
    ApplyChange w n chg delay = Some (w', n, None)
    /\ mem w' = mem w /\ next w' = next w /\ mispents w' = mispents w
    /\ stdout w' = stdout w ++ [LogMissingUpdate id] in
  (forall c out,
     find (mem w) (byID id) (Claims n) = Some c ->
     Status_ (mem w c) = Deactivated ->
     NewOutPointFromString (change.OutPoint chg) = Some out ->
     exists w', updated c out w')
  /\ (forall c,
     find (mem w) (byID id) (Claims n) = Some c ->
     Status_ (mem w c) <> Deactivated ->
     exists w', untouched w')
  /\ ((forall x, x ∈ Claims n -> ClaimID (mem w x) <> id) -> exists w', untouched w')
  /\ ((forall x y, x ∈ Claims n -> y ∈ Claims n ->
         ClaimID (mem w x) = id -> ClaimID (mem w y) = id -> x = y) ->
      (forall c out,
         c ∈ Claims n -> ClaimID (mem w c) = id -> Status_ (mem w c) = Deactivated ->
         NewOutPointFromString (change.OutPoint chg) = Some out ->
         exists w', updated c out w')
      /\ ((forall x, x ∈ Claims n -> ClaimID (mem w x) = id -> Status_ (mem w x) <> Deactivated) ->
          exists w', untouched w')).
Proof.
  intros Hty id updated untouched.
  assert (H1 : forall c out,
     find (mem w) (byID id) (Claims n) = Some c ->
     Status_ (mem w c) = Deactivated ->
     NewOutPointFromString (change.OutPoint chg) = Some out ->
     exists w', updated c out w').
  { intros c out Hc Hst Hout. unfold updated, node.ApplyChange.
    rewrite Hty, Hout. fold id. rewrite Hc. rewrite bool_decide_eq_true_2 by done.
    eexists. split; [reflexivity|]. simpl.
    apply find_elem in Hc as [_ Hid]. apply bool_decide_eq_true in Hid.
    unfold setActiveAt, setAccepted, setStatus, SetValue, SetAmt, setOutPoint.
    split_and!; [| | |done..].
    - by rewrite !fn_lookup_insert.
    - by rewrite !fn_lookup_insert.
    - intros l Hl. by rewrite !fn_lookup_insert_ne. }
  assert (H2 : forall c,
     find (mem w) (byID id) (Claims n) = Some c ->
     Status_ (mem w c) <> Deactivated ->
     exists w', untouched w').
  { intros c Hc Hst. unfold untouched, node.ApplyChange.
    rewrite Hty. fold id. rewrite Hc. rewrite bool_decide_eq_false_2 by done.
    eexists. split; [reflexivity|]. done. }
  assert (H3 : find (mem w) (byID id) (Claims n) = None -> exists w', untouched w').
  { intros Hc. unfold untouched, node.ApplyChange.
    rewrite Hty. fold id. rewrite Hc.
    eexists. split; [reflexivity|]. done. }
  assert (Hnone : (forall x, x ∈ Claims n -> ClaimID (mem w x) <> id) ->
                  find (mem w) (byID id) (Claims n) = None).
  { intros Hno. apply find_None, Forall_forall. intros x Hx.
    apply bool_decide_eq_false. by apply Hno. }
  split_and!; [done|done|by intros ?%Hnone%H3|].
  intros Huniq. split.
  - intros c out Hin Hid Hst Hout.
    destruct (find_exists (mem w) (byID id) (Claims n)) as [c' Hc'].
    { exists c. split; [done|]. by apply bool_decide_eq_true. }
    pose proof (find_elem _ _ _ _ Hc') as [Hin' Hid']. apply bool_decide_eq_true in Hid'.
    assert (c' = c) as -> by by apply Huniq.
    by apply H1.
  - intros Hall. destruct (find (mem w) (byID id) (Claims n)) as [c|] eqn:Hc; [|by apply H3].
    pose proof (find_elem _ _ _ _ Hc) as [Hin Hid]. apply bool_decide_eq_true in Hid.
    apply (H2 c); [done|]. by apply Hall.
Qed.

End ApplyChangeFacts.

(** *** How the store evolves while a node is advanced *)

Lemma withStatus_withActiveAt_id c :
  withStatus (withActiveAt c (ActiveAt c)) (Status_ c) = c.
Proof. by destruct c. Qed.

Lemma evolves_refl m : evolves m m.
Proof. intros l. by left. Qed.

Lemma evolves_trans m1 m2 m3 : evolves m1 m2 -> evolves m2 m3 -> evolves m1 m3.
Proof.
  intros H12 H23 l. destruct (H12 l) as [E12|(Hs & a & Ha & E12)].
  - rewrite <- E12. apply H23.
  - destruct (H23 l) as [E23|(Hs' & _)].
    + right. split; [done|]. exists a. split; [done|]. by rewrite E23.
    + rewrite E12 in Hs'. discriminate.
Qed.

Lemma evolves_activate m c a :
  Status_ (m c) = Accepted -> a <= ActiveAt (m c) ->
  evolves m (<[c := withStatus (withActiveAt (m c) a) Activated]> m).
Proof.
  intros Hs Ha l. destruct (decide (l = c)) as [->|Hne].
  - right. split; [done|]. exists a. split; [done|]. apply fn_lookup_insert.
  - left. by apply fn_lookup_insert_ne.
Qed.

Lemma evolves_setStatus_Activated m c :
  Status_ (m c) = Accepted -> evolves m (setStatus m c Activated).
Proof.
  intros Hs. unfold setStatus.
  replace (withStatus (m c) Activated)
    with (withStatus (withActiveAt (m c) (ActiveAt (m c))) Activated) by by destruct (m c).
  apply evolves_activate; [done|lia].
Qed.

Lemma evolves_AcceptedAt m m' l : evolves m m' -> AcceptedAt (m' l) = AcceptedAt (m l).
Proof. intros H. destruct (H l) as [->|(_ & a & _ & ->)]; done. Qed.

Lemma evolves_VisibleAt m m' l : evolves m m' -> VisibleAt (m' l) = VisibleAt (m l).
Proof. intros H. destruct (H l) as [->|(_ & a & _ & ->)]; done. Qed.

Lemma evolves_ActiveAt m m' l : evolves m m' -> ActiveAt (m' l) <= ActiveAt (m l).
Proof. intros H. destruct (H l) as [->|(_ & a & ? & ->)]; simpl; lia. Qed.

Lemma evolves_Status m m' l :
  evolves m m' ->
  Status_ (m' l) = Status_ (m l) \/ (Status_ (m l) = Accepted /\ Status_ (m' l) = Activated).
Proof. intros H. destruct (H l) as [->|(? & a & _ & ->)]; auto. Qed.

Section SweepFacts.

Variable ExpirationFor : Z -> Z.
#[local] Abbreviation ExpireAt := (node.ExpireAt ExpirationFor).
#[local] Abbreviation settled := (node.settled ExpirationFor).
#[local] Abbreviation update_loop := (node.update_loop ExpirationFor).
#[local] Abbreviation update := (node.update ExpirationFor).
#[local] Abbreviation handleExpiredAndActivated := (node.handleExpiredAndActivated ExpirationFor).
#[local] Abbreviation NextUpdate := (node.NextUpdate ExpirationFor).

Lemma settled_evolves h m m' l : evolves m m' -> settled h (m l) -> settled h (m' l).
Proof.
  intros H (Hd & He & Ha). destruct (H l) as [->|(Hs & a & _ & ->)]; [done|].
  split_and!; [done|done|]. intros [? _]. discriminate.
Qed.

Lemma Forall_settled_evolves h m m' (l : ClaimList) :
  evolves m m' -> Forall (fun x => settled h (m x)) l -> Forall (fun x => settled h (m' x)) l.
Proof. intros H HF. eapply Forall_impl; [done|]. intros x. by apply settled_evolves. Qed.

(** The slice once the entry of index [k] has been overwritten by the last
    one (when it is not the last itself) and the last cell cut off. *)
Lemma cut_props (items : ClaimList) (k : nat) (moved : bool) :
  (k < length items)%nat ->
  (moved = true <-> (k < length items - 1)%nat) ->
  let items1 := if moved then match last items with
                              | Some e => <[k := e]> items
                              | None => items
                              end
                else items in
  let items2 := take (length items1 - 1) items1 in
  length items2 = (length items - 1)%nat
  /\ take k items2 = take k items
  /\ items2 ⊆ items.
Proof.
  intros Hk Hmoved items1 items2.
  assert (Hlen1 : length items1 = length items).
  { unfold items1. destruct moved; [|done]. destruct (last items); [|done].
    by rewrite length_insert. }
  assert (Htake1 : take k items1 = take k items).
  { unfold items1. destruct moved; [|done]. destruct (last items); [|done].
    by rewrite take_insert_ge by lia. }
  assert (Hsub1 : items1 ⊆ items).
  { unfold items1. destruct moved; [|done]. destruct (last items) as [e|] eqn:He; [|done].
    intros x [j Hj]%list_elem_of_lookup.
    apply list_lookup_insert_Some in Hj as [(-> & -> & _)|(_ & Hj)].
    - by apply last_Some_elem_of.
    - by eapply list_elem_of_lookup_2. }
  split_and!.
  - unfold items2. rewrite length_take, Hlen1. lia.
  - unfold items2. rewrite take_take, Hlen1.
    replace (k `min` (length items - 1))%nat with k by lia. done.
  - intros x Hx. apply Hsub1. unfold items2 in Hx. by eapply (subseteq_take _ items1).
Qed.

(** The sweep of one list: what [update_loop] guarantees from index [i] on
    when the entries before [i] are settled. *)
Lemma update_loop_spec h fuel :
  forall m (items : ClaimList) i changes m' items' changes',
    0 <= i -> Z.of_nat (length items) - i <= Z.of_nat fuel ->
    Forall (fun x => settled h (m x)) (take (Z.to_nat i) items) ->
    update_loop fuel h m items i changes = (m', items', changes') ->
    evolves m m'
    /\ Forall (fun x => settled h (m' x)) items'
    /\ items' ⊆ items
    /\ changes <= changes'
    /\ (changes' = changes -> m' = m /\ items' = items).
Proof.
  induction fuel as [|fuel IH]; intros m items i changes m' items' changes' Hi Hfuel Hpre Hrun.
  { simpl in Hrun. simplify_eq. rewrite take_ge in Hpre by lia.
    split_and!; [apply evolves_refl|done|done|lia|done]. }
  simpl in Hrun. case_bool_decide as Hin.
  2:{ simplify_eq. rewrite take_ge in Hpre by lia.
      split_and!; [apply evolves_refl|done|done|lia|done]. }
  destruct (items !! Z.to_nat i) as [c|] eqn:Hc.
  2:{ apply lookup_ge_None in Hc. lia. }
  set (activate := bool_decide (Status_ (m c) = Accepted) && (ActiveAt (m c) <=? h)
                   && (VisibleAt (m c) <=? h)) in Hrun.
  set (m1 := if activate then setStatus m c Activated else m) in Hrun.
  set (changes1 := if activate then changes + 1 else changes) in Hrun.
  assert (Hev1 : evolves m m1).
  { unfold m1. destruct activate eqn:Ha; [|apply evolves_refl].
    apply evolves_setStatus_Activated.
    apply andb_prop in Ha as [[Hs _]%andb_prop _]. by apply bool_decide_eq_true in Hs. }
  assert (Hch1 : changes <= changes1 /\ (changes1 = changes -> m1 = m)).
  { unfold changes1, m1. destruct activate; split; (lia || done). }
  assert (Hna : ~ activatable h (m1 c)).
  { unfold m1. destruct activate eqn:Ha.
    - rewrite setStatus_same. intros [? _]. discriminate.
    - intros (Hs & Hact & Hvis). unfold activate in Ha.
      rewrite bool_decide_eq_true_2 in Ha by done.
      apply Z.leb_le in Hact, Hvis. rewrite Hact, Hvis in Ha. discriminate. }
  clearbody m1 changes1. clear activate.
  destruct ((ExpireAt (m1 c) <=? h) || bool_decide (Status_ (m1 c) = Deactivated)) eqn:Hrem.
  - (* the entry is removed *)
    set (moved := i <? Z.of_nat (length items) - 1) in Hrun.
    destruct (cut_props items (Z.to_nat i) moved) as (Hlen & Htake & Hsub).
    { lia. }
    { unfold moved. rewrite Z.ltb_lt. lia. }
    cbv zeta in Hrun.
    apply IH in Hrun.
    + destruct Hrun as (Hev & Hset & Hsub' & Hch & _).
      split_and!; [by eapply evolves_trans|done|by etrans|lia|lia].
    + destruct moved; lia.
    + rewrite Hlen. unfold moved in *. destruct (i <? Z.of_nat (length items) - 1) eqn:Hm.
      * apply Z.ltb_lt in Hm. lia.
      * apply Z.ltb_ge in Hm. lia.
    + unfold moved in *. destruct (i <? Z.of_nat (length items) - 1) eqn:Hm.
      * replace (i - 1 + 1) with i by lia. rewrite Htake.
        by apply (Forall_settled_evolves h m m1).
      * apply Z.ltb_ge in Hm.
        replace (length items - 1)%nat with (Z.to_nat i) by lia.
        rewrite take_take.
        replace (Z.to_nat (i + 1) `min` Z.to_nat i)%nat with (Z.to_nat i) by lia.
        by apply (Forall_settled_evolves h m m1).
  - (* the entry stays *)
    apply orb_false_elim in Hrem as [Hexp Hdea].
    apply Z.leb_gt in Hexp. apply bool_decide_eq_false in Hdea.
    apply IH in Hrun.
    + destruct Hrun as (Hev & Hset & Hsub' & Hch & Hsame).
      split_and!; [by eapply evolves_trans|done|done|lia|].
      intros ->. destruct Hsame as [-> ->]; [lia|].
      split; [|done]. apply Hch1. lia.
    + lia.
    + lia.
    + replace (Z.to_nat (i + 1)) with (S (Z.to_nat i)) by lia.
      rewrite (take_S_r _ _ c) by done. apply Forall_app. split.
      * by apply (Forall_settled_evolves h m m1).
      * apply Forall_singleton. split_and!; [done|lia|done].
Qed.

Lemma update_spec h m (items : ClaimList) changes m' items' changes' :
  update h m items changes = (m', items', changes') ->
  evolves m m'
  /\ Forall (fun x => settled h (m' x)) items'
  /\ items' ⊆ items
  /\ changes <= changes'
  /\ (changes' = changes -> m' = m /\ items' = items).
Proof.
  intros Hrun. eapply update_loop_spec; [| | |exact Hrun]; [lia|lia|].
  simpl. constructor.
Qed.

(** The number of iterations granted to [update_loop] is enough: more
    fuel does not change its result. *)
Lemma update_loop_fuel h fuel :
  forall fuel' m (items : ClaimList) i changes,
    0 <= i -> Z.of_nat (length items) - i <= Z.of_nat fuel -> (fuel <= fuel')%nat ->
    update_loop fuel' h m items i changes = update_loop fuel h m items i changes.
Proof.
  induction fuel as [|fuel IH]; intros fuel' m items i changes Hi Hfuel Hle.
  { destruct fuel' as [|fuel']; [done|]. simpl.
    rewrite bool_decide_eq_false_2 by lia. done. }
  destruct fuel' as [|fuel']; [lia|]. simpl.
  case_bool_decide as Hin; [|done].
  destruct (items !! Z.to_nat i) as [c|] eqn:Hc; [|done].
  set (activate := bool_decide (Status_ (m c) = Accepted) && (ActiveAt (m c) <=? h)
                   && (VisibleAt (m c) <=? h)).
  set (m1 := if activate then setStatus m c Activated else m).
  set (changes1 := if activate then changes + 1 else changes).
  clearbody m1 changes1.
  destruct ((ExpireAt (m1 c) <=? h) || bool_decide (Status_ (m1 c) = Deactivated)).
  - set (moved := i <? Z.of_nat (length items) - 1).
    destruct (cut_props items (Z.to_nat i) moved) as (Hlen & _ & _).
    { lia. }
    { unfold moved. rewrite Z.ltb_lt. lia. }
    cbv zeta. apply IH; [destruct moved; lia| |lia].
    rewrite Hlen. unfold moved. destruct (i <? Z.of_nat (length items) - 1) eqn:Hm.
    + apply Z.ltb_lt in Hm. lia.
    + apply Z.ltb_ge in Hm. lia.
  - apply IH; lia.
Qed.

Lemma handle_spec m n h m' n' changes :
  handleExpiredAndActivated m n h = (m', n', changes) ->
  evolves m m'
  /\ Forall (fun x => settled h (m' x)) (entries n')
  /\ Claims n' ⊆ Claims n /\ Supports n' ⊆ Supports n
  /\ BestClaim n' = BestClaim n /\ TakenOverAt n' = TakenOverAt n
  /\ 0 <= changes
  /\ (changes = 0 -> m' = m /\ n' = n).
Proof.
  unfold node.handleExpiredAndActivated.
  destruct (update h m (Claims n) 0) as [[m1 claims] ch1] eqn:H1.
  destruct (update h m1 (Supports n) ch1) as [[m2 supports] ch2] eqn:H2.
  intros [= <- <- <-].
  apply update_spec in H1 as (Hev1 & Hset1 & Hsub1 & Hch1 & Hsame1).
  apply update_spec in H2 as (Hev2 & Hset2 & Hsub2 & Hch2 & Hsame2).
  split_and!; simpl; [by eapply evolves_trans| |done|done|done|done|lia|].
  - unfold entries. simpl. apply Forall_app. split; [|done].
    by apply (Forall_settled_evolves h m1 m2).
  - intros ->. assert (ch1 = 0) as -> by lia.
    destruct Hsame2 as [-> ->]; [done|]. destruct Hsame1 as [-> ->]; [done|].
    split; [done|]. by destruct n.
Qed.

Lemma dueAt_not_settled h c : dueAt ExpirationFor h c -> ~ settled h c.
Proof.
  intros [He|[Hs Hmax]] (Hd & Hexp & Hna).
  - fold (ExpireAt c) in He. lia.
  - apply Hna. split_and!; [done|lia|lia].
Qed.

(** The sweep at a height at which an entry is due counts a change. *)
Lemma handle_progress m n h x :
  x ∈ entries n -> ~ settled h (m x) -> 0 < (handleExpiredAndActivated m n h).2.
Proof.
  intros Hx Hns.
  destruct (handleExpiredAndActivated m n h) as [[m' n'] ch] eqn:H. simpl.
  apply handle_spec in H as (_ & Hset & _ & _ & _ & _ & Hch & Hsame).
  destruct (decide (ch = 0)) as [->|]; [|lia].
  destruct Hsame as [-> ->]; [done|].
  rewrite Forall_forall in Hset. destruct Hns. by apply Hset.
Qed.

(** *** [NextUpdate] *)

Lemma nextStep_cases m next x :
  let r := node.nextStep ExpirationFor m next x in
  r = next \/ (r < next /\ dueAt ExpirationFor r (m x)).
Proof.
  unfold node.nextStep, dueAt. cbv zeta.
  set (e := node.ExpireAt ExpirationFor (m x)).
  set (mx := if VisibleAt (m x) >? ActiveAt (m x) then VisibleAt (m x) else ActiveAt (m x)).
  assert (Hmx : mx = Z.max (ActiveAt (m x)) (VisibleAt (m x))).
  { unfold mx. destruct (VisibleAt (m x) >? ActiveAt (m x)) eqn:Hv;
      rewrite Z.gtb_ltb in Hv; [apply Z.ltb_lt in Hv|apply Z.ltb_ge in Hv]; lia. }
  clearbody mx.
  destruct (e <? next) eqn:He; [apply Z.ltb_lt in He|apply Z.ltb_ge in He];
    (case_bool_decide as Hs; [|]).
  - destruct (mx <? e) eqn:Hm; [apply Z.ltb_lt in Hm|apply Z.ltb_ge in Hm].
    + right. split; [lia|]. right. by split.
    + right. split; [lia|]. by left.
  - right. split; [lia|]. by left.
  - destruct (mx <? next) eqn:Hm; [apply Z.ltb_lt in Hm|by left].
    right. split; [lia|]. right. by split.
  - by left.
Qed.

Lemma fold_nextStep_due m (l : ClaimList) :
  forall next, let r := fold_left (node.nextStep ExpirationFor m) l next in
    r <= next /\ (r = next \/ exists x, x ∈ l /\ dueAt ExpirationFor r (m x)).
Proof.
  induction l as [|x l IH]; intros next; simpl; [split; [lia|by left]|].
  destruct (IH (node.nextStep ExpirationFor m next x)) as [Hle Hr].
  destruct (nextStep_cases m next x) as [Hn|[Hn Hdue]].
  - rewrite Hn in *. split; [done|]. destruct Hr as [?|(y & ? & ?)]; [by left|].
    right. exists y. split; [by right|done].
  - split; [lia|]. right. destruct Hr as [->|(y & ? & ?)].
    + exists x. split; [by left|done].
    + exists y. split; [by right|done].
Qed.

Lemma nextStep_settled m h next x :
  settled h (m x) -> h < next -> h < node.nextStep ExpirationFor m next x.
Proof.
  intros (Hd & He & Hna) Hn. unfold node.nextStep, activatable in *. cbv zeta.
  fold (ExpireAt (m x)).
  set (mx := if VisibleAt (m x) >? ActiveAt (m x) then VisibleAt (m x) else ActiveAt (m x)).
  assert (Hmx : mx = Z.max (ActiveAt (m x)) (VisibleAt (m x))).
  { unfold mx. destruct (VisibleAt (m x) >? ActiveAt (m x)) eqn:Hv;
      rewrite Z.gtb_ltb in Hv; [apply Z.ltb_lt in Hv|apply Z.ltb_ge in Hv]; lia. }
  clearbody mx.
  set (n1 := if ExpireAt (m x) <? next then ExpireAt (m x) else next).
  assert (Hn1 : h < n1) by (unfold n1; by destruct (_ <? _)).
  clearbody n1. case_bool_decide as Hs; [|done].
  destruct (mx <? n1); [|done].
  destruct (decide (ActiveAt (m x) <= h)); [|lia].
  destruct (decide (VisibleAt (m x) <= h)); [|lia]. by destruct Hna.
Qed.

Lemma fold_nextStep_settled m h (l : ClaimList) :
  forall next, Forall (fun x => settled h (m x)) l -> h < next ->
    h < fold_left (node.nextStep ExpirationFor m) l next.
Proof.
  induction l as [|x l IH]; intros next Hl Hn; simpl; [done|].
  inversion Hl; subst. apply IH; [done|]. by apply nextStep_settled.
Qed.

Lemma NextUpdate_le m n : NextUpdate m n <= MaxInt32.
Proof.
  unfold node.NextUpdate.
  pose proof (fold_nextStep_due m (Claims n) MaxInt32) as [H1 _].
  pose proof (fold_nextStep_due m (Supports n)
                (fold_left (node.nextStep ExpirationFor m) (Claims n) MaxInt32)) as [H2 _].
  simpl in *. lia.
Qed.

(** Below [MaxInt32], [NextUpdate] is the expiry of an entry or the height
    at which an Accepted entry becomes active and visible. *)
Lemma NextUpdate_due m n :
  NextUpdate m n < MaxInt32 -> exists x, x ∈ entries n /\ dueAt ExpirationFor (NextUpdate m n) (m x).
Proof.
  unfold node.NextUpdate, entries. intros Hlt.
  pose proof (fold_nextStep_due m (Claims n) MaxInt32) as [H1 Hd1].
  pose proof (fold_nextStep_due m (Supports n)
                (fold_left (node.nextStep ExpirationFor m) (Claims n) MaxInt32)) as [H2 Hd2].
  simpl in *. destruct Hd2 as [Heq|(x & Hx & Hdue)].
  - rewrite Heq in *. destruct Hd1 as [?|(x & Hx & Hdue)]; [lia|].
    exists x. split; [apply elem_of_app; by left|done].
  - exists x. split; [apply elem_of_app; by right|done].
Qed.

Lemma NextUpdate_settled m n h :
  Forall (fun x => settled h (m x)) (entries n) -> h < MaxInt32 -> h < NextUpdate m n.
Proof.
  unfold entries, node.NextUpdate. intros [Hc Hs]%Forall_app Hh.
  apply fold_nextStep_settled; [done|]. by apply fold_nextStep_settled.
Qed.

End SweepFacts.

(** *** [activateAllClaims] *)

Lemma activateAllClaims_fold m n h :
  activateAllClaims m n h = fold_left (activateStep h) (entries n) (m, 0).
Proof. unfold activateAllClaims, entries. by rewrite fold_left_app. Qed.

Lemma evolves_pointwise m m' c a :
  Status_ (m c) = Accepted -> a <= ActiveAt (m c) ->
  m' c = withStatus (withActiveAt (m c) a) Activated ->
  (forall l, l <> c -> m' l = m l) ->
  evolves m m'.
Proof.
  intros Hs Ha Hc Hother l. destruct (decide (l = c)) as [->|Hne].
  - right. split; [done|]. by exists a.
  - left. by apply Hother.
Qed.

Lemma activateStep_cases h m0 cnt0 c :
  let st1 := activateStep h (m0, cnt0) c in
  (forceable h (m0 c) /\ st1.2 = cnt0 + 1
   /\ st1.1 c = withStatus (withActiveAt (m0 c) h) Activated
   /\ (forall l, l <> c -> st1.1 l = m0 l))
  \/ (~ forceable h (m0 c) /\ st1 = (m0, cnt0)).
Proof.
  unfold activateStep, forceable.
  destruct (bool_decide (Status_ (m0 c) = Accepted)) eqn:Hs.
  2:{ right. apply bool_decide_eq_false in Hs. split; [|done]. by intros [? _]. }
  apply bool_decide_eq_true in Hs.
  destruct (ActiveAt (m0 c) >? h) eqn:Ha.
  2:{ right. rewrite Z.gtb_ltb, Z.ltb_ge in Ha. split; [|done]. intros (_ & ? & _). lia. }
  rewrite Z.gtb_ltb, Z.ltb_lt in Ha.
  destruct (VisibleAt (m0 c) <=? h) eqn:Hv.
  2:{ right. apply Z.leb_gt in Hv. split; [|done]. intros (_ & _ & ?). lia. }
  apply Z.leb_le in Hv. left. cbn [andb fst snd].
  split; [split_and!; [done|lia|done]|]. split; [done|]. split.
  - by rewrite setStatus_same, setActiveAt_same.
  - intros l Hl. by rewrite setStatus_other, setActiveAt_other.
Qed.

Lemma activate_fold_spec h (items : ClaimList) :
  forall m0 cnt0,
    let r := fold_left (activateStep h) items (m0, cnt0) in
    evolves m0 r.1
    /\ cnt0 <= r.2
    /\ (forall l, r.1 l = if decide (l ∈ items /\ forceable h (m0 l))
                         then withStatus (withActiveAt (m0 l) h) Activated else m0 l)
    /\ (cnt0 < r.2 <-> exists l, l ∈ items /\ forceable h (m0 l)).
Proof.
  induction items as [|c items IH]; intros m0 cnt0; cbn [fold_left].
  { cbn [fst snd]. split_and!; [apply evolves_refl|lia| |].
    - intros l. rewrite decide_False; [done|]. intros [?%elem_of_nil _]. done.
    - split; [lia|]. intros (l & ?%elem_of_nil & _). done. }
  pose proof (activateStep_cases h m0 cnt0 c) as Hst1. cbv zeta in Hst1.
  destruct (activateStep h (m0, cnt0) c) as [m1 cnt1]. cbn [fst snd] in Hst1.
  specialize (IH m1 cnt1). cbv zeta in IH. cbv zeta.
  destruct (fold_left (activateStep h) items (m1, cnt1)) as [m' cnt']. cbn [fst snd] in *.
  destruct IH as (Hev & Hcnt & Hmem & Hiff).
  destruct Hst1 as [(Hf & -> & Hc & Hother)|[Hnf [= -> ->]]].
  - assert (Hnf1 : ~ forceable h (m1 c)).
    { rewrite Hc. intros [? _]. discriminate. }
    split_and!.
    + eapply evolves_trans; [|exact Hev].
      eapply (evolves_pointwise _ _ c h); [apply Hf| |done|done].
      destruct Hf as (_ & ? & _). lia.
    + lia.
    + intros l. rewrite Hmem. destruct (decide (l = c)) as [->|Hne].
      * rewrite decide_False by (by intros [_ ?]).
        rewrite Hc. rewrite decide_True; [done|]. split; [by left|done].
      * rewrite Hother by done.
        destruct (decide (l ∈ items /\ forceable h (m0 l))) as [[? ?]|Hn].
        -- rewrite decide_True; [done|]. split; [by right|done].
        -- rewrite decide_False; [done|]. intros [[?|?]%elem_of_cons ?]; [done|]. by apply Hn.
    + split; [|lia]. intros _. exists c. split; [by left|done].
  - split_and!; [done|done| |].
    + intros l. rewrite Hmem.
      destruct (decide (l ∈ items /\ forceable h (m0 l))) as [[? ?]|Hn].
      * rewrite decide_True; [done|]. split; [by right|done].
      * rewrite decide_False; [done|].
        intros [[->|?]%elem_of_cons ?]; [done|]. by apply Hn.
    + rewrite Hiff. split.
      * intros (l & ? & ?). exists l. split; [by right|done].
      * intros (l & [->|?]%elem_of_cons & ?); [done|]. by exists l.
Qed.

(** *** [updateTakeoverHeight] and [AdjustTo] *)
Section AdjustFacts.

Variable MaxRemovalWorkaroundHeight : Z.
Variable TakeoverWorkarounds : Z -> list byte -> bool.
Variable ExpirationFor : Z -> Z.
#[local] Abbreviation settled := (node.settled ExpirationFor).
#[local] Abbreviation handleExpiredAndActivated := (node.handleExpiredAndActivated ExpirationFor).
#[local] Abbreviation NextUpdate := (node.NextUpdate ExpirationFor).
#[local] Abbreviation updateTakeoverHeight :=
  (node.updateTakeoverHeight MaxRemovalWorkaroundHeight TakeoverWorkarounds).
#[local] Abbreviation AdjustTo_loop :=
  (node.AdjustTo_loop MaxRemovalWorkaroundHeight TakeoverWorkarounds ExpirationFor).
#[local] Abbreviation AdjustTo_run :=
  (node.AdjustTo_run MaxRemovalWorkaroundHeight TakeoverWorkarounds ExpirationFor).

Lemma updateTakeoverHeight_mem m n h name refindBest :
  (updateTakeoverHeight m n h name refindBest).1 =
  if takeoverHappening m n (firstCandidate m n refindBest)
  then (activateAllClaims m n h).1 else m.
Proof.
  unfold node.updateTakeoverHeight, firstCandidate.
  destruct (takeoverHappening m n _); cbn [negb andb].
  - destruct (activateAllClaims m n h) as [m' count]. by destruct (count >? 0).
  - by destruct (h <? MaxRemovalWorkaroundHeight); [destruct (TakeoverWorkarounds h name)|].
Qed.

Lemma updateTakeoverHeight_lists m n h name refindBest :
  Claims (updateTakeoverHeight m n h name refindBest).2 = Claims n
  /\ Supports (updateTakeoverHeight m n h name refindBest).2 = Supports n.
Proof.
  unfold node.updateTakeoverHeight.
  destruct (takeoverHappening m n _); cbn [negb andb].
  - destruct (activateAllClaims m n h) as [m' count]. by destruct (count >? 0).
  - by destruct (h <? MaxRemovalWorkaroundHeight); [destruct (TakeoverWorkarounds h name)|].
Qed.

Lemma updateTakeoverHeight_evolves m n h name refindBest :
  evolves m (updateTakeoverHeight m n h name refindBest).1.
Proof.
  rewrite updateTakeoverHeight_mem. destruct (takeoverHappening _ _ _); [|apply evolves_refl].
  rewrite activateAllClaims_fold. apply activate_fold_spec.
Qed.

(** One advance of the node to [h]: the sweep, then the takeover check. *)
Lemma advance_spec m n h name m1 n1 changes m2 n2 :
  handleExpiredAndActivated m n h = (m1, n1, changes) ->
  updateTakeoverHeight m1 n1 h name (changes >? 0) = (m2, n2) ->
  evolves m m2
  /\ Forall (fun x => settled h (m2 x)) (entries n2)
  /\ entries n2 ⊆ entries n.
Proof.
  intros H1 H2.
  apply (handle_spec ExpirationFor) in H1 as (Hev1 & Hset1 & Hc & Hs & _).
  pose proof (updateTakeoverHeight_evolves m1 n1 h name (changes >? 0)) as Hev2.
  pose proof (updateTakeoverHeight_lists m1 n1 h name (changes >? 0)) as [Hc2 Hs2].
  rewrite H2 in *. cbn [fst snd] in *.
  assert (Hent : entries n2 = entries n1) by (unfold entries; congruence).
  split_and!.
  - by eapply evolves_trans.
  - rewrite Hent. by apply (Forall_settled_evolves ExpirationFor h m1 m2).
  - rewrite Hent. unfold entries. intros x [?|?]%elem_of_app; apply elem_of_app; auto.
Qed.

Lemma settled_mono h h' c : h' <= h -> settled h c -> settled h' c.
Proof.
  intros Hle (Hd & He & Hna). split_and!; [done|lia|].
  intros (? & ? & ?). apply Hna. split_and!; [done|lia|lia].
Qed.

(** What the loop of [AdjustTo] has established when it exits. *)
Lemma AdjustTo_loop_spec maxHeight name fuel :
  forall m n height m' n' final,
    Forall (fun x => settled height (m x)) (entries n) ->
    AdjustTo_loop fuel m n height maxHeight name = Some (m', n', final) ->
    evolves m m'
    /\ Forall (fun x => settled final (m' x)) (entries n')
    /\ entries n' ⊆ entries n
    /\ (final = height \/ final <= maxHeight).
Proof.
  induction fuel as [|fuel IH]; intros m n height m' n' final Hset Hrun; simpl in Hrun.
  - destruct (NextUpdate m n <=? maxHeight); [done|]. simplify_eq.
    split_and!; [apply evolves_refl|done|done|by left].
  - destruct (NextUpdate m n <=? maxHeight) eqn:Hle;
      [|simplify_eq; split_and!; [apply evolves_refl|done|done|by left]].
    apply Z.leb_le in Hle.
    destruct (handleExpiredAndActivated m n (NextUpdate m n)) as [[m1 n1] changes] eqn:H1.
    destruct (updateTakeoverHeight m1 n1 (NextUpdate m n) name (changes >? 0)) as [m2 n2] eqn:H2.
    destruct (advance_spec _ _ _ _ _ _ _ _ _ H1 H2) as (Hev & Hset2 & Hsub).
    apply IH in Hrun as (Hev' & Hset' & Hsub' & Hfin); [|done].
    split_and!; [by eapply evolves_trans|done|by etrans|right; lia].
Qed.

Lemma AdjustTo_run_spec maxHeight name fuel m n height m' n' final :
  AdjustTo_run fuel m n height maxHeight name = Some (m', n', final) ->
  evolves m m'
  /\ Forall (fun x => settled final (m' x)) (entries n')
  /\ entries n' ⊆ entries n
  /\ (final = height \/ final <= maxHeight).
Proof.
  unfold node.AdjustTo_run. intros Hrun.
  destruct (handleExpiredAndActivated m n height) as [[m1 n1] changes] eqn:H1.
  destruct (updateTakeoverHeight m1 n1 height name (changes >? 0)) as [m2 n2] eqn:H2.
  destruct (advance_spec _ _ _ _ _ _ _ _ _ H1 H2) as (Hev & Hset2 & Hsub).
  destruct (maxHeight >? height).
  - apply AdjustTo_loop_spec in Hrun as (Hev' & Hset' & Hsub' & Hfin); [|done].
    split_and!; [by eapply evolves_trans|done|by etrans|done].
  - simplify_eq. split_and!; [done|done|done|by left].
Qed.

(** Each iteration of the loop below [MaxInt32] moves [NextUpdate] up. *)
Lemma advance_NextUpdate m n name :
  let h := NextUpdate m n in
  h < MaxInt32 ->
  (exists x, x ∈ entries n /\ dueAt ExpirationFor h (m x))
  /\ 0 < (handleExpiredAndActivated m n h).2
  /\ forall m1 n1 changes, handleExpiredAndActivated m n h = (m1, n1, changes) ->
       h < NextUpdate (updateTakeoverHeight m1 n1 h name (changes >? 0)).1
             (updateTakeoverHeight m1 n1 h name (changes >? 0)).2.
Proof.
  intros h Hh.
  destruct (NextUpdate_due ExpirationFor m n Hh) as (x & Hx & Hdue).
  split_and!.
  - by exists x.
  - eapply handle_progress; [done|]. by apply dueAt_not_settled.
  - intros m1 n1 changes H1.
    destruct (updateTakeoverHeight m1 n1 h name (changes >? 0)) as [m2 n2] eqn:H2.
    destruct (advance_spec _ _ _ _ _ _ _ _ _ H1 H2) as (_ & Hset & _).
    by apply NextUpdate_settled.
Qed.

(** With [maxHeight] below [MaxInt32] the loop exits. *)
Lemma AdjustTo_loop_terminates maxHeight name :
  maxHeight < MaxInt32 ->
  forall fuel m n height,
    maxHeight - NextUpdate m n < Z.of_nat fuel ->
    exists r, AdjustTo_loop fuel m n height maxHeight name = Some r.
Proof.
  intros Hmax. induction fuel as [|fuel IH]; intros m n height Hfuel; simpl.
  - destruct (NextUpdate m n <=? maxHeight) eqn:Hle; [|eauto]. apply Z.leb_le in Hle. lia.
  - destruct (NextUpdate m n <=? maxHeight) eqn:Hle; [|eauto]. apply Z.leb_le in Hle.
    destruct (advance_NextUpdate m n name) as (_ & _ & Hnext); [lia|].
    destruct (handleExpiredAndActivated m n (NextUpdate m n)) as [[m1 n1] changes] eqn:H1.
    specialize (Hnext _ _ _ eq_refl).
    destruct (updateTakeoverHeight m1 n1 (NextUpdate m n) name (changes >? 0)) as [m2 n2] eqn:H2.
    cbn [fst snd] in Hnext. apply IH. lia.
Qed.

Lemma AdjustTo_run_terminates m n height maxHeight name :
  maxHeight < MaxInt32 \/ maxHeight <= height ->
  exists fuel r, AdjustTo_run fuel m n height maxHeight name = Some r.
Proof.
  intros Hmax. unfold node.AdjustTo_run.
  destruct (handleExpiredAndActivated m n height) as [[m1 n1] changes].
  destruct (updateTakeoverHeight m1 n1 height name (changes >? 0)) as [m2 n2].
  destruct (maxHeight >? height) eqn:Hgt; [|by exists 0%nat; eauto].
  rewrite Z.gtb_ltb in Hgt. apply Z.ltb_lt in Hgt.
  exists (Z.to_nat (maxHeight - NextUpdate m2 n2 + 1)).
  apply AdjustTo_loop_terminates; lia.
Qed.

(** C1 (as amended). In updateTakeoverHeight, when a takeover is happening,
    every Accepted claim and support that is visible (visible_at <= height)
    and not yet active (active_at > height) is activated in place, and the
    best claim is found again if any was; this happens at every height,
    below MaxRemovalWorkaroundHeight or not. When no takeover is happening
    no claim or support is modified. MaxRemovalWorkaroundHeight has no
    influence on the claims and supports at all. *)
Theorem C1_force_activation_at_every_height (m : Mem) (n : Node) (h : Z) (name : list byte)
    (refindBest : bool) :
  let r := updateTakeoverHeight m n h name refindBest in
  (takeoverHappening m n (firstCandidate m n refindBest) = true ->
     (forall l, r.1 l = if decide (l ∈ entries n /\ forceable h (m l))
                        then withStatus (withActiveAt (m l) h) Activated else m l)
     /\ ((exists l, l ∈ entries n /\ forceable h (m l)) -> BestClaim r.2 = findBestClaim r.1 r.2)
     /\ TakenOverAt r.2 = h)
  /\ (takeoverHappening m n (firstCandidate m n refindBest) = false -> r.1 = m)
  /\ Claims r.2 = Claims n /\ Supports r.2 = Supports n
  /\ (forall maxRemovalWorkaroundHeight',
        (node.updateTakeoverHeight maxRemovalWorkaroundHeight' TakeoverWorkarounds
           m n h name refindBest).1 = r.1).
Proof.
  intros r. split_and!.
  - intros Htake.
    pose proof (activate_fold_spec h (entries n) m 0) as (_ & _ & Hmem & Hcnt).
    cbv zeta in Hmem, Hcnt. rewrite <- activateAllClaims_fold in Hmem, Hcnt.
    assert (Hr1 : r.1 = (activateAllClaims m n h).1).
    { unfold r. by rewrite updateTakeoverHeight_mem, Htake. }
    split_and!.
    + intros l. rewrite Hr1. apply Hmem.
    + intros Hex. apply Hcnt in Hex. unfold r, node.updateTakeoverHeight.
      fold (firstCandidate m n refindBest). rewrite Htake. cbn [negb andb].
      destruct (activateAllClaims m n h) as [m' count]. cbn [fst snd] in *.
      destruct (count >? 0) eqn:Hc; [done|]. rewrite Z.gtb_ltb, Z.ltb_ge in Hc. lia.
    + unfold r, node.updateTakeoverHeight.
      fold (firstCandidate m n refindBest). rewrite Htake. cbn [negb andb].
      destruct (activateAllClaims m n h) as [m' count]. by destruct (count >? 0).
  - intros Htake. unfold r. by rewrite updateTakeoverHeight_mem, Htake.
  - apply updateTakeoverHeight_lists.
  - apply updateTakeoverHeight_lists.
  - intros mx'. unfold r.
    unfold node.updateTakeoverHeight.
    destruct (takeoverHappening m n _); cbn [negb andb].
    + destruct (activateAllClaims m n h) as [m' count]. by destruct (count >? 0).
    + destruct (h <? mx'), (h <? MaxRemovalWorkaroundHeight), (TakeoverWorkarounds h name); done.
Qed.

(** C4. When AdjustTo returns, with [final] the last height the node was
    advanced to, no entry of the claims or supports lists is Deactivated or
    has expires_at <= final, and every remaining entry that was Accepted
    with active_at and visible_at at or below [final] is Activated (indeed
    no remaining entry is Accepted with both at or below [final]).
    AdjustTo does return whenever maxHeight is below the largest int32 or
    not above height. *)
Theorem C4_adjust_to_sweeps (m : Mem) (n : Node) (height maxHeight : Z) (name : list byte) :
  (maxHeight < MaxInt32 \/ maxHeight <= height ->
     exists fuel m' n' final, AdjustTo_run fuel m n height maxHeight name = Some (m', n', final))
  /\ forall fuel m' n' final,
       AdjustTo_run fuel m n height maxHeight name = Some (m', n', final) ->
       node.AdjustTo MaxRemovalWorkaroundHeight TakeoverWorkarounds ExpirationFor
         fuel m n height maxHeight name = Some (m', n')
       /\ (final = height \/ final <= maxHeight)
       /\ forall l, l ∈ Claims n' \/ l ∈ Supports n' ->
            (l ∈ Claims n \/ l ∈ Supports n)
            /\ Status_ (m' l) <> Deactivated
            /\ ~ node.ExpireAt ExpirationFor (m' l) <= final
            /\ (Status_ (m l) = Accepted -> ActiveAt (m l) <= final -> VisibleAt (m l) <= final ->
                Status_ (m' l) = Activated)
            /\ ~ (Status_ (m' l) = Accepted /\ ActiveAt (m' l) <= final /\ VisibleAt (m' l) <= final).
Proof.
  split.
  - intros Hmax. destruct (AdjustTo_run_terminates m n height maxHeight name Hmax)
      as (fuel & [[m' n'] final] & Hrun). by exists fuel, m', n', final.
  - intros fuel m' n' final Hrun. split; [unfold node.AdjustTo; by rewrite Hrun|].
    apply AdjustTo_run_spec in Hrun as (Hev & Hset & Hsub & Hfin). split; [done|].
    intros l Hl. apply elem_of_app in Hl. fold (entries n') in Hl.
    rewrite Forall_forall in Hset. destruct (Hset l Hl) as (Hd & He & Hna).
    split_and!; [apply elem_of_app; by apply Hsub|done|lia| |done].
    intros Hs Ha Hv. destruct (Hev l) as [Heq|(_ & a & _ & ->)]; [|done].
    destruct Hna. rewrite Heq. by split_and!.
Qed.

(** C10 (as amended). For maxHeight below the largest int32, AdjustTo
    terminates for every node state. Whenever the loop runs an iteration at
    h = NextUpdate() <= maxHeight, some entry has expires_at = h or is Accepted
    with max(active_at, visible_at) = h, the sweep at h counts at least one
    change, and after the iteration NextUpdate() is strictly above h. *)
Theorem C10_adjust_to_terminates_below_max (maxHeight : Z) (name : list byte) :
  maxHeight < MaxInt32 ->
  (forall m n height,
     exists fuel m' n' final, AdjustTo_run fuel m n height maxHeight name = Some (m', n', final))
  /\ (forall m n, NextUpdate m n <= maxHeight ->
        let h := NextUpdate m n in
        (exists x, x ∈ entries n /\ dueAt ExpirationFor h (m x))
        /\ 0 < (handleExpiredAndActivated m n h).2
        /\ forall m1 n1 changes, handleExpiredAndActivated m n h = (m1, n1, changes) ->
             h < NextUpdate (updateTakeoverHeight m1 n1 h name (changes >? 0)).1
                   (updateTakeoverHeight m1 n1 h name (changes >? 0)).2).
Proof.
  intros Hmax. split.
  - intros m n height.
    destruct (AdjustTo_run_terminates m n height maxHeight name (or_introl Hmax))
      as (fuel & [[m' n'] final] & Hrun). by exists fuel, m', n', final.
  - intros m n Hle. apply advance_NextUpdate. lia.
Qed.

End AdjustFacts.

(** *** The properties on concrete states *)
Section Concrete.
Import scenario.

#[local] Abbreviation ApplyChange := (node.ApplyChange parseOutPoint).
#[local] Abbreviation updateTakeoverHeight :=
  (node.updateTakeoverHeight maxRemovalWorkaroundHeight noWorkarounds).
#[local] Abbreviation AdjustTo_run :=
  (node.AdjustTo_run maxRemovalWorkaroundHeight noWorkarounds expiration).
#[local] Abbreviation AdjustTo_loop :=
  (node.AdjustTo_loop maxRemovalWorkaroundHeight noWorkarounds expiration).

(** At height 200, above MaxRemovalWorkaroundHeight = 100, a takeover on a
    node whose only claim is Accepted, visible and active from 300 on
    activates that claim in place. *)
Lemma C1_counterexample :
  maxRemovalWorkaroundHeight <= 200
  /\ takeoverHappening pendingMem pendingNode (firstCandidate pendingMem pendingNode false) = true
  /\ Status_ (pendingMem 0%nat) = Accepted
  /\ Status_ ((updateTakeoverHeight pendingMem pendingNode 200 [] false).1 0%nat) = Activated
  /\ ActiveAt ((updateTakeoverHeight pendingMem pendingNode 200 [] false).1 0%nat) = 200
  /\ BestClaim (updateTakeoverHeight pendingMem pendingNode 200 [] false).2 = Some 0%nat.
Proof. split; [by vm_compute|]. by vm_compute. Qed.

Lemma C1_witness :
  takeoverHappening pendingMem pendingNode (firstCandidate pendingMem pendingNode false) = true
  /\ TakenOverAt (updateTakeoverHeight pendingMem pendingNode 200 [] false).2 = 200
  /\ (updateTakeoverHeight pendingMem pendingNode 200 [] false).1 0%nat
     = withStatus (withActiveAt (pendingMem 0%nat) 200) Activated.
Proof.
  pose proof (C1_force_activation_at_every_height maxRemovalWorkaroundHeight noWorkarounds
                pendingMem pendingNode 200 [] false) as (Htake & _).
  destruct (Htake eq_refl) as (Hmem & _ & Htaken).
  split; [reflexivity|]. split; [exact Htaken|].
  rewrite Hmem. reflexivity.
Defined.

(** The node holds a Deactivated claim with the claim id of the change, but
    an Accepted claim with the same id precedes it: nothing is updated. *)
Lemma C2_counterexample :
  (1%nat ∈ Claims twinNode
   /\ ClaimID (mem twinWorld 1%nat) = change.ClaimID updateChange
   /\ Status_ (mem twinWorld 1%nat) = Deactivated)
  /\ exists w', ApplyChange twinWorld twinNode updateChange 0 = Some (w', twinNode, None)
       /\ Status_ (mem w' 1%nat) = Deactivated
       /\ AcceptedAt (mem w' 1%nat) = 1
       /\ change.Height updateChange = 5
       /\ mem w' = mem twinWorld.
Proof.
  split.
  - split; [|by vm_compute]. unfold twinNode. simpl. set_solver.
  - eexists. split; [reflexivity|]. by vm_compute.
Qed.

Lemma C2_witness :
  exists w', ApplyChange spentWorld oneClaimNode updateChange 3 = Some (w', oneClaimNode, None)
    /\ mem w' 0%nat = {| cOutPoint := mkOutPoint (String.list_byte_of_string "t9") 0;
                         ClaimID := "id1"; Amount := 7; AcceptedAt := 5; ActiveAt := 8;
                         Status_ := Accepted; Value := []; VisibleAt := 1 |}.
Proof.
  destruct (proj1 (C2_update_claim_first_match parseOutPoint spentWorld oneClaimNode
                     updateChange 3 eq_refl)
              0%nat (mkOutPoint (String.list_byte_of_string "t9") 0) eq_refl eq_refl eq_refl)
    as (w' & Hrun & Hmem & _).
  exists w'. split; [exact Hrun|exact Hmem].
Defined.

(** A SpendClaim of out point ["t1"] at height 5 followed by the
    UpdateClaim of the same claim id with out point ["t9"]: one claim, the
    claim id kept, accepted at 5 and active at 5 plus the delay. *)
Example spend_then_update :
  let liveWorld := worldOf [claimOf "t1" "id1" 5 1 1 Activated] in
  let spend := change.mkChange change.SpendClaim 5 0 [] "id1" "t1" 0 [] in
  ('(w1, n1, _) ← ApplyChange liveWorld oneClaimNode spend 0;
   '(w2, n2, _) ← ApplyChange w1 n1 updateChange 3;
   Some (Claims n2, mem w2 0%nat, stdout w2))
  = Some ([0%nat],
          {| cOutPoint := mkOutPoint (String.list_byte_of_string "t9") 0;
             ClaimID := "id1"; Amount := 7; AcceptedAt := 5; ActiveAt := 8;
             Status_ := Accepted; Value := []; VisibleAt := 1 |},
          []).
Proof. by vm_compute. Qed.

(** A SpendSupport of a missing support is reported at each call. *)
Lemma C9_counterexample :
  exists w1 w2,
    ApplyChange spentWorld oneClaimNode spendSupportChange 0 = Some (w1, oneClaimNode, None)
    /\ ApplyChange w1 oneClaimNode spendSupportChange 0 = Some (w2, oneClaimNode, None)
    /\ stdout w1 = [LogMissingSupport "t9" [] "id1"]
    /\ stdout w2 = [LogMissingSupport "t9" [] "id1"; LogMissingSupport "t9" [] "id1"].
Proof. eexists _, _. split; [reflexivity|]. split; [reflexivity|]. by vm_compute. Qed.

Lemma C9_witness :
  exists w', ApplyChange spentWorld oneClaimNode spendClaimChange 0 = Some (w', oneClaimNode, None)
    /\ mem w' = mem spentWorld
    /\ (5, "id1"%string) ∈ mispents w'.
Proof.
  destruct (C9_spend_deactivates_or_reports parseOutPoint spentWorld oneClaimNode
              spendClaimChange 0 (mkOutPoint (String.list_byte_of_string "t9") 0) eq_refl)
    as [Hclaim _].
  destruct (Hclaim eq_refl) as [_ Hmissing].
  destruct Hmissing as (w' & Hrun & Hmem & _ & Hkey & _).
  { intros x Hx. apply list_elem_of_singleton in Hx. subst x. vm_compute. discriminate. }
  exists w'. split; [exact Hrun|]. split; [exact Hmem|exact Hkey].
Defined.

Lemma C4_witness :
  50 < MaxInt32
  /\ (exists fuel m' n' final,
        AdjustTo_run fuel readyMem pendingNode 10 50 [] = Some (m', n', final))
  /\ match AdjustTo_run 1 readyMem pendingNode 10 50 [] with
     | Some (m', n', final) => final = 10 /\ Claims n' = [0%nat] /\ Status_ (m' 0%nat) = Activated
     | None => False
     end.
Proof.
  pose proof (C4_adjust_to_sweeps maxRemovalWorkaroundHeight noWorkarounds expiration
                readyMem pendingNode 10 50 []) as [Hterm Hsweep].
  split; [reflexivity|]. split; [exact (Hterm (or_introl eq_refl))|].
  destruct (AdjustTo_run 1 readyMem pendingNode 10 50 []) as [[[m' n'] final]|] eqn:Hrun;
    [|vm_compute in Hrun; discriminate].
  destruct (Hsweep _ _ _ _ Hrun) as (_ & _ & Hall).
  assert (Hn : final = 10 /\ Claims n' = [0%nat]).
  { vm_compute in Hrun. injection Hrun as _ <- <-. by split. }
  destruct Hn as [-> Hn]. split; [done|]. split; [done|].
  destruct (Hall 0%nat) as (_ & _ & _ & Hact & _).
  { left. rewrite Hn. apply list_elem_of_singleton. reflexivity. }
  apply Hact; vm_compute; congruence.
Defined.

(** On the empty node, with maxHeight the largest int32, the loop of
    AdjustTo never exits: NextUpdate() stays at its default, which is not
    above maxHeight. *)
Lemma AdjustTo_loop_empty fuel :
  forall t height, AdjustTo_loop fuel pendingMem (mkNode None t [] []) height MaxInt32 [] = None.
Proof.
  induction fuel as [|fuel IH]; intros t height; [reflexivity|].
  change (AdjustTo_loop (S fuel) pendingMem (mkNode None t [] []) height MaxInt32 [])
    with (AdjustTo_loop fuel pendingMem (mkNode None MaxInt32 [] []) MaxInt32 MaxInt32 []).
  apply IH.
Qed.

Lemma C10_counterexample :
  ~ exists fuel m' n' final, AdjustTo_run fuel pendingMem node.New 0 MaxInt32 [] = Some (m', n', final).
Proof.
  intros (fuel & m' & n' & final & Hrun).
  change (AdjustTo_run fuel pendingMem node.New 0 MaxInt32 [])
    with (AdjustTo_loop fuel pendingMem (mkNode None 0 [] []) 0 MaxInt32 []) in Hrun.
  by rewrite AdjustTo_loop_empty in Hrun.
Qed.

Lemma C10_witness :
  400 < MaxInt32
  /\ (exists fuel m' n' final,
        AdjustTo_run fuel pendingMem pendingNode 10 400 [] = Some (m', n', final))
  /\ 0 < (node.handleExpiredAndActivated expiration pendingMem pendingNode
            (node.NextUpdate expiration pendingMem pendingNode)).2.
Proof.
  pose proof (C10_adjust_to_terminates_below_max maxRemovalWorkaroundHeight noWorkarounds
                expiration 400 [] eq_refl) as [Hterm Hstep].
  split; [reflexivity|]. split; [apply Hterm|].
  destruct (Hstep pendingMem pendingNode) as (_ & Hchanges & _); [by vm_compute|].
  exact Hchanges.
Defined.

End Concrete.

(** *** The order on out points and [findBestClaim] *)

Lemma byte_to_N_inj x y : Byte.to_N x = Byte.to_N y -> x = y.
Proof.
  intros H. pose proof (Byte.of_to_N x) as Hx. rewrite H, Byte.of_to_N in Hx. congruence.
Qed.

Lemma bytesCompare_Eq a : forall b, bytesCompare a b = Eq <-> a = b.
Proof.
  induction a as [|x a IH]; intros [|y b]; simpl; try (split; congruence).
  destruct (N.compare_spec (Byte.to_N x) (Byte.to_N y)) as [Hxy|Hxy|Hxy].
  - apply byte_to_N_inj in Hxy as ->. rewrite IH. split; congruence.
  - split; [done|]. intros [= -> _]. lia.
  - split; [done|]. intros [= -> _]. lia.
Qed.

Lemma bytesCompare_antisym a : forall b, bytesCompare b a = CompOpp (bytesCompare a b).
Proof.
  induction a as [|x a IH]; intros [|y b]; simpl; try done.
  rewrite (N.compare_antisym (Byte.to_N x) (Byte.to_N y)).
  destruct (Byte.to_N x ?= Byte.to_N y)%N; simpl; auto.
Qed.

Lemma bytesCompare_Lt_trans a : forall b c,
  bytesCompare a b = Lt -> bytesCompare b c = Lt -> bytesCompare a c = Lt.
Proof.
  induction a as [|x a IH]; intros [|y b] [|z c]; simpl; try done.
  destruct (N.compare_spec (Byte.to_N x) (Byte.to_N y)) as [Hxy|Hxy|Hxy]; [| |done];
    destruct (N.compare_spec (Byte.to_N y) (Byte.to_N z)) as [Hyz|Hyz|Hyz]; try done; intros H1 H2.
  - rewrite Hxy, Hyz, N.compare_refl. by eapply IH.
  - rewrite Hxy. by apply N.compare_lt_iff in Hyz as ->.
  - rewrite <- Hyz. by apply N.compare_lt_iff in Hxy as ->.
  - assert (Byte.to_N x < Byte.to_N z)%N as Hxz by lia. by apply N.compare_lt_iff in Hxz as ->.
Qed.

Lemma OutPointLess_irrefl a : OutPointLess a a = false.
Proof.
  unfold OutPointLess. rewrite (proj2 (bytesCompare_Eq (Hash a) (Hash a)) eq_refl).
  apply Z.ltb_irrefl.
Qed.

Lemma OutPointLess_trans a b c :
  OutPointLess a b = true -> OutPointLess b c = true -> OutPointLess a c = true.
Proof.
  unfold OutPointLess.
  destruct (bytesCompare (Hash a) (Hash b)) eqn:Hab; [| |done];
    destruct (bytesCompare (Hash b) (Hash c)) eqn:Hbc; try done; intros H1 H2.
  - apply bytesCompare_Eq in Hab, Hbc. rewrite Hab, Hbc.
    rewrite (proj2 (bytesCompare_Eq (Hash c) (Hash c)) eq_refl).
    apply Z.ltb_lt in H1, H2. apply Z.ltb_lt. lia.
  - apply bytesCompare_Eq in Hab. by rewrite Hab, Hbc.
  - apply bytesCompare_Eq in Hbc. by rewrite <- Hbc, Hab.
  - by rewrite (bytesCompare_Lt_trans _ _ _ Hab Hbc).
Qed.

Lemma OutPointLess_total a b :
  OutPointLess a b = false -> OutPointLess b a = false -> a = b.
Proof.
  unfold OutPointLess. rewrite (bytesCompare_antisym (Hash a) (Hash b)).
  destruct (bytesCompare (Hash a) (Hash b)) eqn:Hab; simpl; try done.
  apply bytesCompare_Eq in Hab. intros H1%Z.ltb_ge H2%Z.ltb_ge.
  destruct a, b; simpl in *. f_equal; [done|lia].
Qed.

Lemma better_irrefl m supports c : ~ better m supports c c.
Proof.
  unfold better. intros [?|(_ & [?|(_ & H)])]; [lia|lia|].
  by rewrite OutPointLess_irrefl in H.
Qed.

Lemma better_trans m supports a b c :
  better m supports a b -> better m supports b c -> better m supports a c.
Proof.
  unfold better. cbv zeta.
  intros [?|(? & [?|(? & H1)])] [?|(? & [?|(? & H2)])]; try (left; lia);
    right; (split; [lia|]); try (left; lia).
  right. split; [lia|]. by eapply OutPointLess_trans.
Qed.

(** Two claims neither of which wins over the other agree on the three keys. *)
Lemma better_total m supports c b :
  ~ better m supports c b -> ~ better m supports b c ->
  EffectiveAmount m c supports = EffectiveAmount m b supports
  /\ AcceptedAt (m c) = AcceptedAt (m b)
  /\ cOutPoint (m c) = cOutPoint (m b).
Proof.
  unfold better. cbv zeta. intros H1 H2.
  assert (He : EffectiveAmount m c supports = EffectiveAmount m b supports).
  { destruct (Z.lt_trichotomy (EffectiveAmount m c supports) (EffectiveAmount m b supports))
      as [?|[?|?]]; [|done|]; [destruct H2|destruct H1]; left; lia. }
  assert (Ha : AcceptedAt (m c) = AcceptedAt (m b)).
  { destruct (Z.lt_trichotomy (AcceptedAt (m c)) (AcceptedAt (m b)))
      as [?|[?|?]]; [|done|]; [destruct H1|destruct H2]; right; (split; [done|]); left; lia. }
  split_and!; [done|done|]. apply OutPointLess_total.
  - destruct (OutPointLess (cOutPoint (m c)) (cOutPoint (m b))) eqn:Hlt; [|done].
    destruct H1. right. split; [done|]. by right.
  - destruct (OutPointLess (cOutPoint (m b)) (cOutPoint (m c))) eqn:Hlt; [|done].
    destruct H2. right. split; [done|]. by right.
Qed.

(** The [switch] of [findBestClaim] replaces [best] exactly when the
    candidate wins over it; the cached [bestAmount] is the effective amount of
    [best] whenever it is positive. *)
Lemma bestStep_Activated m supports b bestAmount candidate :
  Status_ (m candidate) = Activated ->
  bestAmount <= 0 \/ bestAmount = EffectiveAmount m b supports ->
  bestStep m supports (Some b, bestAmount) candidate =
  if decide (better m supports candidate b)
  then (Some candidate, EffectiveAmount m candidate supports)
  else (Some b, EffectiveAmount m b supports).
Proof.
  intros Hs Hba. unfold bestStep. rewrite bool_decide_eq_true_2 by done. cbn [negb].
  assert (Hba' : (if bestAmount <=? 0 then EffectiveAmount m b supports else bestAmount)
                 = EffectiveAmount m b supports).
  { destruct (bestAmount <=? 0) eqn:Hle; [done|]. apply Z.leb_gt in Hle. lia. }
  rewrite Hba'.
  assert (Hyes : better m supports candidate b ->
                 (if decide (better m supports candidate b)
                  then (Some candidate, EffectiveAmount m candidate supports)
                  else (Some b, EffectiveAmount m b supports))
                 = (Some candidate, EffectiveAmount m candidate supports))
    by (intros; by rewrite decide_True).
  assert (Hno : ~ better m supports candidate b ->
                 (if decide (better m supports candidate b)
                  then (Some candidate, EffectiveAmount m candidate supports)
                  else (Some b, EffectiveAmount m b supports))
                 = (Some b, EffectiveAmount m b supports))
    by (intros; by rewrite decide_False).
  destruct (EffectiveAmount m candidate supports >? EffectiveAmount m b supports) eqn:H1;
    rewrite Z.gtb_ltb in H1; [apply Z.ltb_lt in H1|apply Z.ltb_ge in H1].
  { rewrite Hyes; [done|]. unfold better; cbv zeta. left. lia. }
  destruct (EffectiveAmount m candidate supports <? EffectiveAmount m b supports) eqn:H2;
    [apply Z.ltb_lt in H2|apply Z.ltb_ge in H2].
  { rewrite Hno; [done|]. unfold better; cbv zeta. intros [?|[? _]]; lia. }
  destruct (AcceptedAt (m candidate) <? AcceptedAt (m b)) eqn:H3;
    [apply Z.ltb_lt in H3|apply Z.ltb_ge in H3].
  { rewrite Hyes; [done|]. unfold better; cbv zeta. right. split; [lia|]. left. lia. }
  destruct (AcceptedAt (m candidate) >? AcceptedAt (m b)) eqn:H4; rewrite Z.gtb_ltb in H4;
    [apply Z.ltb_lt in H4|apply Z.ltb_ge in H4].
  { rewrite Hno; [done|]. unfold better; cbv zeta. intros [?|(_ & [?|(? & _)])]; lia. }
  destruct (OutPointLess (cOutPoint (m candidate)) (cOutPoint (m b))) eqn:H5.
  - rewrite Hyes; [done|]. unfold better; cbv zeta. right. split; [lia|]. right. split; [lia|done].
  - rewrite Hno; [done|]. unfold better; cbv zeta. intros [?|(_ & [?|(_ & ?)])]; [lia|lia|congruence].
Qed.

Lemma bestStep_bestOf m supports seen st x :
  bestOf m supports seen st -> bestOf m supports (seen ++ [x]) (bestStep m supports st x).
Proof.
  destruct st as [best ba]. unfold bestOf. cbn [fst snd].
  destruct (decide (Status_ (m x) = Activated)) as [Hx|Hx].
  2:{ unfold bestStep. rewrite bool_decide_eq_false_2 by done. cbn [negb fst snd].
      destruct best as [b|].
      - intros (Hin & Hs & Hba & Hmax). split_and!; [apply elem_of_app; by left|done|done|].
        intros c [?|Hc%list_elem_of_singleton]%elem_of_app ?; [by apply Hmax|by subst].
      - intros [Hba Hnone]. split; [done|].
        intros c [?|Hc%list_elem_of_singleton]%elem_of_app; [by apply Hnone|by subst]. }
  destruct best as [b|].
  - intros (Hin & Hs & Hba & Hmax). rewrite bestStep_Activated by done.
    destruct (decide (better m supports x b)) as [Hb|Hb]; cbn [fst snd].
    + split_and!; [apply elem_of_app; right; by apply list_elem_of_singleton|done|by right|].
      intros c [Hc|Hc%list_elem_of_singleton]%elem_of_app Hcs; [|subst; apply better_irrefl].
      intros Hcx. apply (Hmax c Hc Hcs). by eapply better_trans.
    + split_and!; [apply elem_of_app; by left|done|by right|].
      intros c [?|Hc%list_elem_of_singleton]%elem_of_app ?; [by apply Hmax|by subst].
  - intros [Hba Hnone]. unfold bestStep. rewrite bool_decide_eq_true_2 by done.
    cbn [negb fst snd].
    split_and!; [apply elem_of_app; right; by apply list_elem_of_singleton|done|by left|].
    intros c [Hc|Hc%list_elem_of_singleton]%elem_of_app Hcs; [|subst; apply better_irrefl].
    by destruct (Hnone c Hc).
Qed.

Lemma fold_bestStep_bestOf m supports (l : ClaimList) :
  forall seen st, bestOf m supports seen st ->
    bestOf m supports (seen ++ l) (fold_left (bestStep m supports) l st).
Proof.
  induction l as [|x l IH]; intros seen st Hst; simpl.
  - by rewrite app_nil_r.
  - replace (seen ++ x :: l) with ((seen ++ [x]) ++ l) by by rewrite <- app_assoc.
    apply IH. by apply bestStep_bestOf.
Qed.

Lemma findBestClaim_bestOf m n :
  bestOf m (Supports n) (Claims n)
    (fold_left (bestStep m (Supports n)) (Claims n) (None, 0)).
Proof.
  apply (fold_bestStep_bestOf m (Supports n) (Claims n) [] (None, 0)).
  split; [done|]. intros c Hc. by apply elem_of_nil in Hc.
Qed.

Lemma findBestClaim_None m n :
  findBestClaim m n = None <-> forall c, c ∈ Claims n -> Status_ (m c) <> Activated.
Proof.
  unfold findBestClaim. pose proof (findBestClaim_bestOf m n) as H. unfold bestOf in H.
  destruct (fold_left _ _ _).1 as [b|]; cbn [fst].
  - split; [done|]. intros Hnone. destruct H as (Hin & Hs & _). by destruct (Hnone b Hin).
  - split; [|done]. intros _. apply H.
Qed.

Lemma findBestClaim_Some m n b :
  findBestClaim m n = Some b ->
  b ∈ Claims n /\ Status_ (m b) = Activated
  /\ forall c, c ∈ Claims n -> Status_ (m c) = Activated -> ~ better m (Supports n) c b.
Proof.
  unfold findBestClaim. pose proof (findBestClaim_bestOf m n) as H. unfold bestOf in H.
  destruct (fold_left _ _ _).1 as [b'|]; cbn [fst]; [|done].
  intros [= ->]. destruct H as (? & ? & _ & ?). done.
Qed.

(** C3 (as amended). findBestClaim returns nothing exactly when no claim
    is Activated; otherwise it returns an Activated claim of the list over
    which no Activated claim of the list wins under the order: larger
    effective amount, then earlier accepted_at, then smaller out point.
    When no two distinct Activated claims of the list share their out point
    the order is strict and total on them: the claim returned wins over
    every other Activated claim, and it stays the same under every
    permutation of the list; in particular, of two Activated claims with
    equal effective amounts and equal accepted_at, the one with the smaller
    out point is returned, in either insertion order. *)
Theorem C3_find_best_claim_is_maximum (m : Mem) (n : Node) :
  (findBestClaim m n = None <-> forall c, c ∈ Claims n -> Status_ (m c) <> Activated)
  /\ (forall b, findBestClaim m n = Some b ->
        b ∈ Claims n /\ Status_ (m b) = Activated
        /\ forall c, c ∈ Claims n -> Status_ (m c) = Activated -> ~ better m (Supports n) c b)
  /\ ((forall c c', c ∈ Claims n -> c' ∈ Claims n ->
         Status_ (m c) = Activated -> Status_ (m c') = Activated ->
         cOutPoint (m c) = cOutPoint (m c') -> c = c') ->
      (forall b, findBestClaim m n = Some b ->
         forall c, c ∈ Claims n -> Status_ (m c) = Activated -> c <> b ->
           better m (Supports n) b c)
      /\ (forall claims', claims' ≡ₚ Claims n ->
            findBestClaim m (mkNode (BestClaim n) (TakenOverAt n) claims' (Supports n))
            = findBestClaim m n))
  /\ (forall a b,
        Status_ (m a) = Activated -> Status_ (m b) = Activated ->
        EffectiveAmount m a (Supports n) = EffectiveAmount m b (Supports n) ->
        AcceptedAt (m a) = AcceptedAt (m b) ->
        OutPointLess (cOutPoint (m a)) (cOutPoint (m b)) = true ->
        Claims n = [a; b] \/ Claims n = [b; a] ->
        findBestClaim m n = Some a).
Proof.
  split_and!.
  - apply findBestClaim_None.
  - apply findBestClaim_Some.
  - intros Hdistinct.
    assert (Hstrict : forall c c', c ∈ Claims n -> c' ∈ Claims n ->
              Status_ (m c) = Activated -> Status_ (m c') = Activated ->
              ~ better m (Supports n) c c' -> c <> c' -> better m (Supports n) c' c).
    { intros c c' Hc Hc' Hs Hs' Hnb Hne.
      destruct (decide (better m (Supports n) c' c)) as [|Hnb']; [done|].
      destruct Hne. apply Hdistinct; try done.
      by apply (better_total m (Supports n) c c'). }
    split.
    + intros b Hb c Hc Hs Hne. apply findBestClaim_Some in Hb as (Hin & Hbs & Hmax).
      apply Hstrict; auto.
    + intros claims' Hperm.
      set (n' := mkNode (BestClaim n) (TakenOverAt n) claims' (Supports n)).
      destruct (findBestClaim m n) as [b|] eqn:Hb.
      * destruct (findBestClaim m n') as [b'|] eqn:Hb'.
        -- apply findBestClaim_Some in Hb as (Hin & Hbs & Hmax).
           apply (findBestClaim_Some m n') in Hb' as (Hin' & Hbs' & Hmax').
           cbn [Claims Supports n'] in *.
           rewrite Hperm in Hin'. f_equal.
           destruct (decide (b' = b)) as [|Hne]; [done|].
           destruct (Hmax' b); [by rewrite Hperm|done|]. apply Hstrict; auto.
        -- apply findBestClaim_Some in Hb as (Hin & Hbs & _).
           pose proof (proj1 (findBestClaim_None m n') Hb') as Hnone'. cbn [Claims n'] in Hnone'.
           destruct (Hnone' b); [by rewrite Hperm|done].
      * apply (proj2 (findBestClaim_None m n')). cbn [Claims n']. intros c Hc.
        rewrite Hperm in Hc. by apply (proj1 (findBestClaim_None m n) Hb).
  - intros a b Ha Hb Heff Hacc Hlt Hclaims.
    assert (Hab : better m (Supports n) a b).
    { right. split; [done|]. right. by split. }
    assert (Hina : a ∈ Claims n).
    { destruct Hclaims as [-> | ->]; [by left|right; by left]. }
    destruct (findBestClaim m n) as [x|] eqn:Hx.
    + apply findBestClaim_Some in Hx as (Hin & _ & Hmax). f_equal.
      assert (x = a \/ x = b) as [->| ->]; [|done|by destruct (Hmax a Hina Ha)].
      destruct Hclaims as [Hc|Hc]; rewrite Hc in Hin;
        apply elem_of_cons in Hin as [?|Hin]; auto;
        apply list_elem_of_singleton in Hin; auto.
    + pose proof (proj1 (findBestClaim_None m n) Hx) as Hnone. by destruct (Hnone a Hina).
Qed.

(** Two distinct Activated claims with the same out point, accepted_at and
    effective amount: whichever comes first in the list is returned. *)
Lemma C3_counterexample :
  [1%nat; 0%nat] ≡ₚ [0%nat; 1%nat]
  /\ Status_ (scenario.tiedMem 0%nat) = Activated /\ Status_ (scenario.tiedMem 1%nat) = Activated
  /\ findBestClaim scenario.tiedMem (mkNode None 0 [0%nat; 1%nat] []) = Some 0%nat
  /\ findBestClaim scenario.tiedMem (mkNode None 0 [1%nat; 0%nat] []) = Some 1%nat
  /\ ClaimID (scenario.tiedMem 0%nat) <> ClaimID (scenario.tiedMem 1%nat).
Proof.
  split; [apply Permutation_swap|]. split_and!; [by vm_compute..|].
  vm_compute. discriminate.
Qed.

Lemma C3_witness :
  findBestClaim scenario.orderedMem (mkNode None 0 [1%nat; 0%nat] []) = Some 0%nat
  /\ findBestClaim scenario.orderedMem (mkNode None 0 [1%nat; 0%nat] [])
     = findBestClaim scenario.orderedMem (mkNode None 0 [0%nat; 1%nat] []).
Proof.
  pose proof (C3_find_best_claim_is_maximum scenario.orderedMem (mkNode None 0 [0%nat; 1%nat] []))
    as (_ & _ & Hperm & _).
  pose proof (C3_find_best_claim_is_maximum scenario.orderedMem (mkNode None 0 [1%nat; 0%nat] []))
    as (_ & _ & _ & Hpair).
  split.
  - apply (Hpair 0%nat 1%nat); try reflexivity. by right.
  - destruct Hperm as [_ Hperm].
    + intros c c' Hc Hc' _ _.
      apply list_elem_of_In in Hc, Hc'. simpl in Hc, Hc'.
      destruct Hc as [<-|[<-|[]]], Hc' as [<-|[<-|[]]]; vm_compute; congruence.
    + apply (Hperm [1%nat; 0%nat]). apply Permutation_swap.
Defined.

(** *** The sweep, exactly *)
Section SweepExact.

Variable ExpirationFor : Z -> Z.
#[local] Abbreviation ExpireAt := (node.ExpireAt ExpirationFor).
#[local] Abbreviation settled := (node.settled ExpirationFor).
#[local] Abbreviation stays := (node.stays ExpirationFor).
#[local] Abbreviation swept := (node.swept ExpirationFor).
#[local] Abbreviation update_loop := (node.update_loop ExpirationFor).
#[local] Abbreviation update := (node.update ExpirationFor).
#[local] Abbreviation handleExpiredAndActivated := (node.handleExpiredAndActivated ExpirationFor).
#[local] Abbreviation NextUpdate := (node.NextUpdate ExpirationFor).

Lemma stays_evolves h m m' l : evolves m m' -> stays h (m' l) <-> stays h (m l).
Proof.
  intros H. unfold node.stays, node.ExpireAt.
  destruct (H l) as [->|(Hs & a & _ & ->)]; [done|]. cbn. rewrite Hs. split; intros [? _]; by split.
Qed.

Lemma swept_evolves h m m' (items : ClaimList) :
  evolves m m' -> swept h m' items = swept h m items.
Proof. intros H. apply list_filter_iff. intros x. by apply stays_evolves. Qed.

(** The slice after a removal at index [k]: the entries before [k] are in
    place, the entries from [k] on are those that followed [k]. *)
Lemma cut_perm (items : ClaimList) (k : nat) (moved : bool) :
  (k < length items)%nat ->
  (moved = true <-> (k < length items - 1)%nat) ->
  let items1 := if moved then match last items with
                              | Some e => <[k := e]> items
                              | None => items
                              end
                else items in
  let items2 := take (length items1 - 1) items1 in
  drop k items2 ≡ₚ drop (S k) items.
Proof.
  intros Hk Hmoved items1 items2.
  destruct (lookup_lt_is_Some_2 items k Hk) as [c Hc].
  pose proof (take_drop_middle items k c Hc) as Hsplit.
  assert (Hpre : length (take k items) = k) by (rewrite length_take; lia).
  destruct moved.
  - assert (Hlt : (k < length items - 1)%nat) by by apply Hmoved.
    destruct (drop (S k) items) as [|z rest0 _] eqn:Hrest using rev_ind.
    { rewrite <- Hsplit in Hlt. rewrite length_app in Hlt. cbn in Hlt. lia. }
    rename rest0 into mid.
    assert (Hlast : last items = Some z).
    { rewrite <- Hsplit. rewrite app_comm_cons, app_assoc. apply last_snoc. }
    unfold items2, items1. rewrite Hlast. rewrite length_insert.
    rewrite <- Hsplit at 2.
    rewrite insert_app_r_alt by lia. rewrite Hpre, Nat.sub_diag. cbn [insert list_insert].
    replace (length items - 1)%nat with (length (take k items ++ z :: mid)).
    2:{ rewrite <- Hsplit at 2. rewrite !length_app. cbn. rewrite length_app. cbn. lia. }
    rewrite (app_comm_cons mid [z] z), app_assoc. rewrite take_app_length.
    rewrite drop_app_length' by done.
    apply Permutation_cons_append.
  - assert (Hlast : k = (length items - 1)%nat).
    { destruct (decide (k < length items - 1)%nat) as [Hlt|]; [|lia].
      apply Hmoved in Hlt. discriminate. }
    unfold items2, items1. rewrite <- Hlast.
    rewrite (drop_ge (take k items)) by (rewrite length_take; lia).
    by rewrite (drop_ge items (S k)) by lia.
Qed.

(** The result of the loop from index [i] on: the entries kept, and the
    store with the due entries activated. *)
Lemma update_loop_exact h fuel :
  forall m (items : ClaimList) i changes m' items' changes',
    0 <= i -> Z.of_nat (length items) - i <= Z.of_nat fuel ->
    update_loop fuel h m items i changes = (m', items', changes') ->
    items' ≡ₚ take (Z.to_nat i) items ++ swept h m (drop (Z.to_nat i) items)
    /\ forall l, m' l = if decide (l ∈ drop (Z.to_nat i) items /\ activatable h (m l))
                        then withStatus (m l) Activated else m l.
Proof.
  induction fuel as [|fuel IH]; intros m items i changes m' items' changes' Hi Hfuel Hrun.
  { simpl in Hrun. simplify_eq. rewrite take_ge, drop_ge by lia.
    split; [by rewrite app_nil_r|]. intros l. rewrite decide_False; [done|].
    intros [?%elem_of_nil _]. done. }
  simpl in Hrun. case_bool_decide as Hin.
  2:{ simplify_eq. rewrite take_ge, drop_ge by lia.
      split; [by rewrite app_nil_r|]. intros l. rewrite decide_False; [done|].
      intros [?%elem_of_nil _]. done. }
  destruct (items !! Z.to_nat i) as [c|] eqn:Hc.
  2:{ apply lookup_ge_None in Hc. lia. }
  set (activate := bool_decide (Status_ (m c) = Accepted) && (ActiveAt (m c) <=? h)
                   && (VisibleAt (m c) <=? h)) in Hrun.
  set (m1 := if activate then setStatus m c Activated else m) in Hrun.
  set (changes1 := if activate then changes + 1 else changes) in Hrun.
  assert (Hact : activate = true <-> activatable h (m c)).
  { unfold activate, activatable. rewrite !andb_true_iff, bool_decide_eq_true, !Z.leb_le. tauto. }
  assert (Hm1 : forall l, m1 l = if decide (l = c /\ activatable h (m l))
                                 then withStatus (m l) Activated else m l).
  { intros l. unfold m1. destruct (decide (activatable h (m c))) as [Ha|Hna].
    - rewrite (proj2 Hact Ha). destruct (decide (l = c)) as [->|Hne].
      + rewrite setStatus_same. by rewrite decide_True.
      + rewrite setStatus_other by done. rewrite decide_False; [done|]. by intros [? _].
    - assert (activate = false) as -> by (destruct activate; [by destruct Hna; apply Hact|done]).
      rewrite decide_False; [done|]. by intros [-> Hl]. }
  assert (Hev1 : evolves m m1).
  { unfold m1. destruct (decide (activatable h (m c))) as [Ha|Hna].
    - rewrite (proj2 Hact Ha). apply evolves_setStatus_Activated. apply Ha.
    - assert (activate = false) as -> by (destruct activate; [by destruct Hna; apply Hact|done]).
      apply evolves_refl. }
  assert (Hna1 : forall l, l = c -> ~ activatable h (m1 l) \/ ~ activatable h (m l)).
  { intros l ->. destruct (decide (activatable h (m c))) as [Ha|]; [|by right].
    left. rewrite Hm1, decide_True by done. intros [? _]. discriminate. }
  assert (Hdrop : drop (Z.to_nat i) items = c :: drop (S (Z.to_nat i)) items)
    by by apply drop_S.
  assert (Hcombine : forall (rest : ClaimList),
            (forall l, l ∈ rest <-> l ∈ drop (S (Z.to_nat i)) items) ->
            (forall l, m' l = if decide (l ∈ rest /\ activatable h (m1 l))
                              then withStatus (m1 l) Activated else m1 l) ->
            forall l, m' l = if decide (l ∈ drop (Z.to_nat i) items /\ activatable h (m l))
                             then withStatus (m l) Activated else m l).
  { intros rest Hrest Hm' l. rewrite Hm', Hdrop. clear Hm'.
    destruct (decide (l = c)) as [->|Hne].
    - destruct (decide (activatable h (m c))) as [Ha|Hna].
      + rewrite (decide_True (P := c ∈ c :: _ /\ _)) by (split; [by left|done]).
        assert (Hm1c : m1 c = withStatus (m c) Activated) by (by rewrite Hm1, decide_True).
        rewrite decide_False; [done|]. rewrite Hm1c. intros [_ [? _]]. discriminate.
      + assert (Hm1c : m1 c = m c) by (rewrite Hm1, decide_False; [done|by intros [_ ?]]).
        rewrite Hm1c. rewrite !decide_False; [done|by intros [_ ?]|by intros [_ ?]].
    - assert (Hm1l : m1 l = m l) by (rewrite Hm1, decide_False; [done|by intros [? _]]).
      rewrite Hm1l.
      destruct (decide (l ∈ rest /\ activatable h (m l))) as [[Hl Ha]|Hn].
      + rewrite decide_True; [done|]. split; [right; by apply Hrest|done].
      + rewrite decide_False; [done|]. intros [[?|Hl]%elem_of_cons Ha]; [done|].
        apply Hn. split; [by apply Hrest|done]. }
  clearbody m1 changes1. clear activate Hact.
  destruct ((ExpireAt (m1 c) <=? h) || bool_decide (Status_ (m1 c) = Deactivated)) eqn:Hrem.
  - (* the entry is removed *)
    assert (Hgone : ~ stays h (m c)).
    { rewrite <- (stays_evolves h m m1 c Hev1). unfold node.stays.
      apply orb_true_iff in Hrem as [He|Hd].
      - apply Z.leb_le in He. intros [? _]. fold (ExpireAt (m1 c)) in *. lia.
      - apply bool_decide_eq_true in Hd. by intros [_ ?]. }
    set (moved := i <? Z.of_nat (length items) - 1) in Hrun.
    assert (Hmoved : moved = true <-> (Z.to_nat i < length items - 1)%nat).
    { unfold moved. rewrite Z.ltb_lt. lia. }
    destruct (cut_props items (Z.to_nat i) moved) as (Hlen & Htake & _); [lia|done|].
    pose proof (cut_perm items (Z.to_nat i) moved ltac:(lia) Hmoved) as Hperm.
    cbv zeta in Hrun, Hlen, Htake, Hperm.
    set (items2 := take _ (if moved then _ else _)) in *.
    set (i2 := (if moved then i - 1 else i) + 1) in *.
    assert (Hi2 : take (Z.to_nat i2) items2 = take (Z.to_nat i) items
                  /\ drop (Z.to_nat i2) items2 ≡ₚ drop (S (Z.to_nat i)) items).
    { unfold i2. destruct moved.
      - replace (i - 1 + 1) with i by lia. done.
      - assert (Z.to_nat i = (length items - 1)%nat).
        { destruct (decide (Z.to_nat i < length items - 1)%nat) as [Hlt|]; [|lia].
          apply Hmoved in Hlt. discriminate. }
        rewrite <- Htake, <- Hperm.
        rewrite !take_ge, !drop_ge by lia. done. }
    destruct Hi2 as [Htake2 Hdrop2].
    apply IH in Hrun as [Hitems Hmem].
    + split.
      * rewrite Hitems, Htake2. rewrite (swept_evolves h m m1) by done.
        unfold node.swept. rewrite Hdrop2, Hdrop.
        by rewrite (filter_cons_False _ c) by done.
      * apply (Hcombine (drop (Z.to_nat i2) items2)); [|done].
        intros l. by rewrite Hdrop2.
    + unfold i2. destruct moved; lia.
    + rewrite Hlen. unfold i2. destruct moved; [|lia].
      pose proof (proj1 Hmoved eq_refl). lia.
  - (* the entry stays *)
    assert (Hkeep : stays h (m c)).
    { rewrite <- (stays_evolves h m m1 c Hev1). unfold node.stays.
      apply orb_false_elim in Hrem as [He Hd].
      apply Z.leb_gt in He. apply bool_decide_eq_false in Hd. by split. }
    apply IH in Hrun as [Hitems Hmem]; [|lia|lia].
    replace (Z.to_nat (i + 1)) with (S (Z.to_nat i)) in * by lia. split.
    + rewrite Hitems, Hdrop. rewrite (take_S_r _ _ c) by done.
      rewrite (swept_evolves h m m1) by done.
      unfold node.swept. rewrite (filter_cons_True _ c) by done.
      by rewrite <- app_assoc.
    + by apply (Hcombine (drop (S (Z.to_nat i)) items)).
Qed.

Lemma update_exact h m (items : ClaimList) changes m' items' changes' :
  update h m items changes = (m', items', changes') ->
  items' ≡ₚ swept h m items
  /\ forall l, m' l = if decide (l ∈ items /\ activatable h (m l))
                      then withStatus (m l) Activated else m l.
Proof.
  intros Hrun. apply update_loop_exact in Hrun; [|lia|lia].
  change (Z.to_nat 0) with 0%nat in Hrun.
  change (drop 0 items) with items in Hrun. by change (take 0 items) with (@nil loc) in Hrun.
Qed.

(** On entries that are all settled the loop changes nothing. *)
Lemma update_loop_settled h fuel :
  forall m (items : ClaimList) i changes,
    0 <= i ->
    Forall (fun x => settled h (m x)) (drop (Z.to_nat i) items) ->
    update_loop fuel h m items i changes = (m, items, changes).
Proof.
  induction fuel as [|fuel IH]; intros m items i changes Hi Hset; [done|].
  simpl. case_bool_decide as Hin; [|done].
  destruct (items !! Z.to_nat i) as [c|] eqn:Hc; [|done].
  rewrite (drop_S _ c) in Hset by done. inversion Hset as [|? ? Hcset Hrest]; subst.
  destruct Hcset as (Hd & He & Hna).
  assert (Hact : bool_decide (Status_ (m c) = Accepted) && (ActiveAt (m c) <=? h)
                 && (VisibleAt (m c) <=? h) = false).
  { destruct (_ && _ && _) eqn:Ha; [|done]. destruct Hna.
    apply andb_prop in Ha as [[Hs Ha]%andb_prop Hv]. apply bool_decide_eq_true in Hs.
    apply Z.leb_le in Ha, Hv. by split_and!. }
  rewrite Hact. fold (ExpireAt (m c)).
  rewrite (proj2 (Z.leb_gt _ _) He), bool_decide_eq_false_2 by done. cbn [orb].
  apply IH; [lia|]. by replace (Z.to_nat (i + 1)) with (S (Z.to_nat i)) by lia.
Qed.

(** X1. handleExpiredAndActivated keeps exactly the entries that have not
    expired at the height and are not Deactivated, each as often as it
    occurred (the order may change); it sets to Activated exactly the
    entries that were Accepted with active_at and visible_at at or below
    the height, and changes no other field of any claim; BestClaim and
    TakenOverAt are not touched. *)
Theorem X1_sweep_keeps_exactly_the_live_entries (m : Mem) (n : Node) (h : Z) :
  let r := handleExpiredAndActivated m n h in
  Claims r.1.2 ≡ₚ swept h m (Claims n)
  /\ Supports r.1.2 ≡ₚ swept h m (Supports n)
  /\ (forall l, r.1.1 l = if decide (l ∈ entries n /\ activatable h (m l))
                         then withStatus (m l) Activated else m l)
  /\ BestClaim r.1.2 = BestClaim n /\ TakenOverAt r.1.2 = TakenOverAt n.
Proof.
  unfold node.handleExpiredAndActivated.
  destruct (update h m (Claims n) 0) as [[m1 claims] ch1] eqn:H1.
  destruct (update h m1 (Supports n) ch1) as [[m2 supports] ch2] eqn:H2.
  cbn [fst snd Claims Supports BestClaim TakenOverAt].
  pose proof (update_spec ExpirationFor _ _ _ _ _ _ _ H1) as (Hev1 & _).
  apply update_exact in H1 as [Hc Hm1].
  apply update_exact in H2 as [Hs Hm2].
  split_and!; [done| |  |done|done].
  - by rewrite Hs, (swept_evolves h m m1).
  - intros l. rewrite Hm2. pose proof (Hm1 l) as H1l. unfold entries.
    destruct (decide (l ∈ Claims n /\ activatable h (m l))) as [[Hl Ha]|Hn]; rewrite H1l.
    + rewrite decide_False by (intros [_ [? _]]; discriminate).
      rewrite decide_True; [done|]. split; [apply elem_of_app; by left|done].
    + destruct (decide (l ∈ Supports n /\ activatable h (m l))) as [[Hl Ha]|Hn'].
      * rewrite decide_True; [done|]. split; [apply elem_of_app; by right|done].
      * rewrite decide_False; [done|]. intros [[?|?]%elem_of_app ?]; [by apply Hn|by apply Hn'].
Qed.

(** X2. handleExpiredAndActivated returns 0 exactly when every entry is
    already settled at the height (not Deactivated, not expired, not due
    for activation), and then it leaves the store and the node as they
    are; it never returns a negative number. *)
Theorem X2_sweep_reports_no_change_iff_settled (m : Mem) (n : Node) (h : Z) :
  0 <= (handleExpiredAndActivated m n h).2
  /\ ((handleExpiredAndActivated m n h).2 = 0
      <-> Forall (fun x => settled h (m x)) (entries n))
  /\ ((handleExpiredAndActivated m n h).2 = 0 -> handleExpiredAndActivated m n h = (m, n, 0)).
Proof.
  destruct (handleExpiredAndActivated m n h) as [[m' n'] ch] eqn:H. cbn [snd].
  pose proof (handle_spec ExpirationFor _ _ _ _ _ _ H) as (_ & Hset & _ & _ & _ & _ & Hch & Hsame).
  split_and!; [done| |].
  - split.
    + intros ->. destruct Hsame as [-> ->]; done.
    + intros Hall. apply Forall_app in Hall as [Hc Hs].
      unfold node.handleExpiredAndActivated, node.update in H.
      rewrite update_loop_settled in H by done.
      rewrite update_loop_settled in H by done. by simplify_eq.
  - intros ->. destruct Hsame as [-> ->]; done.
Qed.

Lemma fold_nextStep_lower m (l : ClaimList) :
  forall next x, x ∈ l ->
    let r := fold_left (node.nextStep ExpirationFor m) l next in
    r <= ExpireAt (m x)
    /\ (Status_ (m x) = Accepted -> r <= Z.max (ActiveAt (m x)) (VisibleAt (m x))).
Proof.
  induction l as [|y l IH]; intros next x Hx; [by apply elem_of_nil in Hx|].
  apply elem_of_cons in Hx as [->|Hx]; [|by apply IH].
  cbn [fold_left].
  pose proof (fold_nextStep_due ExpirationFor m l (node.nextStep ExpirationFor m next y)) as [Hle _].
  cbv zeta in Hle |- *.
  assert (Hstep : node.nextStep ExpirationFor m next y <= ExpireAt (m y)
                  /\ (Status_ (m y) = Accepted ->
                      node.nextStep ExpirationFor m next y
                      <= Z.max (ActiveAt (m y)) (VisibleAt (m y)))).
  { unfold node.nextStep. cbv zeta. fold (ExpireAt (m y)).
    set (mx := if VisibleAt (m y) >? ActiveAt (m y) then VisibleAt (m y) else ActiveAt (m y)).
    assert (Hmx : mx = Z.max (ActiveAt (m y)) (VisibleAt (m y))).
    { unfold mx. destruct (VisibleAt (m y) >? ActiveAt (m y)) eqn:Hv;
        rewrite Z.gtb_ltb in Hv; [apply Z.ltb_lt in Hv|apply Z.ltb_ge in Hv]; lia. }
    clearbody mx.
    set (n1 := if ExpireAt (m y) <? next then ExpireAt (m y) else next).
    assert (Hn1 : n1 <= ExpireAt (m y)).
    { unfold n1. destruct (ExpireAt (m y) <? next) eqn:He; [lia|]. apply Z.ltb_ge in He. lia. }
    clearbody n1. case_bool_decide as Hs; [|by split].
    destruct (mx <? n1) eqn:Hm; [apply Z.ltb_lt in Hm|apply Z.ltb_ge in Hm]; split; lia. }
  destruct Hstep as [H1 H2]. split; [lia|]. intros Hs. specialize (H2 Hs). lia.
Qed.

(** X3. NextUpdate is the smallest of math.MaxInt32, the expiry heights of
    all entries and max(active_at, visible_at) of the Accepted entries: it
    is at most each of them, and it is MaxInt32 or one of them. *)
Theorem X3_next_update_is_the_minimum (m : Mem) (n : Node) :
  NextUpdate m n <= MaxInt32
  /\ (forall x, x ∈ entries n ->
        NextUpdate m n <= ExpireAt (m x)
        /\ (Status_ (m x) = Accepted ->
            NextUpdate m n <= Z.max (ActiveAt (m x)) (VisibleAt (m x))))
  /\ (NextUpdate m n = MaxInt32
      \/ exists x, x ∈ entries n /\ dueAt ExpirationFor (NextUpdate m n) (m x)).
Proof.
  split_and!.
  - apply NextUpdate_le.
  - intros x Hx. unfold node.NextUpdate, entries in *. cbv zeta.
    apply elem_of_app in Hx as [Hx|Hx].
    + pose proof (fold_nextStep_lower m (Claims n) MaxInt32 x Hx) as [H1 H2].
      pose proof (fold_nextStep_due ExpirationFor m (Supports n)
                    (fold_left (node.nextStep ExpirationFor m) (Claims n) MaxInt32)) as [Hle _].
      cbv zeta in *. split; [lia|]. intros Hs. specialize (H2 Hs). lia.
    + by apply fold_nextStep_lower.
  - pose proof (NextUpdate_le ExpirationFor m n).
    destruct (decide (NextUpdate m n = MaxInt32)) as [|Hne]; [by left|].
    right. apply NextUpdate_due. lia.
Qed.

End SweepExact.

(** *** [ApplyChange] on the whole *)
Section ApplyChangeFrame.

Variable NewOutPointFromString : string -> option OutPoint.
#[local] Abbreviation ApplyChange := (node.ApplyChange NewOutPointFromString).

(** X4. Whenever ApplyChange returns, the error is nil, BestClaim and
    TakenOverAt are as before, no entry has left either list (AddClaim
    appends one claim, AddSupport one support, every other change leaves
    both lists as they are), at most one claim of the store has changed,
    and nothing printed or recorded in `mispents` before is lost. *)
Theorem X4_apply_change_frame (w : World) (n : Node) (chg : change.Change) (delay : Z)
    (w' : World) (n' : Node) (err : option string) :
  ApplyChange w n chg delay = Some (w', n', err) ->
  err = None
  /\ BestClaim n' = BestClaim n /\ TakenOverAt n' = TakenOverAt n
  /\ Claims n' = match change.Type_ chg with
                 | change.AddClaim => Claims n ++ [next w]
                 | _ => Claims n
                 end
  /\ Supports n' = match change.Type_ chg with
                   | change.AddSupport => Supports n ++ [next w]
                   | _ => Supports n
                   end
  /\ (exists l, forall l', l' <> l -> mem w' l' = mem w l')
  /\ stdout w `prefix_of` stdout w'
  /\ mispents w ⊆ mispents w'
  /\ (next w <= next w')%nat.
Proof.
  unfold node.ApplyChange. intros Hrun.
  destruct (change.Type_ chg) eqn:Hty.
  - destruct (NewOutPointFromString (change.OutPoint chg)) as [out|]; [|done].
    cbn in Hrun. simplify_eq. cbn.
    split_and!; try done.
    + exists (next w). intros l' Hl'. by apply fn_lookup_insert_ne.
    + by apply prefix_app_r.
    + lia.
  - destruct (NewOutPointFromString (change.OutPoint chg)) as [out|]; [|done].
    cbn in Hrun. destruct (find (mem w) (byOut out) (Claims n)) as [c|].
    + simplify_eq. cbn. split_and!; try done.
      exists c. intros l' Hl'. by apply setStatus_other.
    + case_bool_decide; simplify_eq; cbn; split_and!; try done;
        try (by exists 0%nat); try (by apply prefix_app_r); set_solver.
  - destruct (find (mem w) (byID (change.ClaimID chg)) (Claims n)) as [c|].
    + case_bool_decide.
      * destruct (NewOutPointFromString (change.OutPoint chg)) as [out|]; [|done].
        cbn in Hrun. simplify_eq. cbn. split_and!; try done.
        exists c. intros l' Hl'.
        unfold setActiveAt, setAccepted, setStatus, SetValue, SetAmt, setOutPoint.
        by rewrite !fn_lookup_insert_ne.
      * simplify_eq. cbn. split_and!; try done; [by exists 0%nat|by apply prefix_app_r].
    + simplify_eq. cbn. split_and!; try done; [by exists 0%nat|by apply prefix_app_r].
  - destruct (NewOutPointFromString (change.OutPoint chg)) as [out|]; [|done].
    cbn in Hrun. simplify_eq. cbn.
    split_and!; try done.
    + exists (next w). intros l' Hl'. by apply fn_lookup_insert_ne.
    + lia.
  - destruct (NewOutPointFromString (change.OutPoint chg)) as [out|]; [|done].
    cbn in Hrun. destruct (find (mem w) (byOut out) (Supports n)) as [c|].
    + simplify_eq. cbn. split_and!; try done.
      exists c. intros l' Hl'. by apply setStatus_other.
    + simplify_eq. cbn. split_and!; try done; [by exists 0%nat|by apply prefix_app_r].
  - simplify_eq. split_and!; try done. by exists 0%nat.
Qed.

(** X5. ApplyChange panics exactly when NewOutPointFromString returns nil
    and the change dereferences the out point: an AddClaim, SpendClaim,
    AddSupport or SpendSupport change, or an UpdateClaim change whose first
    claim with the claim id is Deactivated. A change of an unknown type, and
    an UpdateClaim that finds nothing to update, never panic. *)
Theorem X5_apply_change_panics_on_nil_out_point (w : World) (n : Node) (chg : change.Change)
    (delay : Z) :
  ApplyChange w n chg delay = None
  <-> NewOutPointFromString (change.OutPoint chg) = None
      /\ (change.Type_ chg = change.AddClaim \/ change.Type_ chg = change.SpendClaim
          \/ change.Type_ chg = change.AddSupport \/ change.Type_ chg = change.SpendSupport
          \/ (change.Type_ chg = change.UpdateClaim
              /\ exists c, find (mem w) (byID (change.ClaimID chg)) (Claims n) = Some c
                           /\ Status_ (mem w c) = Deactivated)).
Proof.
  unfold node.ApplyChange.
  destruct (change.Type_ chg) eqn:Hty.
  - destruct (NewOutPointFromString (change.OutPoint chg)) as [out|]; cbn.
    + split; [done|]. by intros [? _].
    + split; [|done]. intros _. split; [done|]. by left.
  - destruct (NewOutPointFromString (change.OutPoint chg)) as [out|]; cbn.
    + split; [|by intros [? _]].
      destruct (find _ _ _); [done|]. by case_bool_decide.
    + split; [|done]. intros _. split; [done|]. right. by left.
  - destruct (find (mem w) (byID (change.ClaimID chg)) (Claims n)) as [c|].
    + case_bool_decide as Hs.
      * destruct (NewOutPointFromString (change.OutPoint chg)) as [out|]; cbn.
        -- split; [done|]. by intros [? _].
        -- split; [|done]. intros _. split; [done|]. do 4 right. split; [done|]. by exists c.
      * split; [done|]. intros [_ [?|[?|[?|[?|[_ (c' & [= <-] & ?)]]]]]]; done.
    + split; [done|]. intros [_ [?|[?|[?|[?|[_ (c' & ? & ?)]]]]]]; done.
  - destruct (NewOutPointFromString (change.OutPoint chg)) as [out|]; cbn.
    + split; [done|]. by intros [? _].
    + split; [|done]. intros _. split; [done|]. do 2 right. by left.
  - destruct (NewOutPointFromString (change.OutPoint chg)) as [out|]; cbn.
    + split; [|by intros [? _]]. by destruct (find _ _ _).
    + split; [|done]. intros _. split; [done|]. do 3 right. by left.
  - split; [done|]. intros [_ [?|[?|[?|[?|[? _]]]]]]; done.
Qed.

End ApplyChangeFrame.

(** *** Changes followed by [AdjustTo] *)
Section AdjustMore.

Variable MaxRemovalWorkaroundHeight : Z.
Variable TakeoverWorkarounds : Z -> list byte -> bool.
Variable ExpirationFor : Z -> Z.
Variable NewOutPointFromString : string -> option OutPoint.
#[local] Abbreviation ApplyChange := (node.ApplyChange NewOutPointFromString).
#[local] Abbreviation settled := (node.settled ExpirationFor).
#[local] Abbreviation handleExpiredAndActivated := (node.handleExpiredAndActivated ExpirationFor).
#[local] Abbreviation updateTakeoverHeight :=
  (node.updateTakeoverHeight MaxRemovalWorkaroundHeight TakeoverWorkarounds).
#[local] Abbreviation AdjustTo_run :=
  (node.AdjustTo_run MaxRemovalWorkaroundHeight TakeoverWorkarounds ExpirationFor).

Lemma activate_fold_none h (items : ClaimList) :
  forall m0 cnt0, (forall l, l ∈ items -> ~ forceable h (m0 l)) ->
    fold_left (activateStep h) items (m0, cnt0) = (m0, cnt0).
Proof.
  induction items as [|c items IH]; intros m0 cnt0 Hnone; [done|].
  cbn [fold_left].
  destruct (activateStep_cases h m0 cnt0 c) as [[Hf _]|[_ ->]].
  - destruct (Hnone c); [by left|done].
  - apply IH. intros l Hl. apply Hnone. by right.
Qed.

Lemma activateAllClaims_none m n h :
  (activateAllClaims m n h).2 <= 0 -> activateAllClaims m n h = (m, 0).
Proof.
  rewrite activateAllClaims_fold. intros Hcount.
  pose proof (activate_fold_spec h (entries n) m 0) as (_ & _ & _ & Hiff). cbv zeta in Hiff.
  apply activate_fold_none. intros l Hl Hf.
  assert (0 < (fold_left (activateStep h) (entries n) (m, 0)).2) by (apply Hiff; by exists l).
  lia.
Qed.

(** An entry that is Deactivated when AdjustTo starts is in neither list
    when it returns. *)
Lemma AdjustTo_run_drops_deactivated fuel m n h maxHeight name m' n' final l :
  AdjustTo_run fuel m n h maxHeight name = Some (m', n', final) ->
  Status_ (m l) = Deactivated -> l ∉ entries n'.
Proof.
  intros Hrun Hd Hin.
  apply AdjustTo_run_spec in Hrun as (Hev & Hset & _).
  rewrite Forall_forall in Hset. destruct (Hset l Hin) as (Hnd & _).
  destruct (evolves_Status m m' l Hev) as [Hs|[Hs _]]; congruence.
Qed.

(** X6. A claim or support spent by ApplyChange is gone after the next
    AdjustTo: when a SpendClaim (resp. SpendSupport) change finds an entry
    with its out point, ApplyChange returns, and whatever AdjustTo is then
    called with, the entry found is in neither list of the node it
    returns. *)
Theorem X6_spent_entry_is_swept (w : World) (n : Node) (chg : change.Change) (delay : Z)
    (out : OutPoint) (c : loc) :
  NewOutPointFromString (change.OutPoint chg) = Some out ->
  (change.Type_ chg = change.SpendClaim /\ find (mem w) (byOut out) (Claims n) = Some c)
  \/ (change.Type_ chg = change.SpendSupport /\ find (mem w) (byOut out) (Supports n) = Some c) ->
  exists w', ApplyChange w n chg delay = Some (w', n, None)
    /\ Status_ (mem w' c) = Deactivated
    /\ forall fuel h maxHeight name m2 n2 final,
         AdjustTo_run fuel (mem w') n h maxHeight name = Some (m2, n2, final) ->
         (c ∉ Claims n2) /\ (c ∉ Supports n2).
Proof.
  intros Hout Hfound.
  assert (Hrun : ApplyChange w n chg delay
                 = Some (mkWorld (setStatus (mem w) c Deactivated) (next w) (mispents w) (stdout w),
                         n, None)).
  { unfold node.ApplyChange. rewrite Hout.
    destruct Hfound as [[-> Hc]|[-> Hc]]; cbn; by rewrite Hc. }
  eexists. split; [exact Hrun|]. cbn [mem].
  assert (Hd : Status_ (setStatus (mem w) c Deactivated c) = Deactivated)
    by by rewrite setStatus_same.
  split; [done|]. intros fuel h maxHeight name m2 n2 final Hadj.
  pose proof (AdjustTo_run_drops_deactivated _ _ _ _ _ _ _ _ _ c Hadj Hd) as Hnot.
  unfold entries in Hnot. split; intros Hin; apply Hnot, elem_of_app; auto.
Qed.

(** X7. The first claim of a name takes over at once: on a node without
    entries and without a best claim, an AddClaim change at height h with
    delay 0 that is visible at h and not expired at h, followed by
    AdjustTo(h, h, name), leaves the node with that one claim, Activated,
    as BestClaim, and with TakenOverAt = h. *)
Theorem X7_first_claim_takes_over (w : World) (n : Node) (chg : change.Change)
    (out : OutPoint) (name : list byte) (fuel : nat) :
  let h := change.Height chg in
  Claims n = [] -> Supports n = [] -> BestClaim n = None ->
  change.Type_ chg = change.AddClaim ->
  NewOutPointFromString (change.OutPoint chg) = Some out ->
  -2147483648 <= h <= 2147483647 ->
  change.VisibleHeight chg <= h ->
  h < int32 (h + ExpirationFor h) ->
  exists w1 n1 m2 n2,
    ApplyChange w n chg 0 = Some (w1, n1, None)
    /\ AdjustTo_run fuel (mem w1) n1 h h name = Some (m2, n2, h)
    /\ Claims n2 = [next w] /\ Supports n2 = []
    /\ BestClaim n2 = Some (next w) /\ TakenOverAt n2 = h
    /\ Status_ (m2 (next w)) = Activated
    /\ cOutPoint (m2 (next w)) = out /\ ClaimID (m2 (next w)) = change.ClaimID chg
    /\ Amount (m2 (next w)) = change.Amount chg.
Proof.
  intros h Hclaims Hsupports Hbest Hty Hout Hrange Hvis Hexp.
  destruct n as [best taken claims supports]. cbn in Hclaims, Hsupports, Hbest. subst.
  unfold node.ApplyChange. rewrite Hty, Hout. cbn [mbind option_bind find app stdout
    Claims Supports BestClaim TakenOverAt mem next mispents].
  set (p := next w).
  set (c := {| cOutPoint := out; ClaimID := change.ClaimID chg; Amount := change.Amount chg;
               AcceptedAt := change.Height chg; ActiveAt := int32 (change.Height chg + 0);
               Status_ := Accepted; Value := change.Value chg;
               VisibleAt := if change.VisibleHeight chg <=? 0
                            then change.Height chg else change.VisibleHeight chg |}).
  set (m1 := <[p := c]> (mem w)).
  set (n1 := mkNode None taken [p] []).
  assert (Hm1p : m1 p = c) by apply fn_lookup_insert.
  assert (Hactive : ActiveAt c = h).
  { cbn. rewrite Z.add_0_r. by apply int32_small. }
  assert (Hvisible : VisibleAt c <= h).
  { cbn. destruct (change.VisibleHeight chg <=? 0); [unfold h; lia|done]. }
  assert (Hactivatable : activatable h (m1 p)).
  { rewrite Hm1p. split_and!; [done|lia|done]. }
  assert (Hstays : node.stays ExpirationFor h (m1 p)).
  { rewrite Hm1p. split; [|done]. unfold node.ExpireAt. cbn. done. }
  destruct (handleExpiredAndActivated m1 n1 h) as [[mA nA] ch] eqn:HA.
  assert (Hch : 0 < ch).
  { pose proof (handle_progress ExpirationFor m1 n1 h p) as Hp. rewrite HA in Hp.
    apply Hp; [by left|]. intros (_ & _ & Hna). by apply Hna. }
  pose proof (handle_spec ExpirationFor _ _ _ _ _ _ HA) as (_ & _ & _ & _ & HbestA & HtakenA & _).
  pose proof HA as Hhandle.
  unfold node.handleExpiredAndActivated, n1 in HA.
  cbn [Claims Supports BestClaim TakenOverAt] in HA.
  destruct (node.update ExpirationFor h m1 [p] 0) as [[mB claimsB] chB] eqn:HB.
  destruct (node.update ExpirationFor h mB [] chB) as [[mC supportsC] chC] eqn:HC.
  apply (update_exact ExpirationFor) in HB as [HclaimsB HmemB].
  apply (update_exact ExpirationFor) in HC as [HsupportsC HmemC].
  injection HA as <- <- <-.
  assert (HclaimsB' : claimsB = [p]).
  { apply Permutation_singleton_r. rewrite HclaimsB. unfold node.swept.
    by rewrite filter_cons_True by done. }
  assert (HsupportsC' : supportsC = []).
  { apply Permutation_nil_r. by rewrite HsupportsC. }
  assert (HmCp : mC p = withStatus c Activated).
  { rewrite HmemC, decide_False by (by intros [?%elem_of_nil _]).
    rewrite HmemB, decide_True, Hm1p; [done|]. split; [by left|done]. }
  subst claimsB supportsC.
  assert (Huth : updateTakeoverHeight mC (mkNode None taken [p] []) h name (chC >? 0)
                 = (mC, mkNode (Some p) h [p] [])).
  { replace (chC >? 0) with true by (symmetry; rewrite Z.gtb_ltb; by apply Z.ltb_lt).
    unfold node.updateTakeoverHeight, findBestClaim, takeoverHappening, activateAllClaims.
    cbn [Claims Supports BestClaim fold_left].
    unfold bestStep, activateStep. rewrite HmCp.
    cbn [Status_ withStatus bool_decide decide_rel fst snd negb andb orb]. done. }
  cbn in HbestA, HtakenA.
  exists (mkWorld m1 (S p) (mispents w) (stdout w ++ [])), n1, mC, (mkNode (Some p) h [p] []).
  split_and!; try done.
  - unfold node.AdjustTo_run. cbn [mem]. rewrite Hhandle, Huth.
    by rewrite Z.gtb_ltb, Z.ltb_irrefl.
  - by rewrite HmCp.
  - by rewrite HmCp.
  - by rewrite HmCp.
  - by rewrite HmCp.
Qed.

Lemma takeoverHappening_holds m n candidate :
  takeoverHappening m n candidate = false <-> node.holds m n candidate.
Proof.
  unfold takeoverHappening, node.holds.
  destruct candidate as [c|], (BestClaim n) as [b|]; cbn [negb orb].
  - rewrite bool_decide_eq_true_2 by done. cbn [negb orb].
    destruct (decide (Status_ (m b) = Activated)) as [Hs|Hs].
    + rewrite (bool_decide_eq_true_2 _ Hs). cbn [negb orb].
      rewrite negb_false_iff, bool_decide_eq_true. split.
      * intros Hid. by exists c, b.
      * intros (c' & b' & [= <-] & [= <-] & _ & Hid). done.
    + rewrite (bool_decide_eq_false_2 _ Hs). cbn [negb orb]. split; [done|].
      intros (c' & b' & _ & [= <-] & Hs' & _). done.
  - rewrite bool_decide_eq_true_2 by done. cbn. split; [done|]. by intros (? & ? & _ & ? & _).
  - rewrite bool_decide_eq_false_2 by (intros H; by apply H). cbn. split; [done|].
    by intros (? & ? & ? & _).
  - rewrite bool_decide_eq_false_2 by (intros H; by apply H). cbn. split; [done|].
    by intros (? & ? & ? & _).
Qed.

Lemma findBestClaim_lists m n n' :
  Claims n' = Claims n -> Supports n' = Supports n -> findBestClaim m n' = findBestClaim m n.
Proof. unfold findBestClaim. by intros -> ->. Qed.

(** X8. A takeover: when the current winner does not hold against the
    candidate (no Activated best claim, no candidate, or a candidate with
    another claim ID), updateTakeoverHeight sets TakenOverAt to the height,
    activates early exactly the Accepted entries that are visible but
    whose activation height lies ahead, setting their ActiveAt to the
    height, and leaves both lists as they are. The new BestClaim is the
    result of findBestClaim on the resulting node whenever the best claim
    was recomputed on entry or an entry was activated early; when no entry
    was activated early, the memory is unchanged and the candidate becomes
    BestClaim. *)
Theorem X8_takeover_activates_and_refinds (m : Mem) (n : Node) (h : Z) (name : list byte)
    (refindBest : bool) :
  ~ node.holds m n (firstCandidate m n refindBest) ->
  let r := updateTakeoverHeight m n h name refindBest in
  TakenOverAt r.2 = h /\ Claims r.2 = Claims n /\ Supports r.2 = Supports n
  /\ (forall l, r.1 l = if decide (l ∈ entries n /\ forceable h (m l))
                       then withStatus (withActiveAt (m l) h) Activated else m l)
  /\ (refindBest = true \/ (exists l, l ∈ entries n /\ forceable h (m l)) ->
      BestClaim r.2 = findBestClaim r.1 r.2)
  /\ ((forall l, l ∈ entries n -> ~ forceable h (m l)) ->
      r.1 = m /\ BestClaim r.2 = firstCandidate m n refindBest).
Proof.
  intros Hno r.
  assert (Htake : takeoverHappening m n (firstCandidate m n refindBest) = true).
  { apply not_false_iff_true. by rewrite takeoverHappening_holds. }
  pose proof (activate_fold_spec h (entries n) m 0) as (_ & Hge & Hmem & Hcount).
  cbv zeta in Hge, Hmem, Hcount. rewrite <- activateAllClaims_fold in Hge, Hmem, Hcount.
  assert (Hr : r = if (activateAllClaims m n h).2 >? 0
                   then ((activateAllClaims m n h).1,
                         mkNode (findBestClaim (activateAllClaims m n h).1 n) h
                                (Claims n) (Supports n))
                   else ((activateAllClaims m n h).1,
                         mkNode (firstCandidate m n refindBest) h (Claims n) (Supports n))).
  { unfold r, node.updateTakeoverHeight. unfold firstCandidate in *. rewrite Htake.
    cbn [negb andb]. destruct (activateAllClaims m n h) as [m' count]. cbn [fst snd].
    by destruct (count >? 0). }
  destruct ((activateAllClaims m n h).2 >? 0) eqn:Hpos.
  - rewrite Z.gtb_ltb, Z.ltb_lt in Hpos. rewrite Hr. cbn [fst snd TakenOverAt Claims Supports BestClaim].
    split_and!; try done.
    intros Hnone. apply Hcount in Hpos as (l & Hl & Hf). by destruct (Hnone l Hl).
  - rewrite Z.gtb_ltb, Z.ltb_ge in Hpos.
    assert (Hsame : activateAllClaims m n h = (m, 0)) by by apply activateAllClaims_none.
    assert (Hnone : forall l, l ∈ entries n -> ~ forceable h (m l)).
    { intros l Hl Hf. assert (0 < (activateAllClaims m n h).2); [|lia].
      apply Hcount. by exists l. }
    rewrite Hr. rewrite Hsame in Hmem |- *.
    cbn [fst snd TakenOverAt Claims Supports BestClaim] in Hmem |- *.
    split_and!; try done.
    intros [->|(l & Hl & Hf)]; [|by destruct (Hnone l Hl)].
    cbn [firstCandidate]. symmetry. by apply findBestClaim_lists.
Qed.

(** X9. No takeover: when the node has an Activated best claim and the
    candidate carries its claim ID, updateTakeoverHeight leaves the memory
    as it is and activates nothing; it leaves the node as it is too, except
    below MaxRemovalWorkaroundHeight when the workaround table lists the
    height and name: then TakenOverAt becomes the height and BestClaim the
    candidate. *)
Theorem X9_no_takeover_keeps_the_node (m : Mem) (n : Node) (h : Z) (name : list byte)
    (refindBest : bool) :
  node.holds m n (firstCandidate m n refindBest) ->
  let r := updateTakeoverHeight m n h name refindBest in
  r.1 = m
  /\ (h < MaxRemovalWorkaroundHeight /\ TakeoverWorkarounds h name = true ->
      r.2 = mkNode (firstCandidate m n refindBest) h (Claims n) (Supports n))
  /\ (~ (h < MaxRemovalWorkaroundHeight /\ TakeoverWorkarounds h name = true) -> r.2 = n).
Proof.
  intros Hholds r. apply takeoverHappening_holds in Hholds.
  unfold r, node.updateTakeoverHeight. unfold firstCandidate in *. rewrite Hholds.
  cbn [negb andb].
  destruct (h <? MaxRemovalWorkaroundHeight) eqn:Hlt.
  - apply Z.ltb_lt in Hlt. destruct (TakeoverWorkarounds h name) eqn:Htab; cbn [fst snd].
    + split_and!; [done|done|]. intros Hn. destruct Hn. done.
    + split_and!; [done| |done]. by intros [_ ?].
  - apply Z.ltb_ge in Hlt. cbn [fst snd]. split_and!; [done| |done]. intros [? _]. lia.
Qed.

End AdjustMore.

(** *** The further properties on the fixtures *)
Section ConcreteMore.
Import scenario.

#[local] Abbreviation ApplyChange := (node.ApplyChange parseOutPoint).
#[local] Abbreviation handleExpiredAndActivated := (node.handleExpiredAndActivated expiration).
#[local] Abbreviation NextUpdate := (node.NextUpdate expiration).
#[local] Abbreviation updateTakeoverHeight :=
  (node.updateTakeoverHeight maxRemovalWorkaroundHeight noWorkarounds).
#[local] Abbreviation AdjustTo_run :=
  (node.AdjustTo_run maxRemovalWorkaroundHeight noWorkarounds expiration).

(** At height 20 the pending claim is neither due nor expired. *)
Lemma X2_witness :
  handleExpiredAndActivated pendingMem pendingNode 20 = (pendingMem, pendingNode, 0).
Proof.
  apply (proj2 (proj2 (X2_sweep_reports_no_change_iff_settled expiration
                         pendingMem pendingNode 20))).
  reflexivity.
Defined.

Lemma X3_witness : NextUpdate pendingMem pendingNode <= Z.max 300 10.
Proof.
  destruct (proj1 (proj2 (X3_next_update_is_the_minimum expiration pendingMem pendingNode))
              0%nat) as [_ Hactive].
  - apply list_elem_of_singleton. reflexivity.
  - apply Hactive. reflexivity.
Defined.

Lemma X4_witness :
  exists w' n', ApplyChange (worldOf []) node.New addClaimChange 0 = Some (w', n', None)
    /\ Claims n' = [0%nat] /\ Supports n' = [] /\ BestClaim n' = None.
Proof.
  destruct (ApplyChange (worldOf []) node.New addClaimChange 0) as [[[w' n'] err]|] eqn:Hrun;
    [|vm_compute in Hrun; discriminate].
  destruct (X4_apply_change_frame parseOutPoint _ _ _ _ _ _ _ Hrun)
    as (-> & Hbest & _ & Hclaims & Hsupports & _).
  exists w', n'. split; [reflexivity|]. split; [exact Hclaims|]. split; [exact Hsupports|exact Hbest].
Defined.

Lemma X5_witness : ApplyChange liveWorld oneClaimNode nilOutPointChange 0 = None.
Proof.
  apply (proj2 (X5_apply_change_panics_on_nil_out_point parseOutPoint liveWorld oneClaimNode
                  nilOutPointChange 0)).
  split; [reflexivity|]. right. left. reflexivity.
Defined.

Lemma X6_witness :
  exists w', ApplyChange liveWorld oneClaimNode spendClaimChange 0 = Some (w', oneClaimNode, None)
    /\ Status_ (mem w' 0%nat) = Deactivated
    /\ exists m2 n2 final,
         AdjustTo_run 1 (mem w') oneClaimNode 5 5 [] = Some (m2, n2, final)
         /\ 0%nat ∉ Claims n2.
Proof.
  destruct (X6_spent_entry_is_swept maxRemovalWorkaroundHeight noWorkarounds expiration
              parseOutPoint liveWorld oneClaimNode spendClaimChange 0
              (mkOutPoint (String.list_byte_of_string "t9") 0) 0%nat eq_refl
              (or_introl (conj eq_refl eq_refl)))
    as (w' & Hrun & Hd & Hswept).
  exists w'. split; [exact Hrun|]. split; [exact Hd|].
  destruct (AdjustTo_run 1 (mem w') oneClaimNode 5 5 []) as [[[m2 n2] final]|] eqn:Hadj.
  - exists m2, n2, final. split; [reflexivity|]. exact (proj1 (Hswept _ _ _ _ _ _ _ Hadj)).
  - unfold node.AdjustTo_run in Hadj.
    destruct (node.handleExpiredAndActivated _ _ _ _) as [[m1 n1] changes].
    destruct (node.updateTakeoverHeight _ _ _ _ _ _ _) as [m3 n3].
    vm_compute in Hadj. discriminate.
Defined.

Lemma X7_witness :
  exists w1 n1 m2 n2,
    ApplyChange (worldOf []) node.New addClaimChange 0 = Some (w1, n1, None)
    /\ AdjustTo_run 0 (mem w1) n1 5 5 [] = Some (m2, n2, 5)
    /\ BestClaim n2 = Some 0%nat /\ TakenOverAt n2 = 5 /\ Status_ (m2 0%nat) = Activated.
Proof.
  destruct (X7_first_claim_takes_over maxRemovalWorkaroundHeight noWorkarounds expiration
              parseOutPoint (worldOf []) node.New addClaimChange
              (mkOutPoint (String.list_byte_of_string "t9") 0) [] 0%nat
              eq_refl eq_refl eq_refl eq_refl eq_refl)
    as (w1 & n1 & m2 & n2 & Hrun & Hadj & _ & _ & Hbest & Htaken & Hstatus & _).
  - vm_compute. split; discriminate.
  - vm_compute. discriminate.
  - reflexivity.
  - exists w1, n1, m2, n2.
    split; [exact Hrun|]. split; [exact Hadj|]. split; [exact Hbest|]. split; [exact Htaken|].
    exact Hstatus.
Defined.

Lemma X8_witness :
  TakenOverAt (updateTakeoverHeight pendingMem pendingNode 200 [] false).2 = 200
  /\ (updateTakeoverHeight pendingMem pendingNode 200 [] false).1 0%nat
     = withStatus (withActiveAt (pendingMem 0%nat) 200) Activated.
Proof.
  destruct (X8_takeover_activates_and_refinds maxRemovalWorkaroundHeight noWorkarounds
              pendingMem pendingNode 200 [] false) as (Htaken & _ & _ & Hmem & _).
  - intros (c & b & _ & Hb & _). discriminate Hb.
  - split; [exact Htaken|]. rewrite Hmem. reflexivity.
Defined.

Lemma X9_witness :
  updateTakeoverHeight orderedMem championNode 50 [] true = (orderedMem, championNode).
Proof.
  destruct (X9_no_takeover_keeps_the_node maxRemovalWorkaroundHeight noWorkarounds
              orderedMem championNode 50 [] true) as (Hmem & _ & Hnode).
  - exists 0%nat, 0%nat. split; [reflexivity|]. split; [reflexivity|].
    split; reflexivity.
  - destruct (updateTakeoverHeight orderedMem championNode 50 [] true) as [m' n'].
    cbn [fst snd] in Hmem, Hnode. rewrite Hmem, Hnode; [reflexivity|].
    intros [_ Htab]. discriminate Htab.
Defined.

End ConcreteMore.

End node_facts.

(** ** The Merkle prefix trie *)
Module merkletrie_facts.
Import merkletrie.

(** *** The order in which the children are visited *)

Lemma all_bytes_ascending : Byte.to_N <$> all_bytes = N.of_nat <$> seq 0 256.
Proof. by vm_compute. Qed.

Lemma elem_of_all_bytes (b : byte) : b ∈ all_bytes.
Proof. apply (bool_decide_unpack _). by destruct b; vm_compute. Qed.

Lemma NoDup_all_bytes : NoDup all_bytes.
Proof.
  apply (NoDup_fmap_1 Byte.to_N). rewrite all_bytes_ascending.
  apply NoDup_fmap_2; [|apply NoDup_seq]. intros x y. lia.
Qed.

Lemma concat_fmap_single {A B : Type} (f : A -> list B) (l : list A) (x : A) :
  NoDup l -> x ∈ l -> (forall y, y <> x -> f y = []) -> concat (f <$> l) = f x.
Proof.
  intros Hnd Hin Hoff. induction Hnd as [|y l Hy Hnd IH]; [by apply elem_of_nil in Hin|].
  cbn. apply elem_of_cons in Hin as [<-|Hin].
  - assert (Hrest : concat (f <$> l) = []).
    { clear IH Hnd. induction l as [|z l IH]; [done|]. cbn.
      rewrite Hoff, IH; [done| |].
      - intros Hx. apply Hy. by right.
      - intros ->. apply Hy. by left. }
    by rewrite Hrest, app_nil_r.
  - rewrite IH by done. rewrite Hoff; [done|]. by intros ->.
Qed.

Lemma elem_of_concat {A : Type} (x : A) (ls : list (list A)) :
  x ∈ concat ls -> exists l, x ∈ l /\ l ∈ ls.
Proof.
  induction ls as [|l ls IH]; cbn; [by intros ?%elem_of_nil|].
  intros [Hx|Hx]%elem_of_app.
  - exists l. split; [done|by left].
  - destruct (IH Hx) as (l' & ? & ?). exists l'. split; [done|by right].
Qed.

Lemma concat_fmap_nil {A B : Type} (f : A -> list B) (l : list A) :
  (forall y, f y = []) -> concat (f <$> l) = [].
Proof. intros Hf. induction l as [|z l IH]; [done|]. cbn. by rewrite Hf, IH. Qed.

Section TrieFacts.

Variable store : list byte -> option Hash * option error.
Variable DoubleHashH : list byte -> Hash.
Variable Repo : Type.
Variable repoGet : Repo -> list byte -> RepoResult.
Variable repoSet : Repo -> list byte -> list byte -> Repo.
Variable nbufHasValue : list byte -> bool.
Variable nbufEntries : list byte -> list (byte * Hash).

#[local] Abbreviation merkle := (merkletrie.merkle store DoubleHashH).
#[local] Abbreviation contribution := (merkletrie.contribution store DoubleHashH).
#[local] Abbreviation childrenBuffer := (merkletrie.childrenBuffer store DoubleHashH).
#[local] Abbreviation childrenSets := (merkletrie.childrenSets store DoubleHashH).
#[local] Abbreviation MerkleHash := (merkletrie.MerkleHash store DoubleHashH Repo repoSet).
#[local] Abbreviation resolve := (merkletrie.resolve Repo repoGet nbufHasValue nbufEntries).
#[local] Abbreviation update_path := (merkletrie.update_path Repo repoGet nbufHasValue nbufEntries).
#[local] Abbreviation resolvedAt := (merkletrie.resolvedAt Repo repoGet nbufHasValue nbufEntries).
#[local] Abbreviation Update := (merkletrie.Update Repo repoGet nbufHasValue nbufEntries).

(** *** One level of [merkle] *)

Lemma children_fold (f : byte -> option (option Hash * node * list (Hash * list byte)))
    (chs : list byte) :
  forall b0 k0 s0,
    let r := fold_left (fun st ch => childStep ch (f ch) st) chs (b0, k0, s0) in
    r.1.1 = b0 ++ concat ((fun ch => match f ch with
                                     | Some (Some h, _, _) => ch :: h
                                     | _ => []
                                     end) <$> chs)
    /\ r.2 = s0 ++ concat ((fun ch => match f ch with
                                      | Some (_, _, w) => w
                                      | None => []
                                      end) <$> chs)
    /\ forall ch, r.1.2 ch = if decide (ch ∈ chs)
                             then match f ch with
                                  | Some (_, c', _) => Some c'
                                  | None => k0 ch
                                  end
                             else k0 ch.
Proof.
  induction chs as [|x chs IH]; intros b0 k0 s0; cbn [fold_left fmap list_fmap concat].
  { cbn [fst snd]. rewrite !app_nil_r. split_and!; [done|done|].
    intros ch. rewrite decide_False; [done|]. apply not_elem_of_nil. }
  destruct (f x) as [[[h c'] w]|] eqn:Hx; cbn [childStep].
  - specialize (IH (match h with Some h => b0 ++ x :: h | None => b0 end)
                  (<[x := Some c']> k0) (s0 ++ w)).
    cbv zeta in IH. destruct IH as (Hb & Hs & Hk). split_and!.
    + rewrite Hb. destruct h; by rewrite <- ?app_assoc.
    + rewrite Hs. by rewrite <- app_assoc.
    + intros ch. rewrite Hk. destruct (decide (ch = x)) as [->|Hne].
      * rewrite Hx, fn_lookup_insert. rewrite (decide_True (P := x ∈ x :: chs)) by by left.
        by destruct (decide (x ∈ chs)).
      * rewrite fn_lookup_insert_ne by done.
        destruct (decide (ch ∈ chs)) as [Hin|Hin].
        -- rewrite decide_True by by right. done.
        -- rewrite decide_False; [done|]. by intros [?|?]%elem_of_cons.
  - specialize (IH b0 k0 s0). cbv zeta in IH. destruct IH as (Hb & Hs & Hk). split_and!.
    + by rewrite Hb.
    + by rewrite Hs.
    + intros ch. rewrite Hk. destruct (decide (ch = x)) as [->|Hne].
      * rewrite Hx. by destruct (decide (x ∈ chs)), (decide (x ∈ x :: chs)).
      * destruct (decide (ch ∈ chs)) as [Hin|Hin].
        -- rewrite decide_True by by right. done.
        -- rewrite decide_False; [done|]. by intros [?|?]%elem_of_cons.
Qed.

#[local] Opaque all_bytes.

Lemma merkle_clean prefix h hv ls :
  merkle prefix (mkNode (Some h) hv ls) = (Some h, mkNode (Some h) hv ls, []).
Proof. reflexivity. Qed.

Lemma merkle_unfold prefix hv ls :
  merkle prefix (mkNode None hv ls) =
  let '(b, kids, sets) :=
    fold_left
      (fun st ch =>
         childStep ch
           match ls ch with
           | None => None
           | Some c => Some (merkle (prefix ++ [ch]) c)
           end st)
      all_bytes ([], ls, []) in
  let finish (b : list byte) :=
    if bool_decide (length b <> 0%nat) then
      let h := DoubleHashH b in
      (Some h, mkNode (Some h) hv kids, sets ++ [(h, b)])
    else (None, mkNode None hv kids, sets) in
  if hv then
    match store prefix with
    | (_, Some err) => (None, mkNode None hv kids, sets)
    | (Some h, None) => finish (b ++ h)
    | (None, None) => finish b
    end
  else finish b.
Proof. reflexivity. Qed.

(** The result of [merkle] on a node without a hash, in terms of the
    results on its children. *)
Lemma merkle_dirty prefix hv ls :
  exists kids,
    (forall ch, kids ch = match ls ch with
                          | Some c => Some (merkle (prefix ++ [ch]) c).1.2
                          | None => None
                          end)
    /\ merkle prefix (mkNode None hv ls) =
       let b := childrenBuffer prefix ls in
       let sets := childrenSets prefix ls in
       let finish (b : list byte) :=
         if bool_decide (length b <> 0%nat) then
           (Some (DoubleHashH b), mkNode (Some (DoubleHashH b)) hv kids,
            sets ++ [(DoubleHashH b, b)])
         else (None, mkNode None hv kids, sets) in
       if hv then
         match store prefix with
         | (_, Some err) => (None, mkNode None hv kids, sets)
         | (Some h, None) => finish (b ++ h)
         | (None, None) => finish b
         end
       else finish b.
Proof.
  rewrite merkle_unfold.
  set (f := fun ch => match ls ch with
                      | None => None
                      | Some c => Some (merkle (prefix ++ [ch]) c)
                      end).
  pose proof (children_fold f all_bytes [] ls []) as (Hb & Hs & Hk). cbv zeta in Hb, Hs, Hk.
  change (fold_left _ all_bytes ([], ls, []))
    with (fold_left (fun st ch => childStep ch (f ch) st) all_bytes ([], ls, [])).
  destruct (fold_left (fun st ch => childStep ch (f ch) st) all_bytes ([], ls, []))
    as [[b kids] sets].
  cbn [fst snd] in Hb, Hs, Hk. exists kids. split.
  - intros ch. rewrite Hk, decide_True by apply elem_of_all_bytes.
    unfold f. destruct (ls ch) as [c|]; [|done]. by destruct (merkle (prefix ++ [ch]) c) as [[? ?] ?].
  - assert (Hb' : b = childrenBuffer prefix ls).
    { rewrite Hb. cbn [app]. unfold merkletrie.childrenBuffer. f_equal.
      apply list_fmap_ext. intros _ ch _. unfold merkletrie.contribution, f.
      destruct (ls ch) as [c|]; [|done].
      by destruct (merkle (prefix ++ [ch]) c) as [[[h|] ?] ?]. }
    assert (Hs' : sets = childrenSets prefix ls).
    { rewrite Hs. cbn [app]. unfold merkletrie.childrenSets. f_equal.
      apply list_fmap_ext. intros _ ch _. unfold f.
      destruct (ls ch) as [c|]; [|done].
      by destruct (merkle (prefix ++ [ch]) c) as [[? ?] ?]. }
    by rewrite Hb', Hs'.
Qed.

(** The hash pointer that [merkle] returns is the one it leaves in the node. *)
Lemma merkle_returns_hash prefix n : hash (merkle prefix n).1.2 = (merkle prefix n).1.1.
Proof.
  destruct n as [[h|] hv ls]; [done|].
  destruct (merkle_dirty prefix hv ls) as (kids & _ & ->). cbv zeta.
  destruct hv; [destruct (store prefix) as [[h|] [e|]]|]; try done;
    by case_bool_decide.
Qed.

Lemma merkle_links prefix hv ls ch :
  links (merkle prefix (mkNode None hv ls)).1.2 ch
  = match ls ch with
    | Some c => Some (merkle (prefix ++ [ch]) c).1.2
    | None => None
    end.
Proof.
  destruct (merkle_dirty prefix hv ls) as (kids & Hk & ->). cbv zeta. rewrite <- Hk.
  destruct hv; [destruct (store prefix) as [[h|] [e|]]|]; try done;
    by case_bool_decide.
Qed.

Lemma merkle_hasValue prefix n : hasValue (merkle prefix n).1.2 = hasValue n.
Proof.
  destruct n as [[h|] hv ls]; [done|].
  destruct (merkle_dirty prefix hv ls) as (kids & _ & ->). cbv zeta.
  destruct hv; [destruct (store prefix) as [[h|] [e|]]|]; try done;
    by case_bool_decide.
Qed.


(** *** [Update] along the path, [merkle] along and off the path *)

Lemma update_path_inv r key n0 n1 :
  update_path r n0 key = Some n1 ->
  exists x', resolve r n0 = Some x' /\ hash n1 = None
    /\ match key with
       | [] => n1 = mkNode None true (links x')
       | ch :: key' =>
           exists child',
             update_path r (match links x' ch with Some c => c | None => newNode end) key'
             = Some child'
             /\ n1 = mkNode None (hasValue x') (<[ch := Some child']> (links x'))
       end.
Proof.
  destruct key as [|ch key']; cbn [merkletrie.update_path]; intros Hrun.
  - destruct (resolve r n0) as [x'|]; [|done]. cbn in Hrun. simplify_eq. by exists x'.
  - destruct (resolve r n0) as [x'|]; [|done]. cbn in Hrun.
    destruct (update_path r _ key') as [child'|] eqn:Hchild; [|done]. cbn in Hrun. simplify_eq.
    exists x'. split_and!; [done|done|]. by exists child'.
Qed.

(** After [Update], every node on the path has no hash, and the children
    hanging off the path are those of the node as [resolve] left it. *)
Lemma path_after_update r key :
  forall n0 n1, update_path r n0 key = Some n1 ->
    forall p, p `prefix_of` key ->
      exists x x', subtree n1 p = Some x /\ hash x = None /\ resolvedAt r n0 p = Some x'
        /\ forall ch, ~ (p ++ [ch]) `prefix_of` key -> links x ch = links x' ch.
Proof.
  induction key as [|ch key IH]; intros n0 n1 Hrun p Hp;
    apply update_path_inv in Hrun as (x' & Hres & Hhash & Hn1).
  - apply prefix_nil_inv in Hp as ->. subst n1. eexists _, x'.
    split_and!; [done|done|by cbn; rewrite Hres|done].
  - destruct Hn1 as (child' & Hchild & ->). destruct p as [|c p].
    + eexists _, x'. split_and!; [done|done|by cbn; rewrite Hres|].
      intros c Hc. cbn. apply fn_lookup_insert_ne. intros ->. apply Hc.
      apply prefix_cons, prefix_nil.
    + pose proof (prefix_cons_inv_1 _ _ _ _ Hp) as ->.
      apply prefix_cons_inv_2 in Hp.
      destruct (IH _ _ Hchild p Hp) as (x & x'' & Hsub & Hx & Hat & Hoff).
      exists x, x''. split_and!; [|done| |].
      * cbn. rewrite fn_lookup_insert. done.
      * cbn. rewrite Hres. done.
      * intros c Hc. apply Hoff. intros Hpre. apply Hc. cbn. by apply prefix_cons.
Qed.





(** C5 (as amended). The sentinel empty-trie hash is the 32-byte array
    whose first byte (index 0) is 0x01 and whose other bytes are 0x00.
    MerkleHash returns it on a trie as New creates it, and whenever the
    recursive computation on the root yields no hash. *)
Theorem C5_empty_trie_sentinel :
  (length emptyTrieHash = 32%nat
   /\ emptyTrieHash !! 0%nat = Some x01
   /\ forall i, (0 < i < 32)%nat -> emptyTrieHash !! i = Some x00)
  /\ (forall r, MerkleHash (New Repo r) = (Some emptyTrieHash, New Repo r))
  /\ (forall t, (merkle [] (root Repo t)).1.1 = None -> (MerkleHash t).1 = Some emptyTrieHash)
  /\ (forall t, (MerkleHash t).1 <> None).
Proof.
  split; [|split; [|split]].
  - split; [done|]. split; [done|]. intros [|i] Hi; [lia|].
    unfold emptyTrieHash. cbn [lookup list_lookup]. apply lookup_replicate_2. lia.
  - done.
  - intros t Hnone. unfold merkletrie.MerkleHash.
    destruct (merkle [] (root Repo t)) as [[h n] sets]. cbn in Hnone. by subst h.
  - intros t. unfold merkletrie.MerkleHash.
    pose proof (merkle_returns_hash [] (root Repo t)) as Hh.
    destruct (merkle [] (root Repo t)) as [[h n] sets]. cbn in Hh.
    destruct h; cbn; [by rewrite Hh|done].
Qed.

(** C7 (as amended). The hash of a node without a hash is recomputed from
    the buffer of the pairs branch byte, recursive hash of the children whose
    recursive hash exists, in ascending branch order. If the node has
    has_value and the ValueStore returns a hash without an error, that hash
    is appended; if it returns neither a hash nor an error, nothing is
    appended and the hash is computed from the children alone; if it returns
    an error, merkle returns none at once: whatever the children
    contributed, the node keeps no hash and nothing is persisted for it. An
    empty buffer yields none; otherwise the hash is the double hash of the
    buffer, and the buffer is persisted to the repository under that hash
    after the blobs of the children. *)
Theorem C7_dirty_node_hash (prefix : list byte) (hv : bool) (ls : byte -> option node) :
  let r := merkle prefix (mkNode None hv ls) in
  let sets := childrenSets prefix ls in
  Byte.to_N <$> all_bytes = N.of_nat <$> seq 0 256
  /\ (forall ch, contribution prefix ls ch =
                 match ls ch with
                 | Some c => match (merkle (prefix ++ [ch]) c).1.1 with
                             | Some h => ch :: h
                             | None => []
                             end
                 | None => []
                 end)
  /\ hasValue r.1.2 = hv
  /\ (forall ch, links r.1.2 ch = match ls ch with
                                  | Some c => Some (merkle (prefix ++ [ch]) c).1.2
                                  | None => None
                                  end)
  /\ (forall leaf,
        (hv = false /\ leaf = None) \/ (hv = true /\ store prefix = (leaf, None)) ->
        let b := childrenBuffer prefix ls ++ default [] leaf in
        (b = [] -> r.1.1 = None /\ hash r.1.2 = None /\ r.2 = sets)
        /\ (b <> [] -> r.1.1 = Some (DoubleHashH b) /\ hash r.1.2 = Some (DoubleHashH b)
                       /\ r.2 = sets ++ [(DoubleHashH b, b)]))
  /\ (forall leaf err,
        hv = true -> store prefix = (leaf, Some err) ->
        r.1.1 = None /\ hash r.1.2 = None /\ r.2 = sets)
  /\ (forall t, repo Repo (MerkleHash t).2
                = fold_left (fun r '(k, v) => repoSet r k v) (merkle [] (root Repo t)).2
                    (repo Repo t)).
Proof.
  intros r sets. split_and!.
  - apply all_bytes_ascending.
  - done.
  - apply merkle_hasValue.
  - apply merkle_links.
  - intros leaf Hleaf b. unfold r, sets.
    destruct (merkle_dirty prefix hv ls) as (kids & _ & ->). cbv zeta.
    assert (Hlen : forall l : list byte, bool_decide (length l <> 0%nat) = bool_decide (l <> [])).
    { intros l. apply bool_decide_ext. by destruct l. }
    destruct Hleaf as [[-> ->]|[-> Hstore]].
    + unfold b. cbn [default]. rewrite app_nil_r. rewrite Hlen.
      split; intros Hb; [rewrite bool_decide_eq_false_2 by (by intros ?)
                        |rewrite bool_decide_eq_true_2 by done]; done.
    + rewrite Hstore. unfold b. destruct leaf as [h|]; cbn [default]; rewrite ?app_nil_r, Hlen;
        (split; intros Hb; [rewrite bool_decide_eq_false_2 by (by intros ?)
                           |rewrite bool_decide_eq_true_2 by done]; done).
  - intros leaf err -> Hstore. unfold r, sets.
    destruct (merkle_dirty prefix true ls) as (kids & _ & ->). cbv zeta. rewrite Hstore.
    by destruct leaf.
  - intros t. unfold merkletrie.MerkleHash.
    destruct (merkle [] (root Repo t)) as [[h n] s']. by destruct h.
Qed.


(** *** What [merkle] keeps, and what it writes *)

(** X10. merkle only fills in hashes. At every place of the tree where
    there was a node there is one afterwards, with the same has_value flag,
    and where there was none there is none; a node that has a hash is left
    exactly as it is, with everything below it. *)
Theorem X10_merkle_only_fills_in_hashes (p prefix : list byte) (n : node) :
  match subtree n p with
  | Some x =>
      exists x', subtree (merkle prefix n).1.2 p = Some x'
        /\ hasValue x' = hasValue x
        /\ (forall h, hash x = Some h -> x' = x)
  | None => subtree (merkle prefix n).1.2 p = None
  end.
Proof.
  revert prefix n. induction p as [|ch p IH]; intros prefix n.
  - cbn [subtree]. eexists. split_and!; [done|apply merkle_hasValue|].
    intros h Hh. destruct n as [h' hv ls]. cbn in Hh. subst h'. by rewrite merkle_clean.
  - destruct n as [[h|] hv ls].
    + rewrite merkle_clean. cbn [fst snd]. destruct (subtree _ _) as [x|]; [|done]. by exists x.
    + cbn [subtree links]. rewrite merkle_links.
      destruct (ls ch) as [c|]; [|done]. cbn [mbind option_bind]. apply IH.
Qed.

Lemma merkle_again prefix n :
  (merkle prefix (merkle prefix n).1.2).1.1 = (merkle prefix n).1.1
  /\ (merkle prefix (merkle prefix n).1.2).2 = [].
Proof.
  revert prefix. induction n as [h hv ls IH] using node_ind'. intros prefix.
  destruct h as [h|]; [by rewrite merkle_clean|].
  pose proof (merkle_returns_hash prefix (mkNode None hv ls)) as Hhash.
  pose proof (merkle_hasValue prefix (mkNode None hv ls)) as Hhv.
  pose proof (merkle_links prefix hv ls) as Hlinks.
  destruct (merkle prefix (mkNode None hv ls)) as [[h1 n1] sets1] eqn:Hrun.
  cbn [fst snd] in *. destruct n1 as [h1' hv1 kids]. cbn in Hhash, Hhv, Hlinks. subst h1' hv1.
  destruct h1 as [h1|]; [by rewrite merkle_clean|].
  assert (Hbuf : childrenBuffer prefix kids = childrenBuffer prefix ls).
  { unfold merkletrie.childrenBuffer. f_equal. apply list_fmap_ext. intros _ ch _.
    unfold merkletrie.contribution. rewrite Hlinks. destruct (ls ch) as [c|] eqn:Hc; [|done].
    by rewrite (proj1 (IH ch c Hc (prefix ++ [ch]))). }
  assert (Hsets : childrenSets prefix kids = []).
  { unfold merkletrie.childrenSets. apply concat_fmap_nil. intros ch.
    rewrite Hlinks. destruct (ls ch) as [c|] eqn:Hc; [|done].
    apply (IH ch c Hc (prefix ++ [ch])). }
  destruct (merkle_dirty prefix hv ls) as (kids0 & _ & Hfirst). rewrite Hrun in Hfirst.
  destruct (merkle_dirty prefix hv kids) as (kids2 & _ & ->).
  cbv zeta in Hfirst |- *. rewrite Hbuf, Hsets.
  destruct hv; [destruct (store prefix) as [[v|] [e|]]|]; try done;
    case_bool_decide; simplify_eq; done.
Qed.

(** X11. MerkleHash is stable: called again on the trie it has left, it
    returns the same hash and makes no call to repo.Set, so the repository
    stays as the first call left it. The same holds of merkle on every
    node. *)
Theorem X11_merkle_hash_is_stable (t : MerkleTrie Repo) :
  let t1 := (MerkleHash t).2 in
  (MerkleHash t1).1 = (MerkleHash t).1
  /\ repo Repo (MerkleHash t1).2 = repo Repo t1
  /\ (forall prefix n,
        (merkle prefix (merkle prefix n).1.2).1.1 = (merkle prefix n).1.1
        /\ (merkle prefix (merkle prefix n).1.2).2 = []).
Proof.
  intros t1. split_and!; [| |apply merkle_again].
  - unfold t1, merkletrie.MerkleHash.
    pose proof (merkle_again [] (root Repo t)) as [Hh _].
    pose proof (merkle_returns_hash [] (root Repo t)) as Hr.
    pose proof (merkle_returns_hash [] (merkle [] (root Repo t)).1.2) as Hr2.
    destruct (merkle [] (root Repo t)) as [[h n] sets]. cbn [fst snd] in *.
    destruct h as [h|]; cbn [fst snd root];
      destruct (merkle [] n) as [[h2 n2] sets2]; cbn [fst snd] in *; subst; cbn; congruence.
  - unfold t1, merkletrie.MerkleHash.
    pose proof (merkle_again [] (root Repo t)) as [_ Hs].
    destruct (merkle [] (root Repo t)) as [[h n] sets]. cbn [fst snd] in *.
    destruct h as [h|]; cbn [fst snd root repo];
      destruct (merkle [] n) as [[h2 n2] sets2]; cbn [fst snd] in *; subst; by destruct h2.
Qed.

(** X12. Every call repo.Set(h, b) that merkle makes stores a non-empty
    buffer under its own double hash; on a node that has a hash merkle
    makes no call. *)
Theorem X12_writes_are_content_addressed (prefix : list byte) (n : node) :
  (forall k v, (k, v) ∈ (merkle prefix n).2 -> k = DoubleHashH v /\ v <> [])
  /\ (forall h, hash n = Some h -> (merkle prefix n).2 = []).
Proof.
  split.
  2:{ intros h Hh. destruct n as [h' hv ls]. cbn in Hh. subst h'. by rewrite merkle_clean. }
  revert prefix. induction n as [h hv ls IH] using node_ind'. intros prefix k v.
  destruct h as [h|]; [rewrite merkle_clean; by intros ?%elem_of_nil|].
  destruct (merkle_dirty prefix hv ls) as (kids & _ & ->). cbv zeta.
  assert (Hkids : (k, v) ∈ childrenSets prefix ls -> k = DoubleHashH v /\ v <> []).
  { unfold merkletrie.childrenSets. intros (s' & Hin & Hs')%elem_of_concat.
    apply list_elem_of_fmap in Hs' as (ch & -> & _).
    destruct (ls ch) as [c|] eqn:Hc; [|by apply elem_of_nil in Hin].
    by apply (IH ch c Hc (prefix ++ [ch])). }
  assert (Hown : forall b : list byte, length b <> 0%nat ->
            (k, v) ∈ childrenSets prefix ls ++ [(DoubleHashH b, b)] ->
            k = DoubleHashH v /\ v <> []).
  { intros b Hb [Hin|Hin%list_elem_of_singleton]%elem_of_app; [by apply Hkids|].
    simplify_eq. split; [done|]. intros ->. by apply Hb. }
  destruct hv; [destruct (store prefix) as [[hv'|] [e|]]|]; try done;
    case_bool_decide; eauto.
Qed.

(** *** [Update], then [MerkleHash] *)

Lemma resolve_dirty r n : hash n = None -> resolve r n = Some n.
Proof. unfold merkletrie.resolve. by intros ->. Qed.

Lemma resolve_hash r n n' : resolve r n = Some n' -> hash n' = hash n.
Proof.
  unfold merkletrie.resolve. destruct (hash n) as [h|] eqn:Hh; [|by intros [= <-]].
  destruct (repoGet r h); intros [= <-]; done.
Qed.

Lemma update_path_total r key :
  (forall h e, repoGet r h <> RError e) ->
  forall n, exists n1, update_path r n key = Some n1.
Proof.
  intros Hok.
  assert (Hres : forall n, exists n', resolve r n = Some n').
  { intros n. unfold merkletrie.resolve. destruct (hash n) as [h|]; [|by eexists].
    destruct (repoGet r h) as [b| |e] eqn:Hget; [by eexists|by eexists|by destruct (Hok h e)]. }
  induction key as [|ch key IH]; intros n; cbn [merkletrie.update_path];
    destruct (Hres n) as [n' ->]; cbn [mbind option_bind]; [by eexists|].
  destruct (IH (match links n' ch with Some c => c | None => newNode end)) as [c' ->].
  cbn. by eexists.
Qed.

Lemma update_path_marks r key :
  forall n n1, update_path r n key = Some n1 ->
    exists x, subtree n1 key = Some x /\ hasValue x = true /\ hash x = None.
Proof.
  induction key as [|ch key IH]; intros n n1 Hrun;
    apply update_path_inv in Hrun as (x' & _ & _ & Hn1).
  - subst n1. by eexists.
  - destruct Hn1 as (child' & Hchild & ->). cbn [subtree links].
    rewrite fn_lookup_insert. cbn [mbind option_bind]. by eapply IH.
Qed.

(** X13. Update never fails while the repository answers every Get with a
    blob or with not-found; it leaves the repository as it is, and in the
    tree it leaves, the node at the key exists, has has_value set and has
    no hash, as has no node on the way to it. *)
Theorem X13_update_marks_the_key (t : MerkleTrie Repo) (key : list byte) :
  (forall h e, repoGet (repo Repo t) h <> RError e) ->
  exists t1, Update t key = Some t1
    /\ repo Repo t1 = repo Repo t
    /\ (exists x, subtree (root Repo t1) key = Some x /\ hasValue x = true /\ hash x = None)
    /\ (forall p, p `prefix_of` key ->
          exists y, subtree (root Repo t1) p = Some y /\ hash y = None).
Proof.
  intros Hok. unfold merkletrie.Update.
  destruct (update_path_total (repo Repo t) key Hok (root Repo t)) as [n1 Hrun].
  rewrite Hrun. cbn [mbind option_bind]. eexists. split; [done|]. cbn [repo root].
  split_and!; [done|by eapply update_path_marks|].
  intros p Hp. destruct (path_after_update _ _ _ _ Hrun p Hp) as (x & _ & Hx & Hh & _).
  by exists x.
Qed.

Lemma load_links (es : list (byte * Hash)) (ls : byte -> option node) (ch : byte) :
  fold_left (fun ls '(p, h) => <[p := Some (mkNode (Some h) false (fun _ => None))]> ls) es ls ch
  = match last (filter (fun e => e.1 = ch) es) with
    | Some e => Some (mkNode (Some e.2) false (fun _ => None))
    | None => ls ch
    end.
Proof.
  induction es as [|[p h] es IH] using rev_ind; [done|].
  rewrite fold_left_app, filter_app. cbn [fold_left].
  destruct (decide (p = ch)) as [->|Hne].
  - rewrite fn_lookup_insert. rewrite (filter_cons_True _ (ch, h)) by done.
    rewrite filter_nil. by rewrite last_snoc.
  - rewrite fn_lookup_insert_ne by done. rewrite (filter_cons_False _ (p, h)) by done.
    rewrite filter_nil, app_nil_r. apply IH.
Qed.

(** X17. resolve panics exactly on a repository error other than
    not-found. It leaves a node without a hash, or whose hash the
    repository does not know, as it is. When the repository holds a blob
    for the hash, the node keeps its hash, takes has_value from the blob,
    and on every branch the blob lists gets an unresolved child without
    value or children that carries the hash of the last entry of that
    branch, whatever child was there before; the other branches keep
    their children. *)
Theorem X17_resolve_loads_the_blob (r : Repo) (n : node) :
  (resolve r n = None <-> exists h e, hash n = Some h /\ repoGet r h = RError e)
  /\ (hash n = None \/ (exists h, hash n = Some h /\ repoGet r h = RNotFound) ->
      resolve r n = Some n)
  /\ (forall h b, hash n = Some h -> repoGet r h = RFound b ->
        exists n', resolve r n = Some n'
          /\ hash n' = Some h /\ hasValue n' = nbufHasValue b
          /\ forall ch, links n' ch
                        = match last (filter (fun e => e.1 = ch) (nbufEntries b)) with
                          | Some e => Some (mkNode (Some e.2) false (fun _ => None))
                          | None => links n ch
                          end).
Proof.
  unfold merkletrie.resolve. split_and!.
  - destruct (hash n) as [h|].
    + destruct (repoGet r h) as [b| |e] eqn:Hget.
      * split; [done|]. intros (h' & e & [= <-] & He). congruence.
      * split; [done|]. intros (h' & e & [= <-] & He). congruence.
      * split; [|done]. intros _. by exists h, e.
    + split; [done|]. by intros (h & e & ? & _).
  - intros [->|(h & -> & ->)]; done.
  - intros h b -> ->. eexists. split; [done|]. split_and!; [done|done|].
    intros ch. cbn [links]. apply load_links.
Qed.

Lemma update_path_fresh r key n :
  resolve r n = Some n -> hasValue n = false -> links n = (fun _ => None) ->
  update_path r n key = update_path r newNode key.
Proof.
  intros Hres Hhv Hls. destruct key as [|ch key]; cbn [merkletrie.update_path].
  - rewrite Hres, (resolve_dirty r newNode) by done. cbn. by rewrite Hls.
  - rewrite Hres, (resolve_dirty r newNode) by done. cbn. by rewrite Hls, Hhv.
Qed.

Lemma childrenBuffer_none prefix : childrenBuffer prefix (fun _ => None) = [].
Proof. unfold merkletrie.childrenBuffer. by apply concat_fmap_nil. Qed.

Lemma childrenBuffer_single prefix ch c :
  childrenBuffer prefix (<[ch := Some c]> (fun _ => None))
  = match (merkle (prefix ++ [ch]) c).1.1 with Some h => ch :: h | None => [] end.
Proof.
  unfold merkletrie.childrenBuffer.
  rewrite (concat_fmap_single _ all_bytes ch);
    [|apply NoDup_all_bytes|apply elem_of_all_bytes|].
  - unfold merkletrie.contribution. by rewrite fn_lookup_insert.
  - intros y Hy. unfold merkletrie.contribution. by rewrite fn_lookup_insert_ne.
Qed.

(** The hash of the trie that holds the one name [key] with the value
    hash [v]: the value hash is hashed at the end of the path, and each
    node above hashes its branch byte followed by the hash below. *)
Lemma single_name_merkle r key :
  forall prefix, exists n1,
    update_path r newNode key = Some n1
    /\ (forall v, store (prefix ++ key) = (Some v, None) -> v <> [] ->
          (merkle prefix n1).1.1
          = Some (foldr (fun ch h => DoubleHashH (ch :: h)) (DoubleHashH v) key))
    /\ ((forall v, store (prefix ++ key) = (Some v, None) -> v = []) ->
          (merkle prefix n1).1.1 = None).
Proof.
  induction key as [|ch key IH]; intros prefix.
  - cbn [merkletrie.update_path]. rewrite (resolve_dirty r newNode) by done. cbn.
    eexists. split; [done|]. rewrite app_nil_r.
    destruct (merkle_dirty prefix true (fun _ => None)) as (kids & _ & ->). cbv zeta.
    rewrite childrenBuffer_none. cbn [app]. split.
    + intros v -> Hv. rewrite bool_decide_eq_true_2; [done|]. by destruct v.
    + intros Hnone. destruct (store prefix) as [[v|] [e|]]; try done.
      by rewrite (Hnone v eq_refl).
  - cbn [merkletrie.update_path]. rewrite (resolve_dirty r newNode) by done. cbn.
    destruct (IH (prefix ++ [ch])) as (c & -> & Hsome & Hnone). cbn.
    rewrite <- app_assoc in Hsome, Hnone. cbn [app] in Hsome, Hnone.
    eexists. split; [done|].
    destruct (merkle_dirty prefix false (<[ch := Some c]> (fun _ => None))) as (kids & _ & ->).
    cbv zeta. rewrite childrenBuffer_single. split.
    + intros v Hv Hne. by rewrite (Hsome v Hv Hne).
    + intros Hv. by rewrite (Hnone Hv).
Qed.

(** X14. The root hash of a trie with one name. On a trie as New creates
    it, over a repository that does not know the empty-trie hash,
    Update(key) followed by MerkleHash returns: the double hash of the
    value hash when the key is empty, and otherwise, from the end of the
    key to its start, the double hash of each key byte followed by the hash
    computed so far, provided the ValueStore returns a non-empty hash for
    the key and no error; the empty-trie hash when the ValueStore returns
    no hash or an error for the key. *)
Theorem X14_root_hash_of_one_name (r : Repo) (key : list byte) :
  repoGet r emptyTrieHash = RNotFound ->
  exists t1, Update (New Repo r) key = Some t1
    /\ (forall v, store key = (Some v, None) -> v <> [] ->
          (MerkleHash t1).1
          = Some (foldr (fun ch h => DoubleHashH (ch :: h)) (DoubleHashH v) key))
    /\ ((forall v, store key <> (Some v, None)) -> (MerkleHash t1).1 = Some emptyTrieHash).
Proof.
  intros Hget. unfold merkletrie.Update. cbn [merkletrie.New merkletrie.SetRoot repo root].
  rewrite update_path_fresh; [| |done|done].
  2:{ unfold merkletrie.resolve. cbn [hash]. by rewrite Hget. }
  destruct (single_name_merkle r key []) as (n1 & -> & Hsome & Hnone). cbn [app] in Hsome, Hnone.
  cbn [mbind option_bind]. eexists. split; [done|].
  unfold merkletrie.MerkleHash. cbn [root repo].
  pose proof (merkle_returns_hash [] n1) as Hr.
  destruct (merkle [] n1) as [[h n2] sets]. cbn [fst snd] in *. split.
  - intros v Hv Hne. rewrite (Hsome v Hv Hne). cbn [fst]. by rewrite Hr, (Hsome v Hv Hne).
  - intros Hno. rewrite Hnone; [done|]. intros v Hv. by destruct (Hno v).
Qed.

End TrieFacts.

(** *** The properties on concrete tries *)
Section ConcreteTrie.
Import scenario.

(** In memory order the last byte of the sentinel is 0x00; the byte 0x01
    comes first. *)
Lemma C5_counterexample :
  last emptyTrieHash = Some x00 /\ emptyTrieHash !! 31%nat = Some x00
  /\ head emptyTrieHash = Some x01.
Proof. by vm_compute. Qed.

Lemma C5_witness :
  (merkletrie.merkle store toyHash [] (root repoT dirtyTrie)).1.1 = None
  /\ (trieMerkleHash dirtyTrie).1 = Some emptyTrieHash.
Proof.
  split; [by vm_compute|].
  apply (proj1 (proj2 (proj2 (C5_empty_trie_sentinel store toyHash repoT repoSet))) dirtyTrie).
  by vm_compute.
Defined.

(** A node with a value and a hashed child, over a store that reports an
    error: the child's contribution is there, yet no hash is computed. *)
Lemma C7_counterexample :
  hasValue valueNode = true
  /\ failingStore (bytes "x") = (None, Some "not found"%string)
  /\ merkletrie.childrenBuffer failingStore toyHash (bytes "x") (links valueNode)
     = "c"%byte :: replicate 32 "C"%byte
  /\ (merkletrie.merkle failingStore toyHash (bytes "x") valueNode).1.1 = None
  /\ hash (merkletrie.merkle failingStore toyHash (bytes "x") valueNode).1.2 = None
  /\ (merkletrie.merkle failingStore toyHash (bytes "x") valueNode).2 = [].
Proof. by vm_compute. Qed.

Lemma C7_witness :
  (merkletrie.merkle store toyHash (bytes "x") valueNode).1.1
  = Some (toyHash ("c"%byte :: replicate 32 "C"%byte))
  /\ (merkletrie.merkle store toyHash (bytes "e") valueNode).1.1 = None.
Proof.
  pose proof (C7_dirty_node_hash store toyHash repoT repoSet (bytes "x") true (links valueNode))
    as (_ & _ & _ & _ & Hleaf & _ & _).
  pose proof (C7_dirty_node_hash store toyHash repoT repoSet (bytes "e") true (links valueNode))
    as (_ & _ & _ & _ & _ & Herr & _).
  split.
  - destruct (Hleaf None) as [_ Hhash]; [right; split; reflexivity|].
    destruct Hhash as (Hh & _); [by vm_compute|]. exact Hh.
  - destruct (Herr None "not found"%string eq_refl eq_refl) as (Hh & _). exact Hh.
Defined.



(** The hashed child of [valueNode] is left as it is. *)
Lemma X10_witness :
  subtree (merkletrie.merkle store toyHash (bytes "x") valueNode).1.2 ["c"%byte]
  = Some (mkNode (Some (replicate 32 "C"%byte)) false (fun _ => None)).
Proof.
  pose proof (X10_merkle_only_fills_in_hashes store toyHash ["c"%byte] (bytes "x") valueNode)
    as Hkeep.
  hnf in Hkeep. destruct Hkeep as (x' & Hsub & _ & Hsame).
  rewrite (Hsame _ eq_refl) in Hsub. exact Hsub.
Defined.

Lemma X12_witness :
  let b := "c"%byte :: replicate 32 "C"%byte in
  (toyHash b, b) ∈ (merkletrie.merkle store toyHash (bytes "x") valueNode).2 /\ b <> [].
Proof.
  intros b.
  assert (Hin : (toyHash b, b) ∈ (merkletrie.merkle store toyHash (bytes "x") valueNode).2).
  { vm_compute. left. }
  split; [exact Hin|].
  exact (proj2 (proj1 (X12_writes_are_content_addressed store toyHash (bytes "x") valueNode)
                  _ _ Hin)).
Defined.

Lemma X13_witness :
  exists t1, trieUpdate trieNew "a" = Some t1
    /\ exists x, subtree (root repoT t1) (bytes "a") = Some x /\ hasValue x = true.
Proof.
  destruct (X13_update_marks_the_key repoT repoGet nbufHasValue nbufEntries trieNew (bytes "a"))
    as (t1 & Hup & _ & (x & Hx & Hv & _) & _).
  - intros h e. vm_compute. discriminate.
  - exists t1. split; [exact Hup|]. exists x. split; [exact Hx|exact Hv].
Defined.

(** The root hash of the trie that holds the name ["a"]. *)
Lemma X14_witness :
  exists t1, trieUpdate trieNew "a" = Some t1
    /\ (trieMerkleHash t1).1 = Some (toyHash ("a"%byte :: toyHash (replicate 32 "A"%byte))).
Proof.
  destruct (X14_root_hash_of_one_name store toyHash repoT repoGet repoSet nbufHasValue
              nbufEntries [] (bytes "a") eq_refl) as (t1 & Hup & Hsome & _).
  exists t1. split; [exact Hup|].
  apply (Hsome (replicate 32 "A"%byte)); [reflexivity|discriminate].
Defined.

(** A root whose blob lists branch ["c"]: resolve hangs an unresolved
    child with the listed hash on that branch. *)
Lemma X17_witness :
  let blob := "c"%byte :: replicate 32 "C"%byte in
  exists n', merkletrie.resolve repoT repoGet nbufHasValue nbufEntries
               [(toyHash blob, blob)] (mkNode (Some (toyHash blob)) true (fun _ => None))
             = Some n'
    /\ hasValue n' = false
    /\ links n' "c"%byte = Some (mkNode (Some (replicate 32 "C"%byte)) false (fun _ => None)).
Proof.
  intros blob.
  destruct (proj2 (proj2 (X17_resolve_loads_the_blob repoT repoGet nbufHasValue nbufEntries
                            [(toyHash blob, blob)]
                            (mkNode (Some (toyHash blob)) true (fun _ => None))))
              (toyHash blob) blob eq_refl eq_refl)
    as (n' & Hres & _ & Hv & Hls).
  exists n'. split; [exact Hres|]. split; [exact Hv|]. rewrite Hls. reflexivity.
Defined.

End ConcreteTrie.

End merkletrie_facts.

(** ** The replay driver *)
Module cmd_facts.
Import cmd.

Section DriverFacts.

Variable CT ID BH E : Type.
Variable ops : Facade CT ID BH E.
Variable NewOutPointFromString : string -> option node.OutPoint.
Variable NewIDFromString : string -> ID.
Variable hashEq : BH -> BH -> bool.
Variable LoadByHeight : Z -> list change.Change + error BH E.
Variable blockRepoGet : Z -> BH + error BH E.

#[local] Abbreviation rec := (recording ops).
#[local] Abbreviation rappendBlock := (cmd.appendBlock _ ID BH E rec hashEq blockRepoGet).
#[local] Abbreviation rdispatch :=
  (cmd.dispatch _ ID BH E rec NewOutPointFromString NewIDFromString).
#[local] Abbreviation rchangeStep :=
  (cmd.changeStep _ ID BH E rec NewOutPointFromString NewIDFromString hashEq blockRepoGet).
#[local] Abbreviation rchangesLoop :=
  (cmd.changesLoop _ ID BH E rec NewOutPointFromString NewIDFromString hashEq blockRepoGet).
#[local] Abbreviation rheightsLoop :=
  (cmd.heightsLoop _ ID BH E rec NewOutPointFromString NewIDFromString hashEq
     LoadByHeight blockRepoGet).
#[local] Abbreviation rRunE :=
  (cmd.RunE _ ID BH E rec NewOutPointFromString NewIDFromString hashEq
     LoadByHeight blockRepoGet).

#[local] Abbreviation stream := (cmd.stream BH E LoadByHeight).
#[local] Abbreviation callOf := (cmd.callOf (ID := ID) NewOutPointFromString NewIDFromString).
#[local] Abbreviation blockCalls := (filter (fun c : Call ID => isBlockCall c = true)).
#[local] Abbreviation methodCalls := (filter (fun c : Call ID => isBlockCall c = false)).

Lemma Forall_quiet_snoc (j : list (Call ID)) c : Forall quiet j -> quiet c -> Forall quiet (j ++ [c]).
Proof. intros Hj Hc. apply Forall_app. split; [done|]. by apply Forall_singleton. Qed.

Lemma appendBlock_quiet ct j r :
  Forall quiet j -> rappendBlock (ct, j) = r -> Forall quiet r.1.2.
Proof.
  intros Hj <-. unfold cmd.appendBlock. cbn.
  destruct (AppendBlock _ _ _ _ ops ct) as [ct1 [e|]]; cbn;
    [by apply Forall_quiet_snoc|].
  destruct (blockRepoGet (Height _ _ _ _ ops ct1)) as [hash|e]; cbn;
    [|by apply Forall_quiet_snoc].
  destruct (MerkleHash _ _ _ _ ops ct1) as [ct2 got]; cbn.
  destruct (hashEq got hash); cbn.
  - by repeat apply Forall_quiet_snoc.
  - destruct (MerkleHash _ _ _ _ ops ct2) as [ct3 got']; cbn.
    by repeat apply Forall_quiet_snoc.
Qed.

Lemma dispatch_quiet ct j chg r :
  Forall quiet j -> rdispatch (ct, j) chg = Some r -> Forall quiet r.1.2.
Proof.
  intros Hj. unfold cmd.dispatch.
  destruct (change.Type_ chg);
    try (destruct (NewOutPointFromString (change.OutPoint chg)) as [op|]; [|done]);
    cbn; intros [= <-]; cbn; try done; by apply Forall_quiet_snoc.
Qed.

Lemma changeStep_quiet ct j chg r :
  Forall quiet j -> rchangeStep (ct, j) chg = Some r -> Forall quiet r.1.2.
Proof.
  intros Hj. unfold cmd.changeStep.
  set (st := if bool_decide _ then rappendBlock (ct, j) else ((ct, j), None)).
  assert (Hst : Forall quiet st.1.2).
  { unfold st. case_bool_decide; [|done]. by eapply appendBlock_quiet. }
  destruct st as [[ct1 j1] [e|]]; cbn in Hst; [by intros [= <-]|].
  destruct (rdispatch (ct1, j1) chg) as [[[ct2 j2] err]|] eqn:Hd; [|done].
  apply dispatch_quiet in Hd; [|done]. cbn in Hd |- *.
  by destruct err; intros [= <-].
Qed.

Lemma changesLoop_quiet changes :
  forall ct j r, Forall quiet j -> rchangesLoop (ct, j) changes = Some r -> Forall quiet r.1.2.
Proof.
  induction changes as [|chg changes IH]; intros ct j r Hj; cbn.
  - by intros [= <-].
  - destruct (rchangeStep (ct, j) chg) as [[[ct1 j1] err]|] eqn:Hs; [|done].
    apply changeStep_quiet in Hs; [|done]. cbn in Hs |- *.
    destruct err; [by intros [= <-]|]. by apply IH.
Qed.

Lemma heightsLoop_quiet heights :
  forall ct j r, Forall quiet j -> rheightsLoop (ct, j) heights = Some r -> Forall quiet r.1.2.
Proof.
  induction heights as [|height heights IH]; intros ct j r Hj; cbn.
  - by intros [= <-].
  - destruct (LoadByHeight height) as [changes|e]; [|by intros [= <-]].
    destruct (rchangesLoop (ct, j) changes) as [[[ct1 j1] err]|] eqn:Hs; [|done].
    apply changesLoop_quiet in Hs; [|done]. cbn in Hs |- *.
    destruct err; [by intros [= <-]|]. by apply IH.
Qed.

(** *** The calls of a run, whatever its outcome *)

Lemma appendBlock_calls ct j :
  exists calls,
    (rappendBlock (ct, j)).1.2 = j ++ calls /\ methodCalls calls = []
    /\ (forall chg e, (rappendBlock (ct, j)).2 <> Some (ExecuteCommandError chg e))
    /\ (forall e, (rappendBlock (ct, j)).2 <> Some (LoadChangeRepoError _ _ e)).
Proof.
  unfold cmd.appendBlock. cbn.
  destruct (AppendBlock _ _ _ _ ops ct) as [ct1 [e|]]; cbn;
    [by exists [CallAppendBlock]|].
  destruct (blockRepoGet (Height _ _ _ _ ops ct1)) as [hash|e]; cbn;
    [|by exists [CallAppendBlock]].
  destruct (MerkleHash _ _ _ _ ops ct1) as [ct2 got]; cbn.
  destruct (hashEq got hash); cbn.
  - exists [CallAppendBlock; CallMerkleHash]. by rewrite <- app_assoc.
  - destruct (MerkleHash _ _ _ _ ops ct2) as [ct3 got']; cbn.
    exists [CallAppendBlock; CallMerkleHash; CallMerkleHash]. by rewrite <- !app_assoc.
Qed.

Lemma dispatch_calls ct j chg r :
  rdispatch (ct, j) chg = Some r ->
  (exists c, callOf chg = Some c /\ isBlockCall c = false /\ r.1.2 = j ++ [c])
  \/ ((exists code, change.Type_ chg = change.OtherType code) /\ r.1.2 = j /\ r.2 <> None).
Proof.
  unfold cmd.dispatch, cmd.callOf.
  destruct (change.Type_ chg);
    try (destruct (NewOutPointFromString (change.OutPoint chg)) as [op|]; [|done]);
    cbn; intros [= <-]; cbn; [left; by eexists..|].
  right. split_and!; [by eexists|done|done].
Qed.

(** One change: [dispatched] is the change if its method was called. *)
Lemma changeStep_calls ct j chg r :
  rchangeStep (ct, j) chg = Some r ->
  exists calls dispatched,
    r.1.2 = j ++ calls
    /\ (dispatched = [chg] \/ dispatched = [])
    /\ callOf <$> dispatched = Some <$> methodCalls calls
    /\ (r.2 = None -> dispatched = [chg])
    /\ (forall chg' e, r.2 = Some (ExecuteCommandError chg' e) ->
          dispatched = [chg'] \/ exists code, change.Type_ chg' = change.OtherType code)
    /\ (forall e, r.2 <> Some (LoadChangeRepoError _ _ e)).
Proof.
  unfold cmd.changeStep.
  assert (Hpre : exists calls,
            (if bool_decide (change.Height chg <> Height _ _ _ _ rec (ct, j))
             then rappendBlock (ct, j) else ((ct, j), None)).1.2 = j ++ calls
            /\ methodCalls calls = []
            /\ (forall chg' e,
                  (if bool_decide (change.Height chg <> Height _ _ _ _ rec (ct, j))
                   then rappendBlock (ct, j) else ((ct, j), None)).2
                  <> Some (ExecuteCommandError chg' e))
            /\ (forall e,
                  (if bool_decide (change.Height chg <> Height _ _ _ _ rec (ct, j))
                   then rappendBlock (ct, j) else ((ct, j), None)).2
                  <> Some (LoadChangeRepoError _ _ e))).
  { case_bool_decide; [apply appendBlock_calls|]. exists []. by rewrite app_nil_r. }
  destruct (if bool_decide _ then rappendBlock (ct, j) else ((ct, j), None))
    as [[ct1 j1] err1].
  destruct Hpre as (calls1 & Hj1 & Hm1 & Hnoexec & Hnoload). cbn [fst snd] in *. subst j1.
  destruct err1 as [e1|].
  { intros [= <-]. cbn [fst snd]. exists calls1, []. rewrite Hm1.
    split_and!; [done|by right|done|done| |done].
    intros chg' e He. by destruct (Hnoexec chg' e). }
  destruct (rdispatch (ct1, j ++ calls1) chg) as [[[ct2 j2] err2]|] eqn:Hd; [|done].
  cbn [mbind option_bind].
  apply dispatch_calls in Hd as [(c & Hc & Hb & Hj2)|(Hother & Hj2 & Herr)]; cbn [fst snd] in *.
  - subst j2.
    assert (Hm : methodCalls (calls1 ++ [c]) = [c]).
    { rewrite filter_app, Hm1. cbn [app]. by rewrite filter_cons_True, filter_nil. }
    destruct err2 as [e2|]; intros [= <-]; cbn [fst snd];
      exists (calls1 ++ [c]), [chg]; rewrite Hm; cbn [fmap list_fmap]; rewrite Hc;
      (split_and!; [by rewrite <- app_assoc|by left|done|done| |done]).
    + intros chg' e [= <- _]. by left.
    + done.
  - subst j2. destruct err2 as [e2|]; [|done]. intros [= <-]. cbn [fst snd].
    exists calls1, []. rewrite Hm1.
    split_and!; [done|by right|done|done| |done].
    intros chg' e [= <- _]. by right.
Qed.

Lemma changesLoop_calls changes :
  forall ct j r,
    rchangesLoop (ct, j) changes = Some r ->
    exists calls dispatched,
      r.1.2 = j ++ calls
      /\ dispatched `prefix_of` changes
      /\ callOf <$> dispatched = Some <$> methodCalls calls
      /\ (r.2 = None -> dispatched = changes)
      /\ (forall chg e, r.2 = Some (ExecuteCommandError chg e) ->
            last dispatched = Some chg \/ exists code, change.Type_ chg = change.OtherType code)
      /\ (forall e, r.2 <> Some (LoadChangeRepoError _ _ e)).
Proof.
  induction changes as [|chg changes IH]; intros ct j r; cbn [cmd.changesLoop].
  - intros [= <-]. exists [], []. cbn. by rewrite app_nil_r.
  - destruct (rchangeStep (ct, j) chg) as [[[ct1 j1] err1]|] eqn:Hs; [|done].
    cbn [mbind option_bind].
    apply changeStep_calls in Hs as (calls1 & d1 & Hj1 & Hd1 & Hm1 & Hall1 & Hexec1 & Hload1).
    cbn [fst snd] in *. subst j1. destruct err1 as [e1|].
    + intros [= <-]. cbn [fst snd]. exists calls1, d1.
      split_and!; [done| |done|done| |done].
      * destruct Hd1 as [->| ->]; [apply prefix_cons, prefix_nil|apply prefix_nil].
      * intros chg' e He. destruct (Hexec1 chg' e He) as [->|?]; [by left|by right].
    + intros Hrest. rewrite (Hall1 eq_refl) in Hm1.
      apply IH in Hrest as (calls2 & d2 & -> & Hpre2 & Hm2 & Hall2 & Hexec2 & Hload2).
      exists (calls1 ++ calls2), (chg :: d2).
      split_and!; [by rewrite <- app_assoc|by apply prefix_cons| | | |done].
      * rewrite filter_app, fmap_app, <- Hm1, <- Hm2. done.
      * intros Hnone. by rewrite (Hall2 Hnone).
      * intros chg' e He. destruct (Hexec2 chg' e He) as [Hlast|?]; [|by right].
        left. destruct d2; [done|]. by rewrite last_cons, Hlast.
Qed.

Lemma heightsLoop_calls heights :
  forall ct j r,
    rheightsLoop (ct, j) heights = Some r ->
    exists calls dispatched,
      r.1.2 = j ++ calls
      /\ dispatched `prefix_of` stream heights
      /\ callOf <$> dispatched = Some <$> methodCalls calls
      /\ (r.2 = None \/ (exists e, r.2 = Some (LoadChangeRepoError _ _ e)) ->
          dispatched = stream heights)
      /\ (forall chg e, r.2 = Some (ExecuteCommandError chg e) ->
            last dispatched = Some chg \/ exists code, change.Type_ chg = change.OtherType code).
Proof.
  induction heights as [|h heights IH]; intros ct j r; cbn [cmd.heightsLoop cmd.stream].
  - intros [= <-]. exists [], []. cbn. by rewrite app_nil_r.
  - destruct (LoadByHeight h) as [changes|e] eqn:Hload.
    2:{ intros [= <-]. exists [], []. cbn. by rewrite app_nil_r. }
    destruct (rchangesLoop (ct, j) changes) as [[[ct1 j1] err1]|] eqn:Hs; [|done].
    cbn [mbind option_bind].
    apply changesLoop_calls in Hs as (calls1 & d1 & Hj1 & Hpre1 & Hm1 & Hall1 & Hexec1 & Hload1).
    cbn [fst snd] in *. subst j1. destruct err1 as [e1|].
    + intros [= <-]. cbn [fst snd]. exists calls1, d1.
      split_and!; [done|by apply prefix_app_r|done| |done].
      intros [?|[e He]]; [done|]. by destruct (Hload1 e).
    + intros Hrest. rewrite (Hall1 eq_refl) in Hm1.
      apply IH in Hrest as (calls2 & d2 & -> & Hpre2 & Hm2 & Hall2 & Hexec2).
      exists (calls1 ++ calls2), (changes ++ d2).
      split_and!; [by rewrite <- app_assoc|by apply prefix_app| | |].
      * rewrite filter_app, !fmap_app, <- Hm1, <- Hm2. done.
      * intros Hend. by rewrite (Hall2 Hend).
      * intros chg e He. destruct (Hexec2 chg e He) as [Hlast|?]; [|by right].
        left. destruct d2 as [|x d2] using rev_ind; [done|].
        rewrite last_snoc in Hlast. by rewrite app_assoc, last_snoc.
Qed.

(** C8. The driver dispatches a SpendSupport change exactly as a
    SpendClaim change: it calls SpendClaim(name, out_point) on the claim
    trie, and in no run does it call SpendSupport. In every run of the loop
    over the heights that returns, the method calls made on the claim trie
    are, in order, those that the switch selects for the changes the run
    has dispatched, SpendClaim(name, out_point) for each SpendSupport
    change among them. The dispatched changes are an initial part of the
    stream of changes, and the whole stream when the run ends without an
    error or on a height that fails to load; when the run ends on the error
    of a method, the change of that method is the last one dispatched. RunE
    is this loop on the heights from 0 up to targetHeight = 10000,
    excluded. *)
Theorem C8_spend_support_dispatched_as_spend_claim :
  (forall ct chg op,
     change.Type_ chg = change.SpendSupport ->
     NewOutPointFromString (change.OutPoint chg) = Some op ->
     cmd.dispatch CT ID BH E ops NewOutPointFromString NewIDFromString ct chg
     = Some (SpendClaim _ _ _ _ ops ct (change.Name chg) op)
     /\ forall j,
          rdispatch (ct, j) chg
          = Some (((SpendClaim _ _ _ _ ops ct (change.Name chg) op).1,
                   j ++ [CallSpendClaim (change.Name chg) op]),
                  (SpendClaim _ _ _ _ ops ct (change.Name chg) op).2))
  /\ (forall heights ct r,
        rheightsLoop (ct, []) heights = Some r ->
        (forall name op, CallSpendSupport name op ∉ r.1.2)
        /\ exists dispatched,
             dispatched `prefix_of` stream heights
             /\ callOf <$> dispatched = Some <$> methodCalls r.1.2
             /\ (r.2 = None \/ (exists e, r.2 = Some (LoadChangeRepoError _ _ e)) ->
                 dispatched = stream heights)
             /\ (forall chg e, r.2 = Some (ExecuteCommandError chg e) ->
                   last dispatched = Some chg
                   \/ exists code, change.Type_ chg = change.OtherType code)
             /\ (forall chg, chg ∈ dispatched -> change.Type_ chg = change.SpendSupport ->
                   exists op, NewOutPointFromString (change.OutPoint chg) = Some op
                              /\ CallSpendClaim (change.Name chg) op ∈ r.1.2))
  /\ (forall ct r,
        rRunE (ct, []) = Some r ->
        rheightsLoop (ct, []) (Z.of_nat <$> seq 0 (Z.to_nat targetHeight)) = Some r
        /\ forall name op, CallSpendSupport name op ∉ r.1.2).
Proof.
  split; [|split].
  - intros ct chg op Hty Hop. unfold cmd.dispatch. rewrite Hty, Hop. cbn.
    split; [done|]. intros j. by destruct (SpendClaim _ _ _ _ ops ct (change.Name chg) op).
  - intros heights ct r Hrun. split.
    { intros name op Hin. apply heightsLoop_quiet in Hrun; [|done].
      rewrite Forall_forall in Hrun. exact (Hrun _ Hin). }
    apply heightsLoop_calls in Hrun as (calls & d & Hj & Hpre & Hm & Hall & Hexec).
    cbn [app] in Hj. rewrite Hj. exists d. split_and!; [done|done|done|done|].
    intros chg Hchg Hty.
    assert (Hcall : callOf chg ∈ Some <$> methodCalls calls).
    { rewrite <- Hm. apply list_elem_of_fmap. by exists chg. }
    apply list_elem_of_fmap in Hcall as (c & Hc & Hin).
    apply list_elem_of_filter in Hin as [_ Hin].
    unfold cmd.callOf in Hc. rewrite Hty in Hc.
    destruct (NewOutPointFromString (change.OutPoint chg)) as [op|]; [|done].
    cbn in Hc. injection Hc as <-. by exists op.
  - intros ct r Hrun. unfold cmd.RunE in Hrun. split; [exact Hrun|]. intros name op Hin.
    apply heightsLoop_quiet in Hrun; [|done].
    rewrite Forall_forall in Hrun. exact (Hrun _ Hin).
Qed.

(** *** The journal of a run without an error *)

Lemma appendBlock_journal ct j ct' j' :
  rappendBlock (ct, j) = ((ct', j'), None) -> j' = j ++ [CallAppendBlock; CallMerkleHash].
Proof.
  unfold cmd.appendBlock. cbn.
  destruct (AppendBlock _ _ _ _ ops ct) as [ct1 [e|]]; cbn; [done|].
  destruct (blockRepoGet (Height _ _ _ _ ops ct1)) as [hash|e]; cbn; [|done].
  destruct (MerkleHash _ _ _ _ ops ct1) as [ct2 got]; cbn.
  destruct (hashEq got hash); cbn.
  - intros [= _ <-]. by rewrite <- app_assoc.
  - by destruct (MerkleHash _ _ _ _ ops ct2).
Qed.

Lemma dispatch_journal ct j chg ct' j' :
  rdispatch (ct, j) chg = Some ((ct', j'), None) ->
  exists c, callOf chg = Some c /\ j' = j ++ [c] /\ isBlockCall c = false.
Proof.
  unfold cmd.dispatch, cmd.callOf.
  destruct (change.Type_ chg);
    try (destruct (NewOutPointFromString (change.OutPoint chg)) as [op|]; [|done]);
    cbn; intros [= _ <- _]; by eexists.
Qed.

Lemma changeStep_journal ct j chg ct' j' :
  rchangeStep (ct, j) chg = Some ((ct', j'), None) ->
  exists c, callOf chg = Some c /\ isBlockCall c = false
    /\ (j' = j ++ [c] \/ j' = j ++ [CallAppendBlock; CallMerkleHash] ++ [c]).
Proof.
  unfold cmd.changeStep.
  destruct (if bool_decide _ then rappendBlock (ct, j) else ((ct, j), None))
    as [[ct1 j1] err] eqn:Hpre.
  assert (Hj1 : err = None -> j1 = j \/ j1 = j ++ [CallAppendBlock; CallMerkleHash]).
  { intros ->. case_bool_decide; [|left; congruence]. right. by eapply appendBlock_journal. }
  destruct err as [e|]; [done|].
  destruct (rdispatch (ct1, j1) chg) as [[[ct2 j2] err]|] eqn:Hd; [|done].
  cbn. destruct err; intros [= <- <-].
  apply dispatch_journal in Hd as (c & Hc & -> & Hb). exists c. split_and!; [done|done|].
  destruct (Hj1 eq_refl) as [->| ->]; [by left|right; by rewrite <- app_assoc].
Qed.

Lemma changesLoop_journal changes :
  forall ct j ct' j',
    rchangesLoop (ct, j) changes = Some ((ct', j'), None) ->
    exists calls, j' = j ++ calls
      /\ callOf <$> changes = Some <$> methodCalls calls
      /\ exists k, (k <= length changes)%nat
           /\ blockCalls calls = concat (replicate k [CallAppendBlock; CallMerkleHash]).
Proof.
  induction changes as [|chg changes IH]; intros ct j ct' j'; cbn.
  - intros [= <- <-]. exists []. split_and!; [by rewrite app_nil_r|done|]. by exists 0%nat.
  - destruct (rchangeStep (ct, j) chg) as [[[ct1 j1] err]|] eqn:Hs; [|done].
    cbn. destruct err; [done|]. intros Hrest.
    apply changeStep_journal in Hs as (c & Hc & Hb & Hj1).
    apply IH in Hrest as (calls & -> & Hm & k & Hk & Hbl).
    assert (Hmc : methodCalls [c] = [c]).
    { by rewrite filter_cons_True, filter_nil. }
    assert (Hbc : blockCalls [c] = []).
    { rewrite filter_cons_False, filter_nil; [done|]. by rewrite Hb. }
    destruct Hj1 as [->| ->].
    + exists (c :: calls). split_and!.
      * by rewrite <- app_assoc.
      * rewrite Hc. rewrite filter_cons_True by done. cbn. by rewrite Hm.
      * exists k. split; [lia|]. rewrite filter_cons_False; [done|]. by rewrite Hb.
    + exists ([CallAppendBlock; CallMerkleHash] ++ c :: calls). split_and!.
      * by rewrite <- !app_assoc.
      * rewrite Hc. cbn [app]. rewrite !filter_cons_False by done.
        rewrite filter_cons_True by done. cbn. by rewrite Hm.
      * exists (S k). split; [lia|]. cbn [app]. rewrite !filter_cons_True by done.
        rewrite filter_cons_False by by rewrite Hb. cbn. by rewrite Hbl.
Qed.

(** X15. The journal of a run that ends without an error. When the loop
    over the heights returns with no error, every height was loaded, and
    the calls made on the claim trie are: one method call for each loaded
    change, in the order of the heights and of the changes of a height, as
    the switch selects it; and between them pairs AppendBlock, MerkleHash,
    at most one pair for each change. RunE runs this loop on the heights
    0 to 9999 in ascending order. *)
Theorem X15_journal_of_a_clean_run (heights : list Z) (ct : CT) (j : list (Call ID))
    (ct' : CT) (j' : list (Call ID)) :
  rheightsLoop (ct, j) heights = Some ((ct', j'), None) ->
  exists loaded calls,
    Forall2 (fun h cs => LoadByHeight h = inl cs) heights loaded
    /\ j' = j ++ calls
    /\ callOf <$> concat loaded = Some <$> methodCalls calls
    /\ exists k, (k <= length (concat loaded))%nat
         /\ blockCalls calls = concat (replicate k [CallAppendBlock; CallMerkleHash]).
Proof.
  revert ct j ct' j'. induction heights as [|h heights IH]; intros ct j ct' j'; cbn.
  - intros [= <- <-]. exists [], []. split_and!; [done|by rewrite app_nil_r|done|].
    by exists 0%nat.
  - destruct (LoadByHeight h) as [changes|e] eqn:Hload; [|done].
    destruct (rchangesLoop (ct, j) changes) as [[[ct1 j1] err]|] eqn:Hs; [|done].
    cbn. destruct err; [done|]. intros Hrest.
    apply changesLoop_journal in Hs as (calls1 & -> & Hm1 & k1 & Hk1 & Hb1).
    apply IH in Hrest as (loaded & calls2 & Hl & -> & Hm2 & k2 & Hk2 & Hb2).
    exists (changes :: loaded), (calls1 ++ calls2). split_and!.
    + by constructor.
    + by rewrite <- app_assoc.
    + cbn. rewrite fmap_app, filter_app, fmap_app. by rewrite Hm1, Hm2.
    + exists (k1 + k2)%nat. split.
      * cbn. rewrite length_app. lia.
      * rewrite filter_app, Hb1, Hb2, replicate_add, concat_app. done.
Qed.

(** *** Runs that return *)

#[local] Abbreviation parses chg :=
  (is_Some (NewOutPointFromString (change.OutPoint chg))
   \/ exists code, change.Type_ chg = change.OtherType code).




End DriverFacts.

(** The counting facade tells the two methods apart: the SpendSupport
    change of the log adds 1 to the state, not 100, and the run on the log
    records the call SpendClaim for it. *)
Lemma C8_witness :
  cmd.dispatch Z string (list byte) string scenario.countingFacade scenario.parseOutPoint id
    0 scenario.spendSupportChange = Some (1, None)
  /\ exists r,
       cmd.heightsLoop _ string (list byte) string (recording scenario.countingFacade)
         scenario.parseOutPoint id (fun _ _ => true)
         scenario.changeLog scenario.blockHashes (0, []) [4; 5; 6] = Some r
       /\ r.1.1 = 1
       /\ CallSpendClaim [] (node.mkOutPoint (String.list_byte_of_string "t9") 0) ∈ r.1.2
       /\ forall name op, CallSpendSupport name op ∉ r.1.2.
Proof.
  pose proof (C8_spend_support_dispatched_as_spend_claim Z string (list byte) string
                scenario.countingFacade scenario.parseOutPoint id (fun _ _ => true)
                scenario.changeLog scenario.blockHashes) as (Hdispatch & Hloop & _).
  split.
  - exact (proj1 (Hdispatch 0 scenario.spendSupportChange
                    (node.mkOutPoint (String.list_byte_of_string "t9") 0) eq_refl eq_refl)).
  - exists ((1, [CallSpendClaim [] (node.mkOutPoint (String.list_byte_of_string "t9") 0)]), None).
    assert (Hrun : cmd.heightsLoop _ string (list byte) string
                     (recording scenario.countingFacade)
                     scenario.parseOutPoint id (fun _ _ => true)
                     scenario.changeLog scenario.blockHashes (0, []) [4; 5; 6]
                   = Some ((1, [CallSpendClaim []
                                  (node.mkOutPoint (String.list_byte_of_string "t9") 0)]), None)).
    { vm_compute. reflexivity. }
    destruct (Hloop [4; 5; 6] 0 _ Hrun) as (Hnever & dispatched & _ & _ & Hall & _ & Hspend).
    split; [exact Hrun|]. split; [reflexivity|]. split; [|exact Hnever].
    destruct (Hspend scenario.spendSupportChange) as (op & Hop & Hin).
    + rewrite (Hall (or_introl eq_refl)). apply list_elem_of_singleton. reflexivity.
    + reflexivity.
    + vm_compute in Hop. injection Hop as <-. exact Hin.
Defined.

(** The run on that log: one call, SpendClaim. *)
Example replay_of_one_spend_support :
  cmd.heightsLoop _ string (list byte) string (recording scenario.countingFacade)
    scenario.parseOutPoint id (fun _ _ => true)
    scenario.changeLog scenario.blockHashes (0, []) [4; 5; 6]
  = Some ((1, [CallSpendClaim [] (node.mkOutPoint (String.list_byte_of_string "t9") 0)]), None).
Proof. by vm_compute. Qed.

Lemma X15_witness :
  exists loaded calls,
    Forall2 (fun h cs => scenario.changeLog h = inl cs) [4; 5; 6] loaded
    /\ [CallSpendClaim [] (node.mkOutPoint (String.list_byte_of_string "t9") 0)] = [] ++ calls
    /\ cmd.callOf scenario.parseOutPoint id <$> concat loaded
       = Some <$> filter (fun c : Call string => isBlockCall c = false) calls.
Proof.
  destruct (X15_journal_of_a_clean_run Z string (list byte) string scenario.countingFacade
              scenario.parseOutPoint id (fun _ _ => true) scenario.changeLog scenario.blockHashes
              [4; 5; 6] 0 [] 1
              [CallSpendClaim [] (node.mkOutPoint (String.list_byte_of_string "t9") 0)])
    as (loaded & calls & Hloaded & Hjournal & Hcalls & _).
  - vm_compute. reflexivity.
  - exists loaded, calls. split; [exact Hloaded|]. split; [exact Hjournal|exact Hcalls].
Defined.


End cmd_facts.
